(** * Segregation: inference wrappers, Shapley decomposition, multigroup dissimilarity

    A shallow embedding of

    - [segregation/decomposition/decompose_segregation.py]
      ([_decompose_segregation]),
    - [segregation/inference/inference_wrappers.py]
      ([_infer_segregation], [_compare_segregation]),
    - [segregation/multigroup/multi_dissim.py] ([_multi_dissim]),

    together with the properties the design document states about them.

    Conventions of the embedding.

    - A float64 is carried as the rational it denotes, or one of the three
      special values [PInf], [NInf], [NaN] (type [fval]); the sign of a
      zero is not kept.  Every operation returns its rational in lowest
      terms, so that Leibniz equality is equality of values.  The
      operations of [Float] are exact; they serve where a single operation
      is applied (a p-value, the difference of two statistics) and in the
      sample index formulas.  The decomposition chains operations on four
      statistics: its arithmetic is the correctly rounded binary64 one of
      [Binary64] (IEEE 754, round to nearest, ties to even).
    - A pandas frame is a list of named columns over a positional
      (default, [RangeIndex]) row index.
    - Python objects that are mutated live in a heap of frames addressed by
      references; [.copy()] allocates, item assignment writes through the
      reference.
    - Random draws come from an oracle indexed by the number of draws made
      so far; warnings, progress reports and calls to the external
      collaborators are recorded in a log.
    - The external collaborators (the index formulas stored in
      [_function], [_generate_counterfactual], [_nan_handle]) are parameters
      of the development.  The index formulas and the generator are
      functions of the frames they are given, and an exception they raise
      reaches the engines as [External]; the NaN handler may warn, raise,
      change the frame it is given in place, and return a frame. *)

From Stdlib Require Import ZArith QArith Qabs Qround Ascii String List Lia.
From Stdlib Require SpecFloat PrimFloat FloatOps.
From stdpp Require Import base list strings.


(** ** Floating-point values *)

Module Float.

Inductive fval : Type :=
  | Fin (q : Q)
  | PInf
  | NInf
  | NaN.

Definition fin (q : Q) : fval := Fin (Qred q).

Definition of_Z (z : Z) : fval := Fin (z # 1).

Definition of_nat (n : nat) : fval := of_Z (Z.of_nat n).

Definition isnan (x : fval) : bool :=
  match x with NaN => true | _ => false end.

Definition isinf (x : fval) : bool :=
  match x with PInf | NInf => true | _ => false end.

Definition isfinite (x : fval) : bool := negb (isinf x || isnan x).

Definition fneg (x : fval) : fval :=
  match x with
  | Fin q => fin (- q)
  | PInf => NInf
  | NInf => PInf
  | NaN => NaN
  end.

Definition fadd (x y : fval) : fval :=
  match x, y with
  | NaN, _ | _, NaN => NaN
  | PInf, NInf | NInf, PInf => NaN
  | PInf, _ | _, PInf => PInf
  | NInf, _ | _, NInf => NInf
  | Fin a, Fin b => fin (a + b)
  end.

Definition fsub (x y : fval) : fval :=
  match x, y with
  | NaN, _ | _, NaN => NaN
  | PInf, PInf | NInf, NInf => NaN
  | PInf, _ | _, NInf => PInf
  | NInf, _ | _, PInf => NInf
  | Fin a, Fin b => fin (a - b)
  end.

(** Sign of a rational: [Gt] positive, [Lt] negative, [Eq] zero. *)
Definition Qsign (q : Q) : comparison := (Qnum q ?= 0)%Z.

Definition inf_of_sign (s : comparison) : fval :=
  match s with Gt => PInf | Lt => NInf | Eq => NaN end.

Definition flip (s : comparison) : comparison :=
  match s with Lt => Gt | Gt => Lt | Eq => Eq end.

Definition fmul (x y : fval) : fval :=
  match x, y with
  | NaN, _ | _, NaN => NaN
  | Fin a, Fin b => fin (a * b)
  | PInf, Fin b | Fin b, PInf => inf_of_sign (Qsign b)
  | NInf, Fin b | Fin b, NInf => inf_of_sign (flip (Qsign b))
  | PInf, PInf | NInf, NInf => PInf
  | PInf, NInf | NInf, PInf => NInf
  end.

(** numpy division with [np.seterr(divide="ignore", invalid="ignore")]:
    [x / 0] is an infinity of the sign of [x], [0 / 0] is [NaN]. *)
Definition fdiv (x y : fval) : fval :=
  match x, y with
  | NaN, _ | _, NaN => NaN
  | Fin a, Fin b =>
      if Qeq_bool b 0 then inf_of_sign (Qsign a) else fin (a / b)
  | Fin _, (PInf | NInf) => Fin 0
  | (PInf | NInf), (PInf | NInf) => NaN
  | PInf, Fin b => if Qeq_bool b 0 then PInf else inf_of_sign (Qsign b)
  | NInf, Fin b => if Qeq_bool b 0 then NInf else inf_of_sign (flip (Qsign b))
  end.

Definition fabs (x : fval) : fval :=
  match x with
  | Fin q => fin (Qabs q)
  | PInf | NInf => PInf
  | NaN => NaN
  end.

(** IEEE comparison [x < y]: false as soon as one side is [NaN]. *)
Definition fltb (x y : fval) : bool :=
  match x, y with
  | NaN, _ | _, NaN => false
  | Fin a, Fin b => match (a ?= b)%Q with Lt => true | _ => false end
  | NInf, NInf => false
  | NInf, _ => true
  | _, NInf => false
  | PInf, _ => false
  | _, PInf => true
  end.

Definition fgtb (x y : fval) : bool := fltb y x.

Definition fsum (l : list fval) : fval := fold_left fadd l (Fin 0).

(** [numpy.round(x, 0)]: round half to even. *)
Definition round_half_even (q : Q) : Z :=
  let f := Qfloor q in
  let r := (q - (f # 1))%Q in
  match (r ?= 1 # 2)%Q with
  | Lt => f
  | Gt => (f + 1)%Z
  | Eq => if Z.even f then f else (f + 1)%Z
  end.

End Float.

Export Float.

(** ** Binary64 rounding

    The arithmetic of numpy's [float64]: every operation returns the
    binary64 value nearest to the exact result, ties to the even mantissa,
    an infinity beyond the largest finite value.  The operations are those
    of the Standard Library's [SpecFloat], the specification of Rocq's
    primitive floats, at precision 53 and maximal exponent 1024; a value
    that is not a binary64 is first replaced by the nearest one, as a
    decimal literal is. *)

Module Binary64.

Import SpecFloat.

Definition prec : Z := 53.
Definition emax : Z := 1024.

(** The binary64 nearest to a value. *)
Definition to_spec (x : fval) : spec_float :=
  match x with
  | NaN => S754_nan
  | PInf => S754_infinity false
  | NInf => S754_infinity true
  | Fin q =>
      match Qnum q with
      | Z0 => S754_zero false
      | n =>
          let '(m, e, l) :=
            SFdiv_core_binary prec emax (Z.abs n) 0 (Zpos (Qden q)) 0 in
          binary_round_aux prec emax (n <? 0)%Z m e l
      end
  end.

(** The value a binary64 denotes, [m * 2 ^ e] for a finite one. *)
Definition of_spec (f : spec_float) : fval :=
  match f with
  | S754_zero _ => Fin 0
  | S754_infinity false => PInf
  | S754_infinity true => NInf
  | S754_nan => NaN
  | S754_finite s m e =>
      let v := if s then Zneg m else Zpos m in
      match e with
      | Zneg k => fin (v # 2 ^ k)
      | _ => fin (inject_Z (v * 2 ^ e))
      end
  end.

Definition nearest (x : fval) : fval := of_spec (to_spec x).

Definition add (x y : fval) : fval :=
  of_spec (SFadd prec emax (to_spec x) (to_spec y)).

Definition sub (x y : fval) : fval :=
  of_spec (SFsub prec emax (to_spec x) (to_spec y)).

Definition mul (x y : fval) : fval :=
  of_spec (SFmul prec emax (to_spec x) (to_spec y)).

Definition div (x y : fval) : fval :=
  of_spec (SFdiv prec emax (to_spec x) (to_spec y)).

End Binary64.

Arguments Binary64.nearest : simpl never.
Arguments Binary64.add : simpl never.
Arguments Binary64.sub : simpl never.
Arguments Binary64.mul : simpl never.
Arguments Binary64.div : simpl never.

(** ** Python values and exceptions *)

Inductive pyval : Type :=
  | PyBool (b : bool)
  | PyInt (z : Z)
  | PyStr (s : string)
  | PyNone.

(** [External] is an exception raised inside one of the external
    collaborators (an index formula, the counterfactual generator); the
    other constructors are raised by the code of the engines, by pandas or
    by the interpreter. *)
Inductive exn : Type :=
  | ValueError (msg : string)
  | TypeError (msg : string)
  | KeyError (key : string)
  | IndexError
  | AssertionError (msg : string)
  | ZeroDivisionError
  | External (msg : string).

(** [str(e)] *)
Definition describe (e : exn) : string :=
  match e with
  | ValueError m => m
  | TypeError m => m
  | KeyError k => k
  | IndexError => "index out of bounds"
  | AssertionError m => m
  | ZeroDivisionError => "division by zero"
  | External m => m
  end.

(** What an external collaborator hands back: its result, or the message
    of the exception it raised. *)
Definition collaborator {A} (r : exn + A) : string + A :=
  match r with
  | inr a => inr a
  | inl e => inl (describe e)
  end.

(** ** Frames *)

Module Frame.

Inductive cell : Type :=
  | Num (x : fval)
  | Str (s : string)
  | Shape (g : nat).

(** [geo]: the object is a [geopandas.GeoDataFrame]; [geometry_name] is
    [data.geometry.name]; [nrows] is [len(data)]. *)
Record DataFrame : Type := mkFrame {
  geo : bool;
  geometry_name : string;
  nrows : nat;
  columns : list (string * list cell)
}.

Definition column_names (df : DataFrame) : list string := (columns df).*1.

Fixpoint assoc {A} (c : string) (cols : list (string * A)) : option A :=
  match cols with
  | [] => None
  | (c', v) :: rest => if String.eqb c c' then Some v else assoc c rest
  end.

Fixpoint assoc_set {A} (c : string) (v : A) (cols : list (string * A))
  : list (string * A) :=
  match cols with
  | [] => [(c, v)]
  | (c', v') :: rest =>
      if String.eqb c c' then (c, v) :: rest else (c', v') :: assoc_set c v rest
  end.

Definition has_column (df : DataFrame) (c : string) : bool :=
  match assoc c (columns df) with Some _ => true | None => false end.

(** [df[c]] *)
Definition getitem (df : DataFrame) (c : string) : exn + list cell :=
  match assoc c (columns df) with
  | Some v => inr v
  | None => inl (KeyError c)
  end.

(** [df[c] = vals] for an array of values. *)
Definition setitem (df : DataFrame) (c : string) (vals : list cell)
  : exn + DataFrame :=
  if Nat.eqb (length vals) (nrows df)
  then inr (mkFrame (geo df) (geometry_name df) (nrows df)
              (assoc_set c vals (columns df)))
  else inl (ValueError "Length of values does not match length of index").

(** [df[c] = v] for a scalar. *)
Definition setitem_scalar (df : DataFrame) (c : string) (v : cell)
  : DataFrame :=
  mkFrame (geo df) (geometry_name df) (nrows df)
    (assoc_set c (replicate (nrows df) v) (columns df)).

(** [df[c] = series] for a series over a positional index: the series is
    aligned on the rows of the frame, rows it does not reach are [NaN]. *)
Definition align (n : nat) (vals : list cell) : list cell :=
  map (fun i => default (Num NaN) (vals !! i)) (seq 0 n).

Definition setitem_series (df : DataFrame) (c : string) (vals : list cell)
  : DataFrame :=
  mkFrame (geo df) (geometry_name df) (nrows df)
    (assoc_set c (align (nrows df) vals) (columns df)).

(** Arithmetic on a column needs numbers. *)
Fixpoint numeric (l : list cell) : exn + list fval :=
  match l with
  | [] => inr []
  | Num x :: rest =>
      match numeric rest with
      | inr xs => inr (x :: xs)
      | inl e => inl e
      end
  | _ :: _ => inl (TypeError "unsupported operand type(s)")
  end.

Definition nums (l : list fval) : list cell := map Num l.

(** [df[[c1, ..., ck]]] *)
Fixpoint select_columns (cols : list (string * list cell)) (cs : list string)
  : exn + list (string * list cell) :=
  match cs with
  | [] => inr []
  | c :: rest =>
      match assoc c cols with
      | None => inl (KeyError c)
      | Some v =>
          match select_columns cols rest with
          | inr r => inr ((c, v) :: r)
          | inl e => inl e
          end
      end
  end.

Definition select (df : DataFrame) (cs : list string) : exn + DataFrame :=
  match select_columns (columns df) cs with
  | inr r =>
      inr (mkFrame (geo df && existsb (String.eqb (geometry_name df)) cs)
             (geometry_name df) (nrows df) r)
  | inl e => inl e
  end.

(** [df.columns = names] *)
Definition set_column_names (df : DataFrame) (names : list string)
  : exn + DataFrame :=
  if Nat.eqb (length names) (length (columns df))
  then inr (mkFrame (geo df) (geometry_name df) (nrows df)
              (zip names (columns df).*2))
  else inl (ValueError "Length mismatch").

(** Positional row selection: [IndexError] out of bounds. *)
Fixpoint take_positions {A} (col : list A) (ps : list nat) : option (list A) :=
  match ps with
  | [] => Some []
  | p :: rest =>
      match col !! p, take_positions col rest with
      | Some x, Some xs => Some (x :: xs)
      | _, _ => None
      end
  end.

(** [df.iloc[positions]] *)
Definition iloc (df : DataFrame) (ps : list nat) : exn + DataFrame :=
  if forallb (fun p => Nat.ltb p (nrows df)) ps
  then inr (mkFrame (geo df) (geometry_name df) (length ps)
              (map (fun '(c, col) =>
                      (c, default [] (take_positions col ps))) (columns df)))
  else inl IndexError.

Fixpoint keep {A} (mask : list bool) (col : list A) : list A :=
  match mask, col with
  | b :: mask', x :: col' => if b then x :: keep mask' col' else keep mask' col'
  | _, _ => []
  end.

(** [df[mask]] for a boolean mask of the length of the frame. *)
Definition mask_rows (df : DataFrame) (mask : list bool) : DataFrame :=
  mkFrame (geo df) (geometry_name df)
    (length (filter (fun b => b = true) (firstn (nrows df) mask)))
    (map (fun '(c, col) => (c, keep mask col)) (columns df)).

(** [pd.concat([df1, df2])]: rows of [df1] then rows of [df2]; the columns
    are the union in order of first appearance, absent cells are [NaN]. *)
Definition pd_concat (df1 df2 : DataFrame) : DataFrame :=
  let missing n := replicate n (Num NaN) in
  let left :=
    map (fun '(c, col) =>
           (c, col ++ default (missing (nrows df2)) (assoc c (columns df2))))
      (columns df1) in
  let right :=
    omap (fun '(c, col) =>
            if has_column df1 c then None
            else Some (c, missing (nrows df1) ++ col))
      (columns df2) in
  mkFrame (geo df1) (geometry_name df1) (nrows df1 + nrows df2)
    (left ++ right).

(** [df.drop(cs, axis=1)] *)
Definition drop_columns (df : DataFrame) (cs : list string)
  : exn + DataFrame :=
  match filter (fun c => has_column df c = false) cs with
  | c :: _ => inl (KeyError c)
  | [] =>
      inr (mkFrame (geo df) (geometry_name df) (nrows df)
             (filter (fun p => existsb (String.eqb p.1) cs = false)
                (columns df)))
  end.

(** [pd.DataFrame.from_dict(d)] for a dict of equally long arrays. *)
Definition from_dict (d : list (string * list cell)) : exn + DataFrame :=
  match d with
  | [] => inr (mkFrame false "geometry" 0 [])
  | (_, col) :: _ =>
      if forallb (fun p => Nat.eqb (length p.2) (length col)) d
      then inr (mkFrame false "geometry" (length col) d)
      else inl (ValueError "All arrays must be of the same length")
  end.

(** [gpd.GeoDataFrame(df)] *)
Definition as_geo (df : DataFrame) : DataFrame :=
  mkFrame true (geometry_name df) (nrows df) (columns df).

(** A two-dimensional numpy array of floats, kept by columns; [shape0] is
    the number of rows. *)
Record ndarray : Type := mkArray {
  shape0 : nat;
  array_columns : list (list fval)
}.

Definition shape1 (a : ndarray) : nat := length (array_columns a).

Definition array_rows (a : ndarray) : list (list fval) :=
  map (fun i => map (fun col => default NaN (col !! i)) (array_columns a))
    (seq 0 (shape0 a)).

Fixpoint numeric_columns (cols : list (string * list cell))
  : exn + list (list fval) :=
  match cols with
  | [] => inr []
  | (_, col) :: rest =>
      match numeric col, numeric_columns rest with
      | inr c, inr r => inr (c :: r)
      | inl e, _ => inl e
      | _, inl e => inl e
      end
  end.

(** [np.array(df)], for a frame of numbers. *)
Definition to_numpy (df : DataFrame) : exn + ndarray :=
  match numeric_columns (columns df) with
  | inr cols => inr (mkArray (nrows df) cols)
  | inl e => inl e
  end.

(** [a.sum(axis=0)], [a.sum(axis=1)], [a.sum()] *)
Definition sum_axis0 (a : ndarray) : list fval := map fsum (array_columns a).

Definition sum_axis1 (a : ndarray) : list fval := map fsum (array_rows a).

Definition sum_all (a : ndarray) : fval := fsum (concat (array_rows a)).

(** [pd.DataFrame(rows, columns=names)] *)
Definition from_rows (rows : list (list fval)) (names : list string)
  : exn + DataFrame :=
  if forallb (fun r => Nat.eqb (length r) (length names)) rows
  then inr (mkFrame false "geometry" (length rows)
              (imap (fun j c => (c, map (fun r => Num (default NaN (r !! j))) rows))
                 names))
  else inl (ValueError "Shape of passed values does not match columns").

End Frame.

Export Frame.

(** ** Index objects and the external collaborators *)

(** A Python function object; [==] on functions is identity, here equality
    of the qualified name. *)
Definition func_id : Type := string.

(** The positional arguments of an index formula after the frame:
    [(group_pop_var, total_pop_var)] or [(groups)]. *)
Inductive index_args : Type :=
  | Single (group_pop_var total_pop_var : string)
  | Multi (groups : list string).

Definition kwargs : Type := list (string * pyval).

Definition ref : Type := nat.

(** Modelled from the spec: the two base classes of [segregation._base]
    (not among the sources), the single-group and the multigroup variant of
    an index result; every index class derives from exactly one of them. *)
Inductive index_kind : Type :=
  | SingleGroupIndex
  | MultiGroupIndex.

(** Modelled from the spec: an index object of [segregation._base] (not
    among the sources), the [IndexResult] of the design document, with the
    attributes the engines read.  [data] is a reference to the frame the
    index was computed from ([IndexResult.coreData]); [class_name] is the
    qualified name of [type(obj)]. *)
Record SegIndex : Type := mkIndex {
  class_name : string;
  kind : index_kind;
  statistic : fval;
  data : ref;
  group_pop_var : string;
  total_pop_var : string;
  groups : list string;
  _function : func_id
}.

(** [index.core_data]: the decomposition reads the frame of the index
    under this name. *)
Definition core_data (index : SegIndex) : ref := data index.

(** What the engines take from their environment: the index formulas, the
    counterfactual generator of [segregation.util.util], numpy's random
    generator (each draw is a function of the number of draws made before
    it) and the content of freshly allocated, uninitialised arrays. *)
Record Env : Type := mkEnv {
  apply_index :
    func_id -> DataFrame -> index_args -> kwargs -> string + (fval * DataFrame);
  _generate_counterfactual :
    DataFrame -> DataFrame -> string -> string -> option (string * string) ->
    string -> string + (DataFrame * DataFrame);
  random_multinomial : nat -> fval -> list fval -> nat -> list (list fval);
  random_multinomial1 : nat -> fval -> list fval -> list fval;
  random_choice : nat -> nat -> nat -> bool -> list nat;
  random_binomial : nat -> list fval -> fval -> list fval;
  random_permutation : nat -> list cell -> list cell;
  random_uniform : nat -> nat -> list fval;
  uninitialised : nat -> fval
}.

(** ** The execution monad: heap, random draws, log, exceptions *)

(** What the log records: the warnings, the progress reports, and the
    calls of the collaborators (an index call with what it returned, the
    statistic or the message of its exception). *)
Inductive event : Type :=
  | Warning (msg : string)
  | Progress (done total : nat)
  | CallIndex (f : func_id) (args : index_args) (outcome : string + fval)
  | CallGenerator (g t : string) (second : option (string * string))
      (approach : string).

Record World : Type := mkWorld {
  heap : list DataFrame;
  draws : nat;
  log : list event
}.

Definition M (A : Type) : Type := World -> (exn + A) * World.

#[export] Instance M_ret : MRet M := fun A a w => (inr a, w).

#[export] Instance M_bind : MBind M := fun A B f m w =>
  match m w with
  | (inr a, w') => f a w'
  | (inl e, w') => (inl e, w')
  end.

Definition raise {A} (e : exn) : M A := fun w => (inl e, w).

Definition lift {A} (r : exn + A) : M A := fun w => (r, w).

Definition alloc (df : DataFrame) : M ref := fun w =>
  (inr (length (heap w)), mkWorld (heap w ++ [df]) (draws w) (log w)).

(** The object behind a reference; in Python every reference is bound. *)
Definition load (r : ref) : M DataFrame := fun w =>
  match heap w !! r with
  | Some df => (inr df, w)
  | None => (inl (External "unbound reference"), w)
  end.

Definition store (r : ref) (df : DataFrame) : M unit := fun w =>
  (inr tt, mkWorld (<[r := df]> (heap w)) (draws w) (log w)).

(** [obj.copy()] *)
Definition copy (r : ref) : M ref := df ← load r; alloc df.

Definition emit (ev : event) : M unit := fun w =>
  (inr tt, mkWorld (heap w) (draws w) (log w ++ [ev])).

(** The seed of the next random draw. *)
Definition draw : M nat := fun w =>
  (inr (draws w), mkWorld (heap w) (S (draws w)) (log w)).

(** [assert cond, msg] *)
Definition assert (cond : bool) (msg : string) : M unit :=
  if cond then mret tt else raise (AssertionError msg).

(** [ref[c] = vals] *)
Definition setitem_ref (r : ref) (c : string) (vals : list cell) : M unit :=
  df ← load r; df' ← lift (setitem df c vals); store r df'.

Definition setitem_scalar_ref (r : ref) (c : string) (v : cell) : M unit :=
  df ← load r; store r (setitem_scalar df c v).

(** [for i in range(n)], threading the local variables [S] the body
    rebinds. *)
Fixpoint for_range {S} (n : nat) (body : nat -> S -> M S) (s : S) : M S :=
  match n with
  | O => mret s
  | S n' => s' ← for_range n' body s; body n' s'
  end.

(** Monadic [map]. *)
Fixpoint mapM {A B} (f : A -> M B) (l : list A) : M (list B) :=
  match l with
  | [] => mret []
  | x :: rest => y ← f x; ys ← mapM f rest; mret (y :: ys)
  end.

Definition warnings (l : list event) : list string :=
  omap (fun ev => match ev with Warning m => Some m | _ => None end) l.

(** The statistics the index formulas returned, in the order of the
    calls. *)
Definition returned (l : list event) : list fval :=
  omap (fun ev => match ev with
                  | CallIndex _ _ (inr stat) => Some stat
                  | _ => None
                  end) l.

(** ** The engines *)

Section Engines.

Variable env : Env.

(** [f(df, *args, **kw)[0]]: the statistic an index formula returns. *)
Definition call_index (f : func_id) (df : DataFrame) (args : index_args)
    (kw : kwargs) : M fval :=
  match apply_index env f df args kw with
  | inr (stat, _) => emit (CallIndex f args (inr stat));; mret stat
  | inl msg => emit (CallIndex f args (inl msg));; raise (External msg)
  end.

Definition call_generator (df1 df2 : DataFrame) (g t : string)
    (second : option (string * string)) (approach : string)
  : M (DataFrame * DataFrame) :=
  emit (CallGenerator g t second approach);;
  match _generate_counterfactual env df1 df2 g t second approach with
  | inr r => mret r
  | inl msg => raise (External msg)
  end.

(** *** Decomposition: [_decompose_segregation] *)

Record Decomposition : Type := mkDecomposition {
  C_S : fval;
  C_A : fval;
  df1 : ref;
  df2 : ref;
  counterfac_df1 : DataFrame;
  counterfac_df2 : DataFrame;
  counterfactual_approach : string;
  results : list (string * fval)
}.

Definition _decompose_segregation (index1 index2 : SegIndex)
    (counterfactual_approach : string) : M Decomposition :=
  df1 ← copy (core_data index1);
  df2 ← copy (core_data index2);
  assert (String.eqb (_function index1) (_function index2))
    "Segregation indices must be of the same type";;
  frame1 ← load df1;
  frame2 ← load df2;
  '(counterfac_df1, counterfac_df2) ←
    call_generator frame1 frame2 "group_pop_var" "total_pop_var" None
      counterfactual_approach;
  let seg_func := _function index1 in
  (* index for spatial 1, attribute 1 *)
  let G_S1_A1 := statistic index1 in
  (* index for spatial 2, attribute 2 *)
  let G_S2_A2 := statistic index2 in
  (* index for spatial 1 attribute 2 *)
  G_S1_A2 ←
    call_index seg_func counterfac_df1
      (Single "counterfactual_group_pop" "counterfactual_total_pop") [];
  (* index for spatial 2 attribute 1 *)
  G_S2_A1 ←
    call_index seg_func counterfac_df2
      (Single "counterfactual_group_pop" "counterfactual_total_pop") [];
  (* [1 / 2 * (a - b + c - d)]: a float64 product of [1 / 2] with the
     sum evaluated from left to right *)
  let half := Binary64.div (of_Z 1%Z) (of_Z 2%Z) in
  let C_S :=
    Binary64.mul half
      (Binary64.sub (Binary64.add (Binary64.sub G_S1_A1 G_S2_A1) G_S1_A2)
         G_S2_A2) in
  let C_A :=
    Binary64.mul half
      (Binary64.sub (Binary64.add (Binary64.sub G_S1_A1 G_S1_A2) G_S2_A1)
         G_S2_A2) in
  let results :=
    [("s1_a1", G_S1_A1); ("s1_a2", G_S1_A2);
     ("s2_a1", G_S2_A1); ("s2_a2", G_S2_A2)] in
  mret (mkDecomposition C_S C_A df1 df2 counterfac_df1 counterfac_df2
          counterfactual_approach results).

(** *** Shared pieces of the two inference engines *)

Definition member (s : string) (l : list string) : bool :=
  existsb (String.eqb s) l.

(** [str(type(obj))] *)
Definition type_repr (obj : SegIndex) : string :=
  ("<class '" ++ class_name obj ++ "'>")%string.

Fixpoint rfind_from (c : Ascii.ascii) (s : string) (i last : Z) : Z :=
  match s with
  | EmptyString => last
  | String a rest =>
      rfind_from c rest (i + 1)%Z (if Ascii.eqb a c then i else last)
  end.

(** [s.rfind(c)]: the last position of [c], [-1] when there is none. *)
Definition rfind (s : string) (c : Ascii.ascii) : Z :=
  rfind_from c s 0%Z (-1)%Z.

(** [s[start:stop]] for [0 <= start] and [stop < 0]. *)
Definition slice (s : string) (start stop : Z) : string :=
  let len := Z.of_nat (String.length s) in
  substring (Z.to_nat start) (Z.to_nat (len + stop - start)%Z) s.

(** [aux[1 + aux.rfind("."): -2]] *)
Definition _class_name_of (obj : SegIndex) : string :=
  let aux := type_repr obj in
  slice aux (1 + rfind aux "."%char)%Z (-2)%Z.

(** [np.empty(n)] *)
Definition np_empty (n : nat) : list fval := map (uninitialised env) (seq 0 n).

Definition column (r : ref) (c : string) : M (list cell) :=
  df ← load r; lift (getitem df c).

Definition numbers (r : ref) (c : string) : M (list fval) :=
  col ← column r c; lift (numeric col).

(** [l[i]] *)
Definition item {A} (l : list A) (i : nat) : M A :=
  match l !! i with
  | Some x => mret x
  | None => raise IndexError
  end.

(** [a + b] on one-dimensional arrays. *)
Definition np_add (a b : list fval) : exn + list fval :=
  if Nat.eqb (length a) (length b) then inr (zip_with fadd a b)
  else inl (ValueError "operands could not be broadcast together").

(** [pbar.set_description(...); pbar.update(1)] *)
Definition report (i total : nat) : M unit := emit (Progress (i + 1) total).

(** [df_aux = gpd.GeoDataFrame(df_aux); df_aux["geometry"] = data["geometry"]] *)
Definition attach_geometry (data : ref) (df_aux : DataFrame) : M DataFrame :=
  let df_aux := as_geo df_aux in
  geometry ← column data "geometry";
  mret (setitem_series df_aux "geometry" geometry).

(** [df.assign(geometry=df[name][list(np.random.choice(n, n, replace=False))]
                           .reset_index()[name])], with [n = df.shape[0]] *)
Definition shuffle_geometry (df : DataFrame) (name : string) : M DataFrame :=
  col ← lift (getitem df name);
  seed ← draw;
  let chosen := random_choice env seed (nrows df) (nrows df) false in
  permuted ←
    match take_positions col chosen with
    | Some l => mret l
    | None => raise (KeyError "not in index")
    end;
  mret (setitem_series df "geometry" permuted).

(** The draws shared by "systematic" and "systematic_permutation". *)
Definition systematic_draws (seg_class : SegIndex) (iterations_under_null : nat)
    (data : ref) : M (list (list fval) * list (list fval)) :=
  total ← numbers data (total_pop_var seg_class);
  group ← numbers data (group_pop_var seg_class);
  setitem_ref data "other_group_pop" (nums (zip_with fsub total group));;
  total ← numbers data (total_pop_var seg_class);
  let p_j := map (fun x => fdiv x (fsum total)) total in
  (* Group 0: minority group *)
  let p0_i := p_j in
  group ← numbers data (group_pop_var seg_class);
  let n0 := fsum group in
  seed ← draw;
  let sim0 := random_multinomial env seed n0 p0_i iterations_under_null in
  (* Group 1: complement group *)
  let p1_i := p_j in
  other ← numbers data "other_group_pop";
  let n1 := fsum other in
  seed ← draw;
  let sim1 := random_multinomial env seed n1 p1_i iterations_under_null in
  mret (sim0, sim1).

(** [pd.DataFrame.from_dict({"simul_group": sim0[i].tolist(),
                             "simul_tot": (sim0[i] + sim1[i]).tolist()})] *)
Definition systematic_frame (sim0 sim1 : list (list fval)) (i : nat)
  : M DataFrame :=
  row0 ← item sim0 i;
  row1 ← item sim1 i;
  tot ← lift (np_add row0 row1);
  lift (from_dict [("simul_group", nums row0); ("simul_tot", nums tot)]).

(** The global rate and one round of binomial draws, shared by "evenness"
    and "even_permutation". *)
Definition p_null_of (seg_class : SegIndex) (data : ref) : M fval :=
  group ← numbers data (group_pop_var seg_class);
  total ← numbers data (total_pop_var seg_class);
  mret (fdiv (fsum group) (fsum total)).

Definition evenness_frame (seg_class : SegIndex) (data : ref) (p_null : fval)
  : M DataFrame :=
  n ← numbers data (total_pop_var seg_class);
  seed ← draw;
  let sim := [random_binomial env seed n p_null] in
  sim_0 ← item sim 0;
  simul_tot ← column data (total_pop_var seg_class);
  lift (from_dict [("simul_group", nums sim_0); ("simul_tot", simul_tot)]).

Definition not_implemented {A} : M A :=
  raise (ValueError "Not implemented for MultiGroup indexes.").

Definition not_a_geodataframe {A} : M A :=
  raise (TypeError
    "data is not a GeoDataFrame, therefore, this null approach does not apply.").

(** The local variables a simulation block rebinds: [data] and the array of
    estimates. *)
Definition locals : Type := (ref * list fval)%type.

(** SYSTEMATIC *)
Definition null_systematic (seg_class : SegIndex) (iterations_under_null : nat)
    (kw : kwargs) (st : locals) : M locals :=
  st ←
    match kind seg_class with
    | SingleGroupIndex =>
        let data := st.1 in
        '(sim0, sim1) ← systematic_draws seg_class iterations_under_null data;
        for_range iterations_under_null (fun i '(data, Estimates_Stars) =>
          df_aux ← systematic_frame sim0 sim1 i;
          frame ← load data;
          df_aux ← (if geo frame then attach_geometry data df_aux
                    else mret df_aux);
          v ← call_index (_function seg_class) df_aux
                 (Single "simul_group" "simul_tot") kw;
          report i iterations_under_null;;
          mret (data, <[i := v]> Estimates_Stars)) st
    | MultiGroupIndex => mret st
    end;
  match kind seg_class with
  | MultiGroupIndex => not_implemented
  | SingleGroupIndex => mret st
  end.

(** BOOTSTRAP *)
Definition bootstrap_round (seg_class : SegIndex) (iterations_under_null : nat)
    (kw : kwargs) (args : index_args) (i : nat) (st : locals) : M locals :=
  let '(data, Estimates_Stars) := st in
  frame ← load data;
  seed ← draw;
  let sample_index := random_choice env seed (nrows frame) (nrows frame) true in
  df_aux ← lift (iloc frame sample_index);
  v ← call_index (_function seg_class) df_aux args kw;
  report i iterations_under_null;;
  mret (data, <[i := v]> Estimates_Stars).

Definition null_bootstrap (seg_class : SegIndex) (iterations_under_null : nat)
    (kw : kwargs) (st : locals) : M locals :=
  st ←
    match kind seg_class with
    | SingleGroupIndex =>
        for_range iterations_under_null
          (bootstrap_round seg_class iterations_under_null kw
             (Single (group_pop_var seg_class) (total_pop_var seg_class))) st
    | MultiGroupIndex => mret st
    end;
  match kind seg_class with
  | MultiGroupIndex =>
      for_range iterations_under_null
        (bootstrap_round seg_class iterations_under_null kw
           (Multi (groups seg_class))) st
  | SingleGroupIndex => mret st
  end.

(** EVENNESS *)
Definition null_evenness (seg_class : SegIndex) (iterations_under_null : nat)
    (kw : kwargs) (st : locals) : M locals :=
  st ←
    match kind seg_class with
    | SingleGroupIndex =>
        p_null ← p_null_of seg_class st.1;
        for_range iterations_under_null (fun i '(data, Estimates_Stars) =>
          df_aux ← evenness_frame seg_class data p_null;
          frame ← load data;
          df_aux ← (if geo frame then attach_geometry data df_aux
                    else mret df_aux);
          v ← call_index (_function seg_class) df_aux
                 (Single "simul_group" "simul_tot") kw;
          report i iterations_under_null;;
          mret (data, <[i := v]> Estimates_Stars)) st
    | MultiGroupIndex => mret st
    end;
  match kind seg_class with
  | MultiGroupIndex =>
      frame ← load (data seg_class);
      df ← lift (to_numpy frame);
      let total := sum_all df in
      let global_prob_vector := map (fun x => fdiv x total) (sum_axis0 df) in
      let t := sum_axis1 df in
      for_range iterations_under_null (fun i '(data, Estimates_Stars) =>
        simul ← mapM (fun n =>
                   seed ← draw;
                   mret (random_multinomial1 env seed n global_prob_vector)) t;
        df_simul ← lift (from_rows simul (groups seg_class));
        v ← call_index (_function seg_class) df_simul
               (Multi (groups seg_class)) kw;
        report i iterations_under_null;;
        mret (data, <[i := v]> Estimates_Stars)) st
  | SingleGroupIndex => mret st
  end.

(** PERMUTATION *)
Definition null_permutation (seg_class : SegIndex) (iterations_under_null : nat)
    (kw : kwargs) (st : locals) : M locals :=
  st ←
    match kind seg_class with
    | SingleGroupIndex =>
        frame ← load st.1;
        (if geo frame then mret tt else not_a_geodataframe);;
        for_range iterations_under_null (fun i '(data, Estimates_Stars) =>
          frame ← load data;
          assigned ← shuffle_geometry frame (geometry_name frame);
          data ← alloc assigned;
          df_aux ← load data;
          v ← call_index (_function seg_class) df_aux
                 (Single (group_pop_var seg_class) (total_pop_var seg_class)) kw;
          report i iterations_under_null;;
          mret (data, <[i := v]> Estimates_Stars)) st
    | MultiGroupIndex => mret st
    end;
  match kind seg_class with
  | MultiGroupIndex => not_implemented
  | SingleGroupIndex => mret st
  end.

(** SYSTEMATIC PERMUTATION *)
Definition null_systematic_permutation (seg_class : SegIndex)
    (iterations_under_null : nat) (kw : kwargs) (st : locals) : M locals :=
  st ←
    match kind seg_class with
    | SingleGroupIndex =>
        let data := st.1 in
        frame ← load data;
        (if geo frame then mret tt else not_a_geodataframe);;
        '(sim0, sim1) ← systematic_draws seg_class iterations_under_null data;
        for_range iterations_under_null (fun i '(data, Estimates_Stars) =>
          df_aux ← systematic_frame sim0 sim1 i;
          df_aux ← attach_geometry data df_aux;
          df_aux ← shuffle_geometry df_aux "geometry";
          v ← call_index (_function seg_class) df_aux
                 (Single "simul_group" "simul_tot") kw;
          report i iterations_under_null;;
          mret (data, <[i := v]> Estimates_Stars)) st
    | MultiGroupIndex => mret st
    end;
  match kind seg_class with
  | MultiGroupIndex => not_implemented
  | SingleGroupIndex => mret st
  end.

(** EVENNESS PERMUTATION *)
Definition null_even_permutation (seg_class : SegIndex)
    (iterations_under_null : nat) (kw : kwargs) (st : locals) : M locals :=
  st ←
    match kind seg_class with
    | SingleGroupIndex =>
        let data := st.1 in
        frame ← load data;
        (if geo frame then mret tt else not_a_geodataframe);;
        p_null ← p_null_of seg_class data;
        for_range iterations_under_null (fun i '(data, Estimates_Stars) =>
          df_aux ← evenness_frame seg_class data p_null;
          df_aux ← attach_geometry data df_aux;
          df_aux ← shuffle_geometry df_aux "geometry";
          v ← call_index (_function seg_class) df_aux
                 (Single "simul_group" "simul_tot") kw;
          report i iterations_under_null;;
          mret (data, <[i := v]> Estimates_Stars)) st
    | MultiGroupIndex => mret st
    end;
  match kind seg_class with
  | MultiGroupIndex => not_implemented
  | SingleGroupIndex => mret st
  end.

(** *** The null sample and the p-value *)

Definition degenerate (x : fval) : bool := isinf x || isnan x.

Definition nan_inf_warning : string :=
  "Some estimates resulted in NaN or infinite values for estimations under null hypothesis. These values will be removed for the final results.".

(** Check and, if the case, remove iterations that resulted in nan or
    infinite values. *)
Definition remove_nan_inf (estimates : list fval) : M (list fval) :=
  if existsb degenerate estimates
  then
    emit (Warning nan_inf_warning);;
    mret (List.filter (fun x => negb (degenerate x)) estimates)
  else mret estimates.

(** The number of [True] in a boolean array. *)
Definition count (mask : list bool) : nat := length (List.filter id mask).

(** [sum(mask) / n] with the builtin [sum].  Over an empty array the sum is
    the Python integer [0], whose division by the integer [0] raises;
    otherwise the sum is a numpy integer and the division is numpy's. *)
Definition builtin_sum_div (mask : list bool) (n : nat) : M fval :=
  match mask, n with
  | [], O => raise ZeroDivisionError
  | _, _ => mret (fdiv (of_nat (count mask)) (of_nat n))
  end.

(** [aux1 = (point_estimation < est).sum();
     aux2 = (point_estimation > est).sum();
     2 * np.array([aux1, aux2]).min() / len(est)]: a numpy integer divided
    by a Python integer, hence numpy's division. *)
Definition two_tailed_p_value (est : list fval) (point_estimation : fval)
  : fval :=
  let aux1 := count (map (fun e => fltb point_estimation e) est) in
  let aux2 := count (map (fun e => fgtb point_estimation e) est) in
  fdiv (of_nat (2 * Nat.min aux1 aux2)) (of_nat (length est)).

Record Inference : Type := mkInference {
  p_value : fval;
  est_sim : list fval;
  point_estimation : fval;
  _class_name : string
}.

(** *** Single-sample inference: [_infer_segregation] *)

Definition infer_approaches : list string :=
  ["systematic"; "bootstrap"; "evenness"; "permutation";
   "systematic_permutation"; "even_permutation"].

Definition only_if (cond : bool) (block : locals -> M locals) (st : locals)
  : M locals :=
  if cond then block st else mret st.

Definition _infer_segregation (seg_class : SegIndex)
    (iterations_under_null : nat) (null_approach : string)
    (two_tailed : pyval) (kw : kwargs) : M Inference :=
  (if negb (member null_approach infer_approaches)
   then raise (ValueError
     "null_approach must one of 'systematic', 'bootstrap', 'evenness', 'permutation', 'systematic_permutation', 'even_permutation'")
   else mret tt);;
  two_tailed ←
    match two_tailed with
    | PyBool b => mret b
    | _ => raise (TypeError "two_tailed is not a boolean object")
    end;
  let point_estimation := statistic seg_class in
  data ← copy (data seg_class);
  let _class_name := _class_name_of seg_class in
  let Estimates_Stars := np_empty iterations_under_null in
  st ← only_if (String.eqb null_approach "systematic")
         (null_systematic seg_class iterations_under_null kw)
         (data, Estimates_Stars);
  st ← only_if (String.eqb null_approach "bootstrap")
         (null_bootstrap seg_class iterations_under_null kw) st;
  st ← only_if (String.eqb null_approach "evenness")
         (null_evenness seg_class iterations_under_null kw) st;
  st ← only_if (String.eqb null_approach "permutation")
         (null_permutation seg_class iterations_under_null kw) st;
  st ← only_if (String.eqb null_approach "systematic_permutation")
         (null_systematic_permutation seg_class iterations_under_null kw) st;
  st ← only_if (String.eqb null_approach "even_permutation")
         (null_even_permutation seg_class iterations_under_null kw) st;
  Estimates_Stars ← remove_nan_inf st.2;
  p_value ←
    (if negb two_tailed
     then builtin_sum_div
            (map (fun e => fgtb e point_estimation) Estimates_Stars)
            iterations_under_null
     else mret (two_tailed_p_value Estimates_Stars point_estimation));
  mret (mkInference p_value Estimates_Stars point_estimation _class_name).

(** *** Two-sample inference: [_compare_segregation] *)

Definition compare_approaches : list string :=
  ["random_label"; "counterfactual_composition"; "counterfactual_share";
   "counterfactual_dual_composition"].

Definition counterfactual_approaches : list string :=
  ["counterfactual_composition"; "counterfactual_share";
   "counterfactual_dual_composition"].

(** The local variables the blocks of the two-sample engine rebind:
    [data_1], [data_2] and [est_sim]. *)
Definition locals2 : Type := (ref * ref * list fval)%type.

(** [col.round(0).astype(int)] *)
Fixpoint round_astype_int (col : list fval) : exn + list fval :=
  match col with
  | [] => inr []
  | Fin q :: rest =>
      match round_astype_int rest with
      | inr r => inr (of_Z (round_half_even q) :: r)
      | inl e => inl e
      end
  | _ :: _ =>
      inl (ValueError "Cannot convert non-finite values (NA or inf) to integer")
  end.

(** [data[c] = data[c].round(0).astype(int)] *)
Definition round_column (data : ref) (c : string) : M unit :=
  col ← numbers data c;
  rounded ← lift (round_astype_int col);
  setitem_ref data c (nums rounded).

(** [data.loc[:, (g, t)] = data.loc[:, (g, t)].round(0).astype(int)] *)
Definition round_columns (data : ref) (g t : string) : M unit :=
  group ← numbers data g;
  total ← numbers data t;
  group ← lift (round_astype_int group);
  total ← lift (round_astype_int total);
  setitem_ref data g (nums group);;
  setitem_ref data t (nums total).

(** [data = data[[g, t, 'grouping_variable']];
     data.columns = ['group', 'total', 'grouping_variable']] *)
Definition restrict_and_rename (data : ref) (g t : string) : M ref :=
  frame ← load data;
  selected ← lift (select frame [g; t; "grouping_variable"]);
  data ← alloc selected;
  frame ← load data;
  renamed ← lift (set_column_names frame ["group"; "total"; "grouping_variable"]);
  store data renamed;;
  mret data.

Definition label_is (label : string) (c : cell) : bool :=
  match c with
  | Str s => String.eqb s label
  | _ => false
  end.

(** One round of random labelling on the stacked frame. *)
Definition random_label_round (seg_class_1 seg_class_2 : SegIndex)
    (iterations_under_null : nat) (kw : kwargs) (args : index_args)
    (stacked_data : ref) (i : nat) (st : locals2) : M locals2 :=
  let '(data_1, data_2, est_sim) := st in
  labels ← column stacked_data "grouping_variable";
  seed ← draw;
  setitem_ref stacked_data "grouping_variable"
    (random_permutation env seed labels);;
  labels ← column stacked_data "grouping_variable";
  frame ← load stacked_data;
  let stacked_data_1 := mask_rows frame (map (label_is "Group_1") labels) in
  labels ← column stacked_data "grouping_variable";
  frame ← load stacked_data;
  let stacked_data_2 := mask_rows frame (map (label_is "Group_2") labels) in
  simulations_1 ← call_index (_function seg_class_1) stacked_data_1 args kw;
  simulations_2 ← call_index (_function seg_class_2) stacked_data_2 args kw;
  report i iterations_under_null;;
  mret (data_1, data_2, <[i := fsub simulations_1 simulations_2]> est_sim).

Definition list_eqb (a b : list string) : bool :=
  Nat.eqb (length a) (length b) && forallb id (zip_with String.eqb a b).

(** RANDOM LABEL *)
Definition compare_random_label (seg_class_1 seg_class_2 : SegIndex)
    (iterations_under_null : nat) (kw : kwargs) (st : locals2) : M locals2 :=
  let '(data_1, data_2, est_sim) := st in
  setitem_scalar_ref data_1 "grouping_variable" (Str "Group_1");;
  setitem_scalar_ref data_2 "grouping_variable" (Str "Group_2");;
  st ←
    match kind seg_class_1 with
    | SingleGroupIndex =>
        round_columns data_1 (group_pop_var seg_class_1)
          (total_pop_var seg_class_1);;
        data_1 ← restrict_and_rename data_1 (group_pop_var seg_class_1)
                   (total_pop_var seg_class_1);
        round_columns data_2 (group_pop_var seg_class_2)
          (total_pop_var seg_class_2);;
        data_2 ← restrict_and_rename data_2 (group_pop_var seg_class_2)
                   (total_pop_var seg_class_2);
        frame_1 ← load data_1;
        frame_2 ← load data_2;
        stacked_data ← alloc (pd_concat frame_1 frame_2);
        for_range iterations_under_null
          (random_label_round seg_class_1 seg_class_2 iterations_under_null kw
             (Single "group" "total") stacked_data)
          (data_1, data_2, est_sim)
    | MultiGroupIndex => mret (data_1, data_2, est_sim)
    end;
  match kind seg_class_1 with
  | MultiGroupIndex =>
      let '(data_1, data_2, est_sim) := st in
      let groups_list := groups seg_class_1 in
      for_range (length groups_list) (fun i (_ : unit) =>
        g ← item groups_list i;
        round_column data_1 g;;
        g ← item groups_list i;
        round_column data_2 g) tt;;
      (if negb (list_eqb (groups seg_class_1) (groups seg_class_2))
       then raise (ValueError "MultiGroup groups should be the same")
       else mret tt);;
      frame_1 ← load data_1;
      frame_2 ← load data_2;
      stacked_data ← alloc (pd_concat frame_1 frame_2);
      for_range iterations_under_null
        (random_label_round seg_class_1 seg_class_2 iterations_under_null kw
           (Multi groups_list) stacked_data)
        (data_1, data_2, est_sim)
  | SingleGroupIndex => mret st
  end.

(** [np.where(cond, a, b)] on arrays of one shape. *)
Definition np_where (cond : list bool) (a b : list cell) : exn + list cell :=
  if Nat.eqb (length cond) (length a) && Nat.eqb (length a) (length b)
  then inr (zip_with (fun (c : bool) (ab : cell * cell) =>
                        if c then ab.1 else ab.2) cond (zip a b))
  else inl (ValueError "operands could not be broadcast together").

(** One side of a counterfactual round: the coin flips, the index on the
    frame without the observed group column, the clean-up.  Returns the
    statistic and the rebound [data]. *)
Definition counterfactual_side (seg_class : SegIndex) (kw : kwargs)
    (data : ref) (counterfac_df : DataFrame) : M (fval * ref) :=
  frame ← load data;
  seed ← draw;
  setitem_ref data "fair_coin" (nums (random_uniform env seed (nrows frame)));;
  fair_coin ← numbers data "fair_coin";
  observed ← column data (group_pop_var seg_class);
  counterfactual ← lift (getitem counterfac_df "counterfactual_group_pop");
  chosen ← lift (np_where (map (fun x => fgtb x (Fin (1 # 2))) fair_coin)
                   observed counterfactual);
  setitem_ref data "test_group_pop_var" chosen;;
  (* Dropping to avoid confusion in the internal function *)
  frame ← load data;
  data_test ← lift (drop_columns frame [group_pop_var seg_class]);
  simulations ← call_index (_function seg_class) data_test
                  (Single "test_group_pop_var" (total_pop_var seg_class)) kw;
  (* Dropping to avoid confusion in the next iteration *)
  frame ← load data;
  dropped ← lift (drop_columns frame ["fair_coin"; "test_group_pop_var"]);
  data ← alloc dropped;
  mret (simulations, data).

(** COUNTERFACTUAL COMPOSITION *)
Definition compare_counterfactual (seg_class_1 seg_class_2 : SegIndex)
    (iterations_under_null : nat) (null_approach : string) (kw : kwargs)
    (st : locals2) : M locals2 :=
  let '(data_1, data_2, est_sim) := st in
  match kind seg_class_1 with
  | MultiGroupIndex => not_implemented
  | SingleGroupIndex => mret tt
  end;;
  (* Remove 'counterfactual_' from the beginning of the string *)
  let internal_arg :=
    substring 15 (String.length null_approach - 15) null_approach in
  frame_1 ← load data_1;
  frame_2 ← load data_2;
  '(counterfac_df1, counterfac_df2) ←
    call_generator frame_1 frame_2
      (group_pop_var seg_class_1) (total_pop_var seg_class_1)
      (Some (group_pop_var seg_class_2, total_pop_var seg_class_2))
      internal_arg;
  (if member null_approach
        ["counterfactual_share"; "counterfactual_dual_composition"]
   then
     total_1 ← lift (getitem counterfac_df1 "counterfactual_total_pop");
     frame_1 ← load data_1;
     store data_1 (setitem_series frame_1 (total_pop_var seg_class_1) total_1);;
     total_2 ← lift (getitem counterfac_df2 "counterfactual_total_pop");
     frame_2 ← load data_2;
     store data_2 (setitem_series frame_2 (total_pop_var seg_class_2) total_2)
   else mret tt);;
  for_range iterations_under_null (fun i '(data_1, data_2, est_sim) =>
    '(simulations_1, data_1) ←
      counterfactual_side seg_class_1 kw data_1 counterfac_df1;
    '(simulations_2, data_2) ←
      counterfactual_side seg_class_2 kw data_2 counterfac_df2;
    report i iterations_under_null;;
    mret (data_1, data_2, <[i := fsub simulations_1 simulations_2]> est_sim))
    (data_1, data_2, est_sim).

Definition only_if2 (cond : bool) (block : locals2 -> M locals2) (st : locals2)
  : M locals2 :=
  if cond then block st else mret st.

Definition _compare_segregation (seg_class_1 seg_class_2 : SegIndex)
    (iterations_under_null : nat) (null_approach : string) (kw : kwargs)
  : M Inference :=
  (if negb (member null_approach compare_approaches)
   then raise (ValueError
     "null_approach must one of 'random_label', 'counterfactual_composition', 'counterfactual_share', 'counterfactual_dual_composition'")
   else mret tt);;
  (if negb (String.eqb (class_name seg_class_1) (class_name seg_class_2))
   then raise (TypeError
     "seg_class_1 and seg_class_2 must be the same type/class.")
   else mret tt);;
  let point_estimation :=
    fsub (statistic seg_class_1) (statistic seg_class_2) in
  let _class_name := _class_name_of seg_class_1 in
  data_1 ← copy (data seg_class_1);
  data_2 ← copy (data seg_class_2);
  let est_sim := np_empty iterations_under_null in
  st ← only_if2 (String.eqb null_approach "random_label")
         (compare_random_label seg_class_1 seg_class_2 iterations_under_null kw)
         (data_1, data_2, est_sim);
  st ← only_if2 (member null_approach counterfactual_approaches)
         (compare_counterfactual seg_class_1 seg_class_2 iterations_under_null
            null_approach kw) st;
  est_sim ← remove_nan_inf st.2;
  (* Two-Tailed p-value *)
  let p_value := two_tailed_p_value est_sim point_estimation in
  mret (mkInference p_value est_sim point_estimation _class_name).

End Engines.

(** ** Multigroup dissimilarity: [_multi_dissim] *)

(** [segregation.util.util._nan_handle] is not among the sources; it is
    taken as a parameter.  It is called with the frame [core_data] and can
    do what a Python function can do with an object it is handed: warn,
    raise, change the frame in place, and return a frame.  Its outcome on a
    frame is the list of its warnings, with either the exception it raises
    or the pair of the frame as the call leaves it and of the frame it
    returns. *)
Definition nan_handler : Type :=
  DataFrame -> list string * (exn + DataFrame * DataFrame).

Section MultiDissim.

Variable _nan_handle : nan_handler.

(** [np.repeat(v, K, axis=0)] *)
Definition np_repeat (v : list fval) (K : nat) : list fval :=
  List.concat (map (replicate K) v).

(** [flat.reshape(n, K)] *)
Definition reshape (flat : list fval) (n K : nat) : list (list fval) :=
  map (fun i => take K (drop (i * K) flat)) (seq 0 n).

(** The computation on the array [df = np.array(core_data)]. *)
Definition multi_dissim_statistic (df : ndarray) : fval :=
  let n := shape0 df in
  let K := shape1 df in
  let T := sum_all df in
  let ti := sum_axis1 df in
  let pik := zip_with (fun row t => map (fun x => fdiv x t) row)
               (array_rows df) ti in
  let Pk := map (fun x => fdiv x (sum_all df)) (sum_axis0 df) in
  let Is := fsum (map (fun p => fmul p (fsub (of_Z 1%Z) p)) Pk) in
  fmul
    (fdiv (of_Z 1%Z) (fmul (fmul (of_Z 2%Z) T) Is))
    (fsum (List.concat
       (zip_with (zip_with fmul)
          (map (fun row => map fabs (zip_with fsub row Pk)) pik)
          (reshape (np_repeat ti K) n K)))).

Definition _multi_dissim (data : DataFrame) (groups : list string)
  : list string * (exn + (fval * DataFrame * list string)) :=
  match select data groups with
  | inl e => ([], inl e)
  | inr core_data =>
      (* [data = _nan_handle(core_data)]: from here on [core_data] is the
         frame as the call has left it, [data] the frame it returned *)
      match _nan_handle core_data with
      | (warned, inl e) => (warned, inl e)
      | (warned, inr (core_data, data)) =>
          match to_numpy core_data with
          | inl e => (warned, inl e)
          | inr df =>
              (warned, inr (multi_dissim_statistic df, core_data, groups))
          end
      end
  end.

End MultiDissim.

(** The same computation with the call of the NaN handler removed. *)
Definition _multi_dissim_without_nan_handle (data : DataFrame)
    (groups : list string) : exn + (fval * DataFrame * list string) :=
  match select data groups with
  | inl e => inl e
  | inr core_data =>
      match to_numpy core_data with
      | inl e => inl e
      | inr df => inr (multi_dissim_statistic df, core_data, groups)
      end
  end.

(** ** The counterfactual generator *)

Module Counterfactual.

(** Modelled from the spec: the pieces of the generator of section 4.1,
    up to [generate_counterfactual] below.  A total order on values for
    sorting, [NaN] last. *)
Definition fleb (x y : fval) : bool :=
  match x, y with
  | _, NaN => true
  | NaN, _ => false
  | _, _ => negb (fltb y x)
  end.

Fixpoint insert_sorted (x : fval) (l : list fval) : list fval :=
  match l with
  | [] => [x]
  | y :: rest => if fleb x y then x :: l else y :: insert_sorted x rest
  end.

Definition sort (l : list fval) : list fval := fold_right insert_sorted [] l.

(** Modelled from the spec: the rank-based quantile transplant, the value
    of [theirs] at the percentile rank that [x] has among [ours]. *)
Definition transplant (ours theirs : list fval) (x : fval) : fval :=
  let rank := length (List.filter (fun y => fleb y x) ours) in
  let k := Nat.div (rank * length theirs + length ours - 1) (length ours) in
  default NaN (sort theirs !! (k - 1)).

Definition matched (ours theirs : list fval) : list fval :=
  map (transplant ours theirs) ours.

(** Modelled from the spec: rounded to the nearest non-negative integer. *)
Definition round_count (x : fval) : fval :=
  match x with
  | Fin q => of_Z (Z.max 0%Z (round_half_even q))
  | _ => x
  end.

Definition add_columns (df : DataFrame) (new : list (string * list fval))
  : DataFrame :=
  fold_left (fun d p => setitem_series d p.1 (nums p.2)) new df.

(** Modelled from the spec: the counterfactual columns of one dataset
    against the other, for each approach; [g], [t] are the group and total
    populations of this dataset and [g'], [t'] those of the other one. *)
Definition counterfactual_columns (approach : string) (g t g' t' : list fval)
  : exn + list (string * list fval) :=
  let ratio a b := zip_with fdiv a b in
  let compl a b := zip_with fsub b a in
  let share a := map (fun x => fdiv x (fsum a)) a in
  let scale k a := map (fun x => fmul x k) a in
  if String.eqb approach "composition" then
    let composition := ratio g t in
    let counterfactual_composition := matched composition (ratio g' t') in
    inr [("group_composition", composition);
         ("counterfactual_composition", counterfactual_composition);
         ("counterfactual_group_pop",
          map round_count (zip_with fmul counterfactual_composition t));
         ("counterfactual_total_pop", t)]
  else if String.eqb approach "share" then
    let c := compl g t in
    let c' := compl g' t' in
    let counterfactual_share := matched (share g) (share g') in
    let counterfactual_compl_share := matched (share c) (share c') in
    let group_pop := scale (fsum g) counterfactual_share in
    inr [("share", share g);
         ("counterfactual_share", counterfactual_share);
         ("counterfactual_group_pop", group_pop);
         ("counterfactual_total_pop",
          zip_with fadd group_pop (scale (fsum c) counterfactual_compl_share))]
  else if String.eqb approach "dual_composition" then
    let composition := ratio g t in
    let complement := map (fun x => fsub (of_Z 1%Z) x) composition in
    let composition' := ratio g' t' in
    let complement' := map (fun x => fsub (of_Z 1%Z) x) composition' in
    let counterfactual_composition := matched composition composition' in
    let counterfactual_complement := matched complement complement' in
    let group_pop := zip_with fmul counterfactual_composition t in
    inr [("group_composition", composition);
         ("counterfactual_composition", counterfactual_composition);
         ("counterfactual_group_pop", group_pop);
         ("counterfactual_total_pop",
          zip_with fadd group_pop (zip_with fmul counterfactual_complement t))]
  else
    inl (ValueError
      "counterfactual_approach must be one of 'composition', 'share', 'dual_composition'").

Definition numeric_column (df : DataFrame) (c : string) : exn + list fval :=
  match getitem df c with
  | inr col => numeric col
  | inl e => inl e
  end.

(** Modelled from the spec: [segregation.util.util._generate_counterfactual]
    is not among the sources.  Following section 4.1 of the design document:
    the group and total population columns of both datasets must be
    resolvable; each dataset receives, row for row, the counterfactual
    columns obtained by matching its composition (or share) onto the other
    dataset's distribution at the same percentile rank.  The design
    document gives the generator a pair of names for each dataset and does
    not say what a call with one pair, the call of the decomposition
    engine, does; this sample generator then reads that pair in both
    datasets.  The engines take their generator from the environment, and
    what is proved of them holds for every generator. *)
Definition generate_counterfactual (data1 data2 : DataFrame)
    (group_pop_var1 total_pop_var1 : string)
    (second : option (string * string)) (counterfactual_approach : string)
  : exn + (DataFrame * DataFrame) :=
  let '(group_pop_var2, total_pop_var2) :=
    default (group_pop_var1, total_pop_var1) second in
  match numeric_column data1 group_pop_var1,
        numeric_column data1 total_pop_var1,
        numeric_column data2 group_pop_var2,
        numeric_column data2 total_pop_var2 with
  | inr g1, inr t1, inr g2, inr t2 =>
      match counterfactual_columns counterfactual_approach g1 t1 g2 t2,
            counterfactual_columns counterfactual_approach g2 t2 g1 t1 with
      | inr new1, inr new2 =>
          inr (add_columns data1 new1, add_columns data2 new2)
      | inl e, _ | _, inl e => inl e
      end
  | inl e, _, _, _ | _, inl e, _, _ | _, _, inl e, _ | _, _, _, inl e => inl e
  end.

End Counterfactual.

(** ** A concrete environment, for running the engines *)

Module Sample.

(** The two-group dissimilarity index
    [1/2 * sum |x_i / X - (t_i - x_i) / (T - X)|]. *)
Definition dissim (df : DataFrame) (g t : string) : exn + (fval * DataFrame) :=
  match Counterfactual.numeric_column df g,
        Counterfactual.numeric_column df t,
        select df [g; t] with
  | inr x, inr tot, inr core =>
      let X := fsum x in
      let T := fsum tot in
      let terms :=
        zip_with (fun xi ti =>
                    fabs (fsub (fdiv xi X) (fdiv (fsub ti xi) (fsub T X))))
          x tot in
      inr (fmul (fdiv (of_Z 1%Z) (of_Z 2%Z)) (fsum terms), core)
  | inl e, _, _ | _, inl e, _ | _, _, inl e => inl e
  end.

(** A handler that reports frames holding a [NaN] and returns them
    without the rows concerned; the frame it is given stays as it was. *)
Definition drop_nan_rows : nan_handler := fun df =>
  let has_nan i :=
    existsb (fun p => match p.2 !! i with
                      | Some (Num NaN) => true
                      | _ => false
                      end) (columns df) in
  let mask := map (fun i => negb (has_nan i)) (seq 0 (nrows df)) in
  if forallb id mask then ([], inr (df, df))
  else (["There are NAs present in the input data."],
        inr (df, mask_rows df mask)).

(** The index formulas known by name. *)
Definition functions (f : func_id) (df : DataFrame) (args : index_args)
    (kw : kwargs) : string + (fval * DataFrame) :=
  match args with
  | Single g t =>
      if String.eqb f "_dissim" then collaborator (dissim df g t)
      else inl "unknown index function"
  | Multi groups =>
      if String.eqb f "_multi_dissim" then
        match (_multi_dissim drop_nan_rows df groups).2 with
        | inr (stat, core, _) => inr (stat, core)
        | inl e => inl (describe e)
        end
      else inl "unknown index function"
  end.

Definition rotate {A} (k : nat) (l : list A) : list A :=
  drop (k mod length l) l ++ take (k mod length l) l.

(** A deterministic stand-in for numpy's generator. *)
Definition env : Env := {|
  apply_index := functions;
  _generate_counterfactual := fun data1 data2 g t second approach =>
    collaborator
      (Counterfactual.generate_counterfactual data1 data2 g t second approach);
  random_multinomial := fun seed n pvals size =>
    replicate size (rotate seed (n :: replicate (length pvals - 1) (Fin 0)));
  random_multinomial1 := fun seed n pvals =>
    rotate seed (n :: replicate (length pvals - 1) (Fin 0));
  random_choice := fun seed n size replace =>
    map (fun k => (seed + k) mod n) (seq 0 size);
  random_binomial := fun seed ns p =>
    map (fun n => Counterfactual.round_count (fmul n p)) ns;
  random_permutation := fun seed l => rotate (S seed) l;
  random_uniform := fun seed n =>
    map (fun k => if Nat.even (seed + k) then Fin (1 # 4) else Fin (3 # 4))
      (seq 0 n);
  uninitialised := fun _ => NaN
|}.

Definition column_of (l : list nat) : list cell := map (fun z => Num (of_nat z)) l.

(** Four units, two population columns. *)
Definition city_a : DataFrame :=
  mkFrame false "geometry" 4
    [("group_pop_var", column_of [10; 20; 30; 40]);
     ("total_pop_var", column_of [100; 100; 100; 100])].

Definition city_b : DataFrame :=
  mkFrame false "geometry" 4
    [("group_pop_var", column_of [5; 5; 45; 45]);
     ("total_pop_var", column_of [50; 50; 50; 50])].

(** The same units under the column names of a census extract. *)
Definition census_a : DataFrame :=
  mkFrame false "geometry" 4
    [("HISP_", column_of [10; 20; 30; 40]);
     ("TOT_POP", column_of [100; 100; 100; 100])].

Definition census_b : DataFrame :=
  mkFrame false "geometry" 4
    [("HISP_", column_of [5; 5; 45; 45]);
     ("TOT_POP", column_of [50; 50; 50; 50])].

(** A village and a metropolis: matching the metropolis's compositions
    onto the village leaves the village without any member of the group. *)
Definition village : DataFrame :=
  mkFrame false "geometry" 4
    [("group_pop_var", column_of [1; 2; 3; 4]);
     ("total_pop_var", column_of [10; 10; 10; 10])].

Definition metropolis : DataFrame :=
  mkFrame false "geometry" 4
    [("group_pop_var", column_of [1; 2; 1; 2]);
     ("total_pop_var", column_of [1000; 1000; 1000; 1000])].

(** A place where nobody belongs to the group. *)
Definition ghost_town : DataFrame :=
  mkFrame false "geometry" 2
    [("group_pop_var", column_of [0; 0]);
     ("total_pop_var", column_of [10; 20])].

(** Two units, the first one without any member of the group. *)
Definition hamlet : DataFrame :=
  mkFrame false "geometry" 2
    [("group_pop_var", column_of [0; 5]);
     ("total_pop_var", column_of [10; 10])].

(** Three units, the first one without any member of the group. *)
Definition outpost : DataFrame :=
  mkFrame false "geometry" 3
    [("group_pop_var", column_of [0; 5; 1]);
     ("total_pop_var", column_of [10; 10; 10])].

(** Three districts, three population groups. *)
Definition districts : DataFrame :=
  mkFrame false "geometry" 3
    [("A", column_of [10; 20; 30]);
     ("B", column_of [30; 20; 10]);
     ("C", column_of [5; 5; 5])].

(** Two districts, one count missing. *)
Definition survey : DataFrame :=
  mkFrame false "geometry" 2
    [("A", [Num (Fin 10); Num NaN]);
     ("B", [Num (Fin 20); Num (Fin 5)])].

Definition world : World :=
  mkWorld
    [city_a; city_b; census_a; census_b; village; metropolis; ghost_town;
     hamlet; outpost; districts]
    0 [].


Definition statistic_of (df : DataFrame) (g t : string) : fval :=
  match dissim df g t with
  | inr r => r.1
  | inl _ => NaN
  end.

Definition index_a : SegIndex :=
  mkIndex "segregation.singlegroup.dissim.Dissim" SingleGroupIndex
    (statistic_of city_a "group_pop_var" "total_pop_var") 0
    "group_pop_var" "total_pop_var" [] "_dissim".

Definition index_b : SegIndex :=
  mkIndex "segregation.singlegroup.dissim.Dissim" SingleGroupIndex
    (statistic_of city_b "group_pop_var" "total_pop_var") 1
    "group_pop_var" "total_pop_var" [] "_dissim".

Definition census_index_a : SegIndex :=
  mkIndex "segregation.singlegroup.dissim.Dissim" SingleGroupIndex
    (statistic_of census_a "HISP_" "TOT_POP") 2 "HISP_" "TOT_POP" [] "_dissim".

Definition census_index_b : SegIndex :=
  mkIndex "segregation.singlegroup.dissim.Dissim" SingleGroupIndex
    (statistic_of census_b "HISP_" "TOT_POP") 3 "HISP_" "TOT_POP" [] "_dissim".

Definition village_index : SegIndex :=
  mkIndex "segregation.singlegroup.dissim.Dissim" SingleGroupIndex
    (statistic_of village "group_pop_var" "total_pop_var") 4
    "group_pop_var" "total_pop_var" [] "_dissim".

Definition metropolis_index : SegIndex :=
  mkIndex "segregation.singlegroup.dissim.Dissim" SingleGroupIndex
    (statistic_of metropolis "group_pop_var" "total_pop_var") 5
    "group_pop_var" "total_pop_var" [] "_dissim".




Definition districts_index : SegIndex :=
  mkIndex "segregation.multigroup.multi_dissim.MultiDissim" MultiGroupIndex
    (match (_multi_dissim drop_nan_rows districts ["A"; "B"; "C"]).2 with
     | inr r => r.1.1
     | inl _ => NaN
     end) 9 "" "" ["A"; "B"; "C"] "_multi_dissim".


End Sample.

(** ** The hand-picked statistics of the design document

    Section 8 of the design document tests the decomposition on
    [G(S1,A1) = 0.5], [G(S1,A2) = 0.3], [G(S2,A1) = 0.4] and
    [G(S2,A2) = 0.2].  Here are two cities of one unit, an index formula
    and a stand-in for the generator that produce these four values. *)

Module Handpicked.

(** The share of the group in the whole population,
    [x.sum() / t.sum()], as a float64. *)
Definition share (df : DataFrame) (g t : string) : exn + (fval * DataFrame) :=
  match Counterfactual.numeric_column df g,
        Counterfactual.numeric_column df t,
        select df [g; t] with
  | inr x, inr tot, inr core => inr (Binary64.div (fsum x) (fsum tot), core)
  | inl e, _, _ | _, inl e, _ | _, _, inl e => inl e
  end.

(** Five of ten, and two of ten. *)
Definition city_1 : DataFrame :=
  mkFrame false "geometry" 1
    [("group_pop_var", [Num (Fin 5)]); ("total_pop_var", [Num (Fin 10)])].

Definition city_2 : DataFrame :=
  mkFrame false "geometry" 1
    [("group_pop_var", [Num (Fin 2)]); ("total_pop_var", [Num (Fin 10)])].

(** Prepared counterfactual populations: three of ten in the first city,
    four of ten in the second. *)
Definition counterfactual_1 : DataFrame :=
  Counterfactual.add_columns city_1
    [("counterfactual_group_pop", [Fin 3]);
     ("counterfactual_total_pop", [Fin 10])].

Definition counterfactual_2 : DataFrame :=
  Counterfactual.add_columns city_2
    [("counterfactual_group_pop", [Fin 4]);
     ("counterfactual_total_pop", [Fin 10])].

(** The index formula [_share], and a stand-in for the generator that
    hands back the two prepared datasets whatever it is asked. *)
Definition env : Env := {|
  apply_index := fun f df args kw =>
    match args with
    | Single g t =>
        if String.eqb f "_share" then collaborator (share df g t)
        else inl "unknown index function"
    | Multi _ => inl "unknown index function"
    end;
  _generate_counterfactual := fun data1 data2 g t second approach =>
    inr (counterfactual_1, counterfactual_2);
  random_multinomial := random_multinomial Sample.env;
  random_multinomial1 := random_multinomial1 Sample.env;
  random_choice := random_choice Sample.env;
  random_binomial := random_binomial Sample.env;
  random_permutation := random_permutation Sample.env;
  random_uniform := random_uniform Sample.env;
  uninitialised := uninitialised Sample.env
|}.

Definition world : World := mkWorld [city_1; city_2] 0 [].

Definition statistic_of (df : DataFrame) : fval :=
  match share df "group_pop_var" "total_pop_var" with
  | inr r => r.1
  | inl _ => NaN
  end.

(** The two index results.  The second pair is configured with the column
    names of a census extract, which its frames do not have. *)
Definition index_1 : SegIndex :=
  mkIndex "segregation.singlegroup.share.Share" SingleGroupIndex
    (statistic_of city_1) 0 "group_pop_var" "total_pop_var" [] "_share".

Definition index_2 : SegIndex :=
  mkIndex "segregation.singlegroup.share.Share" SingleGroupIndex
    (statistic_of city_2) 1 "group_pop_var" "total_pop_var" [] "_share".

Definition census_index_1 : SegIndex :=
  mkIndex "segregation.singlegroup.share.Share" SingleGroupIndex
    (statistic_of city_1) 0 "HISP_" "TOT_POP" [] "_share".

Definition census_index_2 : SegIndex :=
  mkIndex "segregation.singlegroup.share.Share" SingleGroupIndex
    (statistic_of city_2) 1 "HISP_" "TOT_POP" [] "_share".

(** The values involved, as the rationals they denote. *)
Definition d0_5 : fval := Fin (1 # 2).
Definition d0_3 : fval := Fin (5404319552844595 # 18014398509481984).
Definition d0_4 : fval := Fin (3602879701896397 # 9007199254740992).
Definition d0_2 : fval := Fin (3602879701896397 # 18014398509481984).
Definition d0_1 : fval := Fin (3602879701896397 # 36028797018963968).
(** [0.09999999999999998], [0.20000000000000004] and
    [0.30000000000000004] *)
Definition d0_09999999999999998 : fval :=
  Fin (900719925474099 # 9007199254740992).
Definition d0_20000000000000004 : fval :=
  Fin (7205759403792795 # 36028797018963968).
Definition d0_30000000000000004 : fval :=
  Fin (1351079888211149 # 4503599627370496).

End Handpicked.

(** ** Vocabulary of the statements and proofs *)

Module Logic.

(** The columns the decomposition evaluates the index function on. *)
Definition counterfactual_columns_args : index_args :=
  Single "counterfactual_group_pop" "counterfactual_total_pop".

(** What a call of the NaN handler does apart from returning a frame: its
    warnings, and the exception it raises or the frame it was given as the
    call leaves it. *)
Definition effect (r : list string * (exn + DataFrame * DataFrame))
  : list string * (exn + DataFrame) :=
  (r.1, match r.2 with inl e => inl e | inr p => inr p.1 end).

(** Modelled from the spec: [segregation.util.util._generate_counterfactual]
    is not among the sources.  Section 4.1 of the design document: the
    population columns named for a dataset must be resolvable in it.  For
    the first dataset: *)
Definition resolves_first (env : Env) : Prop :=
  forall data1 data2 g t second approach,
    has_column data1 g && has_column data1 t = false ->
    exists msg,
      _generate_counterfactual env data1 data2 g t second approach = inl msg.

(** The same for the second dataset, under the reading that a call with
    one pair of names, which the design document does not describe, names
    the columns of both datasets. *)
Definition resolves_second (env : Env) : Prop :=
  forall data1 data2 g t approach,
    has_column data2 g && has_column data2 t = false ->
    exists msg,
      _generate_counterfactual env data1 data2 g t None approach = inl msg.

(** A handler that never changes the frame it is given. *)
Definition in_place_unchanged (h : nan_handler) : Prop :=
  forall df warned df' filtered,
    h df = (warned, inr (df', filtered)) -> df' = df.

Definition not_implemented_error : exn :=
  ValueError "Not implemented for MultiGroup indexes.".

Definition not_a_geodataframe_error : exn :=
  TypeError
    "data is not a GeoDataFrame, therefore, this null approach does not apply.".

(** The exceptions raised by the [raise] and [assert] statements of the
    engines, and the division of Python integers; the others come from
    pandas, numpy or a collaborator. *)
Definition own_raise (e : exn) : bool :=
  match e with
  | ValueError m =>
      member m
        ["Not implemented for MultiGroup indexes.";
         "MultiGroup groups should be the same";
         "null_approach must one of 'systematic', 'bootstrap', 'evenness', 'permutation', 'systematic_permutation', 'even_permutation'";
         "null_approach must one of 'random_label', 'counterfactual_composition', 'counterfactual_share', 'counterfactual_dual_composition'"]
  | TypeError m =>
      member m
        ["two_tailed is not a boolean object";
         "data is not a GeoDataFrame, therefore, this null approach does not apply.";
         "seg_class_1 and seg_class_2 must be the same type/class."]
  | AssertionError _ | ZeroDivisionError => true
  | KeyError _ | IndexError | External _ => false
  end.

(** A failure that is not one of the engines' own. *)
Definition library_failure {A} (r : exn + A) : Prop :=
  forall e, r = inl e -> own_raise e = false.

(** Between two worlds, the first [base] objects of the heap and the
    warnings of the log are the same. *)
Definition preserved (base : nat) (w w' : World) : Prop :=
  base <= length (heap w') /\
  take base (heap w') = take base (heap w) /\
  warnings (log w') = warnings (log w).

Definition outcome {A} (Q : A -> Prop) (E : exn -> Prop) (r : exn + A) : Prop :=
  match r with
  | inr a => Q a
  | inl e => E e
  end.

(** [safe base m Q E]: run in a world holding at least [base] objects, [m]
    leaves the first [base] objects of the heap and the warnings of the log
    as they are, and either returns a value satisfying [Q] or raises an
    exception satisfying [E]. *)
Definition safe (base : nat) {A} (m : M A) (Q : A -> Prop) (E : exn -> Prop)
  : Prop :=
  forall w, base <= length (heap w) ->
    preserved base w (m w).2 /\ outcome Q E (m w).1.

(** The invariants of the local variables of the simulation blocks: [data]
    is an object of the engine's own, the array of estimates has one entry
    per iteration. *)
Definition locals_ok (base n : nat) (st : locals) : Prop :=
  base <= st.1 /\ length st.2 = n.

Definition locals2_ok (base n : nat) (st : locals2) : Prop :=
  base <= st.1.1 /\ base <= st.1.2 /\ length st.2 = n.

(** What the single-sample engine returns from the [raw] estimates of its
    [n] rounds. *)
Definition infer_result (seg_class : SegIndex) (n : nat) (b : bool)
    (raw : list fval) : Inference :=
  let est := List.filter (fun x => negb (degenerate x)) raw in
  mkInference
    (if b then two_tailed_p_value est (statistic seg_class)
     else fdiv (of_nat (count (map (fun e => fgtb e (statistic seg_class)) est)))
            (of_nat n))
    est (statistic seg_class) (_class_name_of seg_class).

Definition new_warnings (raw : list fval) : list string :=
  if existsb degenerate raw then [nan_inf_warning] else [].

(** What the two-sample engine returns. *)
Definition compare_result (seg_class_1 seg_class_2 : SegIndex)
    (raw : list fval) : Inference :=
  let est := List.filter (fun x => negb (degenerate x)) raw in
  let point_estimation :=
    fsub (statistic seg_class_1) (statistic seg_class_2) in
  mkInference (two_tailed_p_value est point_estimation) est point_estimation
    (_class_name_of seg_class_1).

(** [emits m R]: when [m] returns [a], the statistics [vs] the index
    formulas have returned to it in the meantime satisfy [R a vs]. *)
Definition emits {A} (m : M A) (R : A -> list fval -> Prop) : Prop :=
  forall w a w',
    m w = (inr a, w') ->
    exists vs, R a vs /\ returned (log w') = returned (log w) ++ vs.

(** No index formula is called. *)
Definition quiet {A} (m : M A) : Prop := emits m (fun _ vs => vs = []).

(** The differences of the successive pairs of a list. *)
Fixpoint pair_differences (vs : list fval) : list fval :=
  match vs with
  | v1 :: v2 :: rest => fsub v1 v2 :: pair_differences rest
  | _ => []
  end.

(** What a single-sample block hands over: one statistic a round, in the
    order of the rounds. *)
Definition one_per_round (n : nat) (st : locals) (vs : list fval) : Prop :=
  length vs = n /\ st.2 = vs.

(** What a two-sample block hands over: the difference of the two
    statistics of each round. *)
Definition two_per_round (n : nat) (st : locals2) (vs : list fval) : Prop :=
  length vs = 2 * n /\ st.2 = pair_differences vs.

(** Three classes of exceptions. *)
Definition anything (e : exn) : Prop := True.


Definition not_not_implemented (e : exn) : Prop :=
  e <> ValueError "Not implemented for MultiGroup indexes.".

End Logic.

Export Logic.

(** ** Further vocabulary *)

(** Every column of a pandas frame has one cell per row. *)
Definition rectangular (df : DataFrame) : Prop :=
  Forall (fun p => length p.2 = nrows df) (columns df).

(** A float that is zero, whatever the fraction that stands for it. *)
Definition is_zero (x : fval) : Prop := exists q, x = Fin q /\ (q == 0)%Q.

Definition zero_or_nan (x : fval) : Prop := x = Fin 0 \/ x = NaN.

(** ** Further frames for running the code *)

Module Cases.

(** Three wards, two population groups, nobody in the second ward. *)
Definition wards : DataFrame :=
  mkFrame false "geometry" 3
    [("A", Sample.column_of [10; 0; 30]);
     ("B", Sample.column_of [30; 0; 10])].

(** Two units, one count missing. *)
Definition ledger : DataFrame :=
  mkFrame false "geometry" 2
    [("group_pop_var", [Num (Fin 10); Num NaN]);
     ("total_pop_var", Sample.column_of [20; 30])].

(** A frame without any unit. *)
Definition nowhere : DataFrame :=
  mkFrame false "geometry" 0 [("group_pop_var", []); ("total_pop_var", [])].

(** The frames of [Sample.world], followed by the three above under the
    references 10, 11 and 12. *)
Definition world : World :=
  mkWorld (heap Sample.world ++ [wards; ledger; nowhere]) 0 [].

Definition ledger_index : SegIndex :=
  mkIndex "segregation.singlegroup.dissim.Dissim" SingleGroupIndex
    NaN 11 "group_pop_var" "total_pop_var" [] "_dissim".

End Cases.

(** ** What a run may do to the draw counter and to the log *)

Module Effects.

(** From [w] to [w'] the log has grown by events that satisfy [P]; the
    draw counter has not moved when [still] is set, and has not gone back
    otherwise. *)
Definition within (still : bool) (P : event -> Prop) (w w' : World) : Prop :=
  (if still then draws w' = draws w else draws w <= draws w') /\
  exists evs, log w' = log w ++ evs /\ Forall P evs.

(** [keeps still P m]: every run of [m], whether it returns or raises,
    stays [within still P]. *)
Definition keeps {A} (still : bool) (P : event -> Prop) (m : M A) : Prop :=
  forall w, within still P w (m w).2.

Definition nothing (ev : event) : Prop := False.

(** The variables an index was built on, and the variables of the frames
    a simulation builds. *)
Definition own_args (seg_class : SegIndex) : index_args :=
  match kind seg_class with
  | SingleGroupIndex =>
      Single (group_pop_var seg_class) (total_pop_var seg_class)
  | MultiGroupIndex => Multi (groups seg_class)
  end.

Definition simulated_args (seg_class : SegIndex) : index_args :=
  match kind seg_class with
  | SingleGroupIndex => Single "simul_group" "simul_tot"
  | MultiGroupIndex => Multi (groups seg_class)
  end.

(** What the single-sample engine may add to the log. *)
Definition infer_event (seg_class : SegIndex) (n : nat) (approach : string)
    (ev : event) : Prop :=
  match ev with
  | CallIndex f args _ =>
      f = _function seg_class /\
      args = (if member approach ["bootstrap"; "permutation"]
              then own_args seg_class else simulated_args seg_class)
  | Progress done total => total = n /\ 1 <= done <= n
  | Warning msg => msg = nan_inf_warning
  | CallGenerator _ _ _ _ => False
  end.

Definition stacked_args (seg_class : SegIndex) : index_args :=
  match kind seg_class with
  | SingleGroupIndex => Single "group" "total"
  | MultiGroupIndex => Multi (groups seg_class)
  end.

(** What the two-sample engine may add to the log. *)
Definition compare_event (seg_class_1 seg_class_2 : SegIndex) (n : nat)
    (approach : string) (ev : event) : Prop :=
  match ev with
  | CallIndex f args _ =>
      if String.eqb approach "random_label"
      then (f = _function seg_class_1 \/ f = _function seg_class_2) /\
           args = stacked_args seg_class_1
      else (f = _function seg_class_1 /\
            args = Single "test_group_pop_var" (total_pop_var seg_class_1)) \/
           (f = _function seg_class_2 /\
            args = Single "test_group_pop_var" (total_pop_var seg_class_2))
  | CallGenerator g t second internal =>
      approach = ("counterfactual_" ++ internal)%string /\
      member internal ["composition"; "share"; "dual_composition"] = true /\
      g = group_pop_var seg_class_1 /\ t = total_pop_var seg_class_1 /\
      second = Some (group_pop_var seg_class_2, total_pop_var seg_class_2)
  | Progress done total => total = n /\ 1 <= done <= n
  | Warning msg => msg = nan_inf_warning
  end.

(** What the rounds of a loop that calls the index formula once and then
    reports its progress leave in the log, for the values [vs] the formula
    has returned. *)
Definition round_events (f : func_id) (args : index_args) (n : nat)
    (vs : list fval) : list event :=
  concat (imap (fun i v => [CallIndex f args (inr v); Progress (i + 1) n]) vs).

End Effects.

Export Effects.

(** ** The modified Gini index: [_modified_gini] *)

Module ModifiedGini.

(** The signed 64-bit integers of a numpy [int] array: sums wrap around
    silently. *)
Definition wrap64 (z : Z) : Z := ((z + 2 ^ 63) mod 2 ^ 64 - 2 ^ 63)%Z.

Definition in_int64 (z : Z) : bool :=
  (- 2 ^ 63 <=? z)%Z && (z <? 2 ^ 63)%Z.

(** The conversion of a double to an integer: towards zero. *)
Definition truncate (q : Q) : Z := Z.quot (Qnum q) (Z.pos (Qden q)).

(** [a.sum()] on an [int64] array. *)
Definition int_sum (l : list Z) : Z :=
  fold_left (fun a b => wrap64 (a + b)) l 0%Z.

(** [a.mean()]: the mean of no value at all is [NaN]. *)
Definition np_mean (l : list fval) : fval :=
  fdiv (fsum l) (of_nat (length l)).

(** IEEE comparison [x >= y]: false as soon as one side is [NaN]. *)
Definition fgeb (x y : fval) : bool :=
  match x, y with
  | NaN, _ | _, NaN => false
  | _, _ => negb (fltb x y)
  end.

(** [if D >= D_star: Dct = (D - D_star) / (1 - D_star)
     else: Dct = (D - D_star) / D_star] *)
Definition adjusted (D D_star : fval) : fval :=
  if fgeb D D_star
  then fdiv (fsub D D_star) (fsub (of_Z 1%Z) D_star)
  else fdiv (fsub D D_star) D_star.

(** [pd.DataFrame(est).T] for a dict [est] over [range(m)] of arrays: the
    frame is kept as the list of its columns [df[0], df[1], ...], one per
    position of the arrays, each with one entry per key of the dict. *)
Definition transposed (est : list (list Z)) : exn + list (list Z) :=
  match est with
  | [] => inr []
  | arr :: _ =>
      if forallb (fun a => Nat.eqb (length a) (length arr)) est
      then inr (map (fun i => map (fun a => default 0%Z (a !! i)) est)
                  (seq 0 (length arr)))
      else inl (ValueError "All arrays must be of the same length")
  end.

Fixpoint decimal_from (fuel n : nat) (acc : string) : string :=
  match fuel with
  | O => acc
  | S fuel' =>
      let acc' := String (ascii_of_nat (48 + n mod 10)) acc in
      if n <? 10 then acc' else decimal_from fuel' (n / 10) acc'
  end.

(** [str(n)] *)
Definition decimal (n : nat) : string := decimal_from (S n) n "".

(** [df[i].values] *)
Definition df_column (df : list (list Z)) (i : nat) : M (list Z) :=
  match df !! i with
  | Some c => mret c
  | None => raise (KeyError (decimal i))
  end.

Definition ints (l : list Z) : list cell := map (fun z => Num (of_Z z)) l.

(** What an external collaborator hands back, in the monad. *)
Definition external {A} (r : string + A) : M A :=
  match r with
  | inr a => mret a
  | inl msg => raise (External msg)
  end.

Section Engine.

Variable env : Env.

(** The nested [numba_binom(n, p, size)], numba's compiled
    [np.random.binomial]: a function of the number of draws made before
    it; it hands back [size] draws, or the message of the exception it
    raises. *)
Variable numba_binom : nat -> Z -> fval -> nat -> string + list Z.

(** What [astype(int)] leaves in the array for a float that is no
    [int64] (NaN, an infinity, a value out of range): numpy does not
    specify it. *)
Variable cast_invalid : fval -> Z.

(** What [astype(int)] does with a cell that is not a float: a string is
    parsed, another object is refused. *)
Variable cast_object : cell -> exn + Z.

Definition astype_int (c : cell) : exn + Z :=
  match c with
  | Num (Fin q) =>
      inr (if in_int64 (truncate q) then truncate q else cast_invalid (Fin q))
  | Num x => inr (cast_invalid x)
  | _ => cast_object c
  end.

(** [col.values.astype(int)] *)
Fixpoint cast_column (col : list cell) : exn + list Z :=
  match col with
  | [] => inr []
  | c :: rest =>
      match astype_int c with
      | inl e => inl e
      | inr z =>
          match cast_column rest with
          | inr zs => inr (z :: zs)
          | inl e => inl e
          end
      end
  end.

(** One round of the simulation: the draws of round [i] replace the group
    column of the copy, and the Gini index of the copy is stored. *)
Definition simulation_round (data : ref) (group_pop_var total_pop_var : string)
    (df : list (list Z)) (i : nat) (Ds : list fval) : M (list fval) :=
  col ← df_column df i;
  setitem_ref data group_pop_var (ints col);;
  frame ← load data;
  aux ← call_index env "_gini_seg" frame
          (Single group_pop_var total_pop_var) [];
  mret (<[i := aux]> Ds).

Definition _modified_gini (data : ref) (group_pop_var total_pop_var : string)
    (iterations : nat) : M (fval * DataFrame) :=
  data ← copy data;
  frame ← load data;
  D ← call_index env "_gini_seg" frame
        (Single group_pop_var total_pop_var) [];
  x ← column data group_pop_var;
  t ← column data total_pop_var;
  t ← lift (cast_column t);
  x ← lift (numeric x);
  let p_null := fdiv (fsum x) (of_Z (int_sum t)) in
  let Ds := np_empty env iterations in
  est ← mapM (fun n =>
           seed ← draw;
           external (numba_binom seed n p_null iterations)) t;
  df ← lift (transposed est);
  Ds ← for_range iterations
         (simulation_round data group_pop_var total_pop_var df) Ds;
  let D_star := np_mean Ds in
  let Dct := adjusted D D_star in
  frame ← load data;
  core_data ←
    lift (if negb (geo frame)
          then select frame [group_pop_var; total_pop_var]
          else select frame [group_pop_var; total_pop_var;
                             geometry_name frame]);
  mret (Dct, core_data).

End Engine.

(** The frame after [data[c] = cells]. *)
Definition overwritten (df : DataFrame) (c : string) (cells : list cell)
  : DataFrame :=
  mkFrame (geo df) (geometry_name df) (nrows df)
    (assoc_set c cells (columns df)).

(** The copy of the data after [k] rounds of simulation over the draws
    [df]: its group column holds the draws of the last round. *)
Definition after_rounds (df : list (list Z)) (frame : DataFrame) (g : string)
    (k : nat) : DataFrame :=
  match k with
  | O => frame
  | S k' => overwritten frame g (ints (default [] (df !! k')))
  end.

Definition gini_call (g t : string) (v : fval) : event :=
  CallIndex "_gini_seg" (Single g t) (inr v).

End ModifiedGini.

(** ** An environment for running the modified Gini index *)

Module Trial.

(** The Gini index of segregation,
    [sum_i sum_j t_i t_j |p_i - p_j| / (2 T^2 P (1 - P))]. *)
Definition gini (df : DataFrame) (g t : string)
  : exn + (fval * DataFrame) :=
  match getitem df g, getitem df t, select df [g; t] with
  | inr xcol, inr tcol, inr core =>
      match numeric xcol, numeric tcol with
      | inr x, inr tot =>
          let T := fsum tot in
          let P := fdiv (fsum x) T in
          let units := zip tot (zip_with fdiv x tot) in
          let pairs :=
            flat_map (fun a =>
                        map (fun b => fmul (fmul a.1 b.1)
                                        (fabs (fsub a.2 b.2))) units)
              units in
          inr (fdiv (fsum pairs)
                 (fmul (fmul (fmul (of_Z 2%Z) (fmul T T)) P)
                    (fsub (of_Z 1%Z) P)),
               core)
      | inl e, _ | _, inl e => inl e
      end
  | inl e, _, _ | _, inl e, _ | _, _, inl e => inl e
  end.

Definition env : Env := {|
  apply_index := fun f df args kw =>
    match args with
    | Single g t =>
        if String.eqb f "_gini_seg" then collaborator (gini df g t)
        else apply_index Sample.env f df args kw
    | Multi _ => apply_index Sample.env f df args kw
    end;
  _generate_counterfactual := _generate_counterfactual Sample.env;
  random_multinomial := random_multinomial Sample.env;
  random_multinomial1 := random_multinomial1 Sample.env;
  random_choice := random_choice Sample.env;
  random_binomial := random_binomial Sample.env;
  random_permutation := random_permutation Sample.env;
  random_uniform := random_uniform Sample.env;
  uninitialised := uninitialised Sample.env
|}.

(** A deterministic stand-in for the binomial draws: nobody, then
    everybody, in turn. *)
Definition numba_binom (seed : nat) (n : Z) (p : fval) (size : nat)
  : string + list Z :=
  inr (map (fun k => if Nat.even (seed + k) then 0%Z else n) (seq 0 size)).

(** A cast that leaves the smallest integer for what is not an [int64],
    and refuses every cell that is not a number. *)
Definition cast_invalid (x : fval) : Z := (- 2 ^ 63)%Z.

Definition cast_object (c : cell) : exn + Z :=
  inl (ValueError "invalid literal for int() with base 10").

Definition _modified_gini :=
  ModifiedGini._modified_gini env numba_binom cast_invalid cast_object.

End Trial.

(** ** The test objects

    The classes [SingleValueTest] and [TwoValueTest] run an engine in
    their constructor and keep its four results as attributes.  An
    argument left out by the caller is [None] here, and takes the default
    of the signature. *)

Module SingleValueTest.

Record obj : Type := mk {
  p_value : fval;
  est_sim : list fval;
  statistic : fval;
  _class_name : string
}.

Definition __init__ (env : Env) (seg_class : SegIndex)
    (iterations_under_null : option nat) (null_approach : option string)
    (two_tailed : option pyval) (kw : kwargs) : M obj :=
  let iterations_under_null := default 500 iterations_under_null in
  let null_approach := default "systematic"%string null_approach in
  let two_tailed := default (PyBool true) two_tailed in
  aux ← _infer_segregation env seg_class iterations_under_null null_approach
          two_tailed kw;
  let '(mkInference aux0 aux1 aux2 aux3) := aux in
  mret (mk aux0 aux1 aux2 aux3).

End SingleValueTest.

Module TwoValueTest.

Record obj : Type := mk {
  p_value : fval;
  est_sim : list fval;
  est_point_diff : fval;
  _class_name : string
}.

Definition __init__ (env : Env) (seg_class_1 seg_class_2 : SegIndex)
    (iterations_under_null : option nat) (null_approach : option string)
    (kw : kwargs) : M obj :=
  let iterations_under_null := default 500 iterations_under_null in
  let null_approach := default "random_label"%string null_approach in
  aux ← _compare_segregation env seg_class_1 seg_class_2
          iterations_under_null null_approach kw;
  let '(mkInference aux0 aux1 aux2 aux3) := aux in
  mret (mk aux0 aux1 aux2 aux3).

End TwoValueTest.

(** * Properties *)

(** ** Arithmetic of the float model *)

Lemma fin_eq (p q : Q) : (p == q)%Q -> fin p = fin q.
Proof. intros H. unfold fin. f_equal. now apply Qred_complete. Qed.

Lemma half_value : fdiv (of_Z 1%Z) (of_Z 2%Z) = Fin (1 # 2).
Proof. reflexivity. Qed.

(** In float64 too, [1 / 2] is one half. *)
Lemma binary64_half : Binary64.div (of_Z 1%Z) (of_Z 2%Z) = Fin (1 # 2).
Proof. vm_compute. reflexivity. Qed.

(** The rounded operations of [Binary64] compute what the primitive floats
    of the kernel, the float64 of the machine, compute: here on the two
    expressions of the decomposition, at [0.5], [0.3], [0.4] and [0.2]. *)
Section Machine.

Import PrimFloat.

Lemma binary64_as_the_machine :
  FloatOps.Prim2SF
    (0x1p-1 * (0x1p-1 - 0x1.999999999999ap-2 + 0x1.3333333333333p-2
               - 0x1.999999999999ap-3))%float
  = Binary64.to_spec Handpicked.d0_09999999999999998 /\
  FloatOps.Prim2SF
    (0x1p-1 * (0x1p-1 - 0x1.3333333333333p-2 + 0x1.999999999999ap-2
               - 0x1.999999999999ap-3))%float
  = Binary64.to_spec Handpicked.d0_20000000000000004 /\
  map FloatOps.Prim2SF [5 / 10; 3 / 10; 4 / 10; 2 / 10]%float
  = map Binary64.to_spec
      [Handpicked.d0_5; Handpicked.d0_3; Handpicked.d0_4; Handpicked.d0_2] /\
  map FloatOps.Prim2SF
    [0x1p-1; 0x1.3333333333333p-2; 0x1.999999999999ap-2;
     0x1.999999999999ap-3]%float
  = map Binary64.to_spec
      [Handpicked.d0_5; Handpicked.d0_3; Handpicked.d0_4; Handpicked.d0_2] /\
  FloatOps.Prim2SF
    (0x1.9999999999998p-4 + 0x1.999999999999bp-3)%float
  = Binary64.to_spec Handpicked.d0_30000000000000004.
Proof. repeat split; vm_compute; reflexivity. Qed.

End Machine.

(** With exact operations, regrouping [((a - c) + b) - d] as
    [(a - c) + (b - d)] does not change the value, special values
    included. *)
Lemma fsub_fadd_regroup (a b c d : fval) :
  fsub (fadd (fsub a c) b) d = fadd (fsub a c) (fsub b d).
Proof.
  destruct a as [a| | |], b as [b| | |], c as [c| | |], d as [d| | |];
    cbn; try reflexivity.
  apply fin_eq. rewrite !Qred_correct. ring.
Qed.

(** With exact operations and on finite values, the two Shapley
    components add up to the difference of the point statistics. *)
Lemma shapley_sum_finite (a b c d : Q) :
  let half := Fin (1 # 2) in
  fadd (fmul half (fsub (fadd (fsub (Fin a) (Fin c)) (Fin b)) (Fin d)))
       (fmul half (fsub (fadd (fsub (Fin a) (Fin b)) (Fin c)) (Fin d)))
  = fsub (Fin a) (Fin d).
Proof.
  cbn. apply fin_eq. rewrite !Qred_correct. ring.
Qed.

(** ** Running the monad *)

Lemma bind_run {A B} (m : M A) (f : A -> M B) (w : World) :
  (m ≫= f) w =
  match m w with
  | (inr a, w') => f a w'
  | (inl e, w') => (inl e, w')
  end.
Proof. reflexivity. Qed.

Lemma bind_inr {A B} (m : M A) (f : A -> M B) w b w' :
  (m ≫= f) w = (inr b, w') ->
  exists a w1, m w = (inr a, w1) /\ f a w1 = (inr b, w').
Proof.
  rewrite bind_run. destruct (m w) as [[e|a] w1]; [discriminate|].
  intros H. now exists a, w1.
Qed.

Lemma lift_inr {A} (r : exn + A) w a w' :
  lift r w = (inr a, w') -> r = inr a /\ w' = w.
Proof. unfold lift. intros H. now inversion H. Qed.

Lemma ret_inr {A} (x : A) w a w' :
  (mret x : M A) w = (inr a, w') -> a = x /\ w' = w.
Proof. intros H. now inversion H. Qed.

Lemma assert_inr cond msg w u w' :
  assert cond msg w = (inr u, w') -> cond = true /\ w' = w.
Proof. unfold assert. destruct cond; intros H; now inversion H. Qed.

Lemma call_index_inr env f df args kw w v w' :
  call_index env f df args kw w = (inr v, w') ->
  (exists core, apply_index env f df args kw = inr (v, core)) /\
  w' = mkWorld (heap w) (draws w) (log w ++ [CallIndex f args (inr v)]).
Proof.
  unfold call_index. intros H.
  destruct (apply_index env f df args kw) as [msg|[stat core]].
  - apply bind_inr in H as (u & w1 & _ & H2). discriminate.
  - apply bind_inr in H as (u & w1 & H1 & H2).
    inversion H1; subst; clear H1. inversion H2; subst.
    split; [now exists core | reflexivity].
Qed.

Lemma call_generator_inr env a b g t second approach w r w' :
  call_generator env a b g t second approach w = (inr r, w') ->
  _generate_counterfactual env a b g t second approach = inr r /\
  w' = mkWorld (heap w) (draws w)
         (log w ++ [CallGenerator g t second approach]).
Proof.
  unfold call_generator. intros H.
  apply bind_inr in H as (u & w1 & H1 & H2).
  inversion H1; subst; clear H1.
  destruct (_generate_counterfactual env a b g t second approach)
    as [msg|r0]; [discriminate|].
  inversion H2; subst. now split.
Qed.

Lemma copy_inr r w r' w' :
  copy r w = (inr r', w') ->
  exists df, heap w !! r = Some df /\ r' = length (heap w) /\
    w' = mkWorld (heap w ++ [df]) (draws w) (log w).
Proof.
  unfold copy, load, alloc. rewrite bind_run.
  destruct (heap w !! r) as [df|]; [|discriminate].
  intros H. inversion H; subst. now exists df.
Qed.

Lemma load_inr r w df w' :
  load r w = (inr df, w') -> heap w !! r = Some df /\ w' = w.
Proof.
  unfold load. destruct (heap w !! r); intros H; now inversion H.
Qed.

(** ** The decomposition engine *)

(** What a successful decomposition has done, step by step. *)
Lemma decompose_inr env index1 index2 approach w d w' :
  _decompose_segregation env index1 index2 approach w = (inr d, w') ->
  exists frame1 frame2 G_S1_A2 G_S2_A1 core1 core2,
    heap w !! core_data index1 = Some frame1 /\
    (heap w ++ [frame1]) !! core_data index2 = Some frame2 /\
    _function index1 = _function index2 /\
    _generate_counterfactual env frame1 frame2
      "group_pop_var" "total_pop_var" None approach
      = inr (counterfac_df1 d, counterfac_df2 d) /\
    apply_index env (_function index1) (counterfac_df1 d)
      counterfactual_columns_args [] = inr (G_S1_A2, core1) /\
    apply_index env (_function index1) (counterfac_df2 d)
      counterfactual_columns_args [] = inr (G_S2_A1, core2) /\
    d = mkDecomposition
          (Binary64.mul (Binary64.div (of_Z 1%Z) (of_Z 2%Z))
             (Binary64.sub
                (Binary64.add (Binary64.sub (statistic index1) G_S2_A1)
                   G_S1_A2)
                (statistic index2)))
          (Binary64.mul (Binary64.div (of_Z 1%Z) (of_Z 2%Z))
             (Binary64.sub
                (Binary64.add (Binary64.sub (statistic index1) G_S1_A2)
                   G_S2_A1)
                (statistic index2)))
          (length (heap w)) (S (length (heap w)))
          (counterfac_df1 d) (counterfac_df2 d) approach
          [("s1_a1", statistic index1); ("s1_a2", G_S1_A2);
           ("s2_a1", G_S2_A1); ("s2_a2", statistic index2)] /\
    heap w' = heap w ++ [frame1; frame2] /\
    draws w' = draws w /\
    log w' = log w ++
      [CallGenerator "group_pop_var" "total_pop_var" None approach;
       CallIndex (_function index1) counterfactual_columns_args (inr G_S1_A2);
       CallIndex (_function index1) counterfactual_columns_args
         (inr G_S2_A1)].
Proof.
  unfold _decompose_segregation. intros H.
  apply bind_inr in H as (r1 & w1 & H1 & H).
  apply copy_inr in H1 as (frame1 & Hf1 & -> & ->).
  apply bind_inr in H as (r2 & w2 & H2 & H).
  apply copy_inr in H2 as (frame2 & Hf2 & -> & ->). cbn in Hf2, H.
  apply bind_inr in H as (u & w3 & H3 & H).
  apply assert_inr in H3 as [Hsame ->].
  apply bind_inr in H as (f1 & w4 & H4 & H).
  apply load_inr in H4 as [Hl1 ->]. cbn in Hl1.
  apply bind_inr in H as (f2 & w5 & H5 & H).
  apply load_inr in H5 as [Hl2 ->]. cbn in Hl2.
  apply bind_inr in H as ([cf1 cf2] & w6 & H6 & H).
  apply call_generator_inr in H6 as [Hgen ->]. cbn in H.
  apply bind_inr in H as (g12 & w7 & H7 & H).
  apply call_index_inr in H7 as [[core1 Hc1] ->]. cbn in H.
  apply bind_inr in H as (g21 & w8 & H8 & H).
  apply call_index_inr in H8 as [[core2 Hc2] ->]. cbn in H.
  apply ret_inr in H as [-> ->].
  assert (Hlen : length (heap w ++ [frame1]) = S (length (heap w)))
    by (rewrite length_app; cbn; lia).
  rewrite Hlen in *.
  assert (f1 = frame1) as ->.
  { rewrite <- (assoc_L (++)) in Hl1. rewrite lookup_app_r in Hl1 by lia.
    rewrite Nat.sub_diag in Hl1. now inversion Hl1. }
  assert (f2 = frame2) as ->.
  { rewrite lookup_app_r in Hl2 by (rewrite Hlen; lia).
    rewrite Hlen, Nat.sub_diag in Hl2. now inversion Hl2. }
  exists frame1, frame2, g12, g21, core1, core2.
  cbn [counterfac_df1 counterfac_df2 heap draws log].
  apply String.eqb_eq in Hsame.
  repeat split; try assumption; try reflexivity.
  - now rewrite <- (assoc_L (++)).
  - now rewrite <- !(assoc_L (++)).
Qed.

(** The run of the decomposition on the hand-picked statistics. *)
Lemma handpicked_run :
  _decompose_segregation Handpicked.env Handpicked.index_1
    Handpicked.index_2 "composition" Handpicked.world
  = (inr (mkDecomposition Handpicked.d0_09999999999999998
            Handpicked.d0_20000000000000004 2 3
            Handpicked.counterfactual_1 Handpicked.counterfactual_2
            "composition"
            [("s1_a1", Handpicked.d0_5); ("s1_a2", Handpicked.d0_3);
             ("s2_a1", Handpicked.d0_4); ("s2_a2", Handpicked.d0_2)]),
     mkWorld
       [Handpicked.city_1; Handpicked.city_2; Handpicked.city_1;
        Handpicked.city_2] 0
       [CallGenerator "group_pop_var" "total_pop_var" None "composition";
        CallIndex "_share" counterfactual_columns_args
          (inr Handpicked.d0_3);
        CallIndex "_share" counterfactual_columns_args
          (inr Handpicked.d0_4)]).
Proof. vm_compute. reflexivity. Qed.

(** On the hand-picked statistics the attribute component the code
    returns is [0.20000000000000004]; the closed form of the design
    document gives [0.2], whether its operations are taken exact or
    rounded to float64 in the order it is written. *)
Lemma closed_forms_not_exact :
  exists d w',
    _decompose_segregation Handpicked.env Handpicked.index_1
      Handpicked.index_2 "composition" Handpicked.world = (inr d, w') /\
    exists G_S1_A2 G_S2_A1 core1 core2,
      let G_S1_A1 := statistic Handpicked.index_1 in
      let G_S2_A2 := statistic Handpicked.index_2 in
      let half := Binary64.div (of_Z 1%Z) (of_Z 2%Z) in
      apply_index Handpicked.env "_share" (counterfac_df1 d)
        (Single "counterfactual_group_pop" "counterfactual_total_pop") []
        = inr (G_S1_A2, core1) /\
      apply_index Handpicked.env "_share" (counterfac_df2 d)
        (Single "counterfactual_group_pop" "counterfactual_total_pop") []
        = inr (G_S2_A1, core2) /\
      [G_S1_A1; G_S1_A2; G_S2_A1; G_S2_A2]
      = [Handpicked.d0_5; Handpicked.d0_3; Handpicked.d0_4;
         Handpicked.d0_2] /\
      C_A d = Handpicked.d0_20000000000000004 /\
      fmul (Fin (1 # 2))
        (fadd (fsub G_S1_A1 G_S1_A2) (fsub G_S2_A1 G_S2_A2))
      = Handpicked.d0_2 /\
      Binary64.mul half
        (Binary64.add (Binary64.sub G_S1_A1 G_S1_A2)
           (Binary64.sub G_S2_A1 G_S2_A2))
      = Handpicked.d0_2 /\
      C_A d <> Handpicked.d0_2.
Proof.
  eexists. eexists. split; [apply handpicked_run|].
  eexists. eexists. eexists. eexists. cbn zeta.
  split; [vm_compute; reflexivity|]. split; [vm_compute; reflexivity|].
  split; [vm_compute; reflexivity|]. split; [reflexivity|].
  split; [vm_compute; reflexivity|]. split; [vm_compute; reflexivity|].
  vm_compute. discriminate.
Qed.

(** C1, as the code has it.  For every pair of index results the
    decomposition engine accepts, the spatial component is the float64
    value of [1/2 * (G11 - G21 + G12 - G22)] and the attribute component
    that of [1/2 * (G11 - G12 + G21 - G22)], evaluated from left to right,
    every operation rounded.  [G11] and [G22] are the statistics of the two
    indices; [G12] and [G21] are what the index function of the first
    index returns on the counterfactual columns of the first and of the
    second dataset the generator has returned for the copies of the two
    core data frames.  The four values are those of [results]; the copies,
    the two datasets and the approach are returned with them, and the log
    has gained the call of the generator and the two calls of the index
    function, nothing else.  With exact operations the two expressions are
    the closed forms of the design document. *)
Theorem decompose_left_to_right env index1 index2 approach w d w' :
  _decompose_segregation env index1 index2 approach w = (inr d, w') ->
  exists frame1 frame2 G_S1_A2 G_S2_A1 core1 core2,
    let G_S1_A1 := statistic index1 in
    let G_S2_A2 := statistic index2 in
    let half := Binary64.div (of_Z 1%Z) (of_Z 2%Z) in
    heap w !! core_data index1 = Some frame1 /\
    (heap w ++ [frame1]) !! core_data index2 = Some frame2 /\
    _function index1 = _function index2 /\
    heap w' = heap w ++ [frame1; frame2] /\
    df1 d = length (heap w) /\ df2 d = S (length (heap w)) /\
    _generate_counterfactual env frame1 frame2
      "group_pop_var" "total_pop_var" None approach
      = inr (counterfac_df1 d, counterfac_df2 d) /\
    apply_index env (_function index1) (counterfac_df1 d)
      (Single "counterfactual_group_pop" "counterfactual_total_pop") []
      = inr (G_S1_A2, core1) /\
    apply_index env (_function index1) (counterfac_df2 d)
      (Single "counterfactual_group_pop" "counterfactual_total_pop") []
      = inr (G_S2_A1, core2) /\
    C_S d = Binary64.mul half
              (Binary64.sub
                 (Binary64.add (Binary64.sub G_S1_A1 G_S2_A1) G_S1_A2)
                 G_S2_A2) /\
    C_A d = Binary64.mul half
              (Binary64.sub
                 (Binary64.add (Binary64.sub G_S1_A1 G_S1_A2) G_S2_A1)
                 G_S2_A2) /\
    results d = [("s1_a1", G_S1_A1); ("s1_a2", G_S1_A2);
                 ("s2_a1", G_S2_A1); ("s2_a2", G_S2_A2)] /\
    counterfactual_approach d = approach /\
    log w' = log w ++
      [CallGenerator "group_pop_var" "total_pop_var" None approach;
       CallIndex (_function index1)
         (Single "counterfactual_group_pop" "counterfactual_total_pop")
         (inr G_S1_A2);
       CallIndex (_function index1)
         (Single "counterfactual_group_pop" "counterfactual_total_pop")
         (inr G_S2_A1)] /\
    fmul (Fin (1 # 2)) (fsub (fadd (fsub G_S1_A1 G_S2_A1) G_S1_A2) G_S2_A2)
    = fmul (Fin (1 # 2))
        (fadd (fsub G_S1_A1 G_S2_A1) (fsub G_S1_A2 G_S2_A2)) /\
    fmul (Fin (1 # 2)) (fsub (fadd (fsub G_S1_A1 G_S1_A2) G_S2_A1) G_S2_A2)
    = fmul (Fin (1 # 2))
        (fadd (fsub G_S1_A1 G_S1_A2) (fsub G_S2_A1 G_S2_A2)).
Proof.
  intros H.
  apply decompose_inr in H
    as (f1 & f2 & g12 & g21 & c1 & c2 & Hf1 & Hf2 & Hsame & Hgen & H12 & H21
        & Hd & Hheap & _ & Hlog).
  exists f1, f2, g12, g21, c1, c2. cbn zeta.
  rewrite !fsub_fadd_regroup.
  repeat split; try assumption; try reflexivity;
    rewrite Hd; reflexivity.
Qed.

Lemma decompose_left_to_right_witness :
  exists G_S1_A2 G_S2_A1,
    let G_S1_A1 := statistic Handpicked.index_1 in
    let G_S2_A2 := statistic Handpicked.index_2 in
    let half := Binary64.div (of_Z 1%Z) (of_Z 2%Z) in
    [G_S1_A1; G_S1_A2; G_S2_A1; G_S2_A2]
    = [Handpicked.d0_5; Handpicked.d0_3; Handpicked.d0_4; Handpicked.d0_2] /\
    Handpicked.d0_09999999999999998
    = Binary64.mul half
        (Binary64.sub (Binary64.add (Binary64.sub G_S1_A1 G_S2_A1) G_S1_A2)
           G_S2_A2) /\
    Handpicked.d0_20000000000000004
    = Binary64.mul half
        (Binary64.sub (Binary64.add (Binary64.sub G_S1_A1 G_S1_A2) G_S2_A1)
           G_S2_A2).
Proof.
  destruct (decompose_left_to_right _ _ _ _ _ _ _ handpicked_run)
    as (f1 & f2 & g12 & g21 & c1 & c2 & _ & _ & _ & _ & _ & _ & _ & _ & _
        & HS & HA & Hres & _).
  exists g12, g21. cbn zeta in *.
  cbn [results C_S C_A] in Hres, HS, HA.
  injection Hres as <- <-. split; [reflexivity|]. split; assumption.
Defined.

(** With exact operations the two expressions of the code add up to the
    difference of the two point statistics, whenever the four values are
    finite: what keeps the components of the code from adding up is the
    rounding of float64, or a value that is not finite. *)
Lemma exact_components_add_up (a b c d : Q) :
  fadd (fmul (Fin (1 # 2))
          (fsub (fadd (fsub (Fin a) (Fin c)) (Fin b)) (Fin d)))
       (fmul (Fin (1 # 2))
          (fsub (fadd (fsub (Fin a) (Fin b)) (Fin c)) (Fin d)))
  = fsub (Fin a) (Fin d).
Proof. apply shapley_sum_finite. Qed.

(** C4.  The two components are both derived from the four cross
    statistics of [results], and they need not add up to the difference of
    the two point statistics: on the hand-picked statistics [0.5], [0.3],
    [0.4] and [0.2], all finite, the components are [0.09999999999999998]
    and [0.20000000000000004]; their float64 sum is
    [0.30000000000000004], their exact sum is larger still, and
    [statistic1 - statistic2] is [0.3]. *)
Theorem components_need_not_sum_to_difference :
  (forall env index1 index2 approach w d w',
     _decompose_segregation env index1 index2 approach w = (inr d, w') ->
     exists G_S1_A2 G_S2_A1,
       let G_S1_A1 := statistic index1 in
       let G_S2_A2 := statistic index2 in
       let half := Binary64.div (of_Z 1%Z) (of_Z 2%Z) in
       results d = [("s1_a1", G_S1_A1); ("s1_a2", G_S1_A2);
                    ("s2_a1", G_S2_A1); ("s2_a2", G_S2_A2)] /\
       C_S d = Binary64.mul half
                 (Binary64.sub
                    (Binary64.add (Binary64.sub G_S1_A1 G_S2_A1) G_S1_A2)
                    G_S2_A2) /\
       C_A d = Binary64.mul half
                 (Binary64.sub
                    (Binary64.add (Binary64.sub G_S1_A1 G_S1_A2) G_S2_A1)
                    G_S2_A2)) /\
  (exists d w',
     let statistic1 := statistic Handpicked.index_1 in
     let statistic2 := statistic Handpicked.index_2 in
     _decompose_segregation Handpicked.env Handpicked.index_1
       Handpicked.index_2 "composition" Handpicked.world = (inr d, w') /\
     results d = [("s1_a1", Handpicked.d0_5); ("s1_a2", Handpicked.d0_3);
                  ("s2_a1", Handpicked.d0_4); ("s2_a2", Handpicked.d0_2)] /\
     Forall (fun p => isfinite p.2 = true) (results d) /\
     C_S d = Handpicked.d0_09999999999999998 /\
     C_A d = Handpicked.d0_20000000000000004 /\
     Binary64.add (C_S d) (C_A d) = Handpicked.d0_30000000000000004 /\
     Binary64.sub statistic1 statistic2 = Handpicked.d0_3 /\
     Binary64.add (C_S d) (C_A d) <> Binary64.sub statistic1 statistic2 /\
     fadd (C_S d) (C_A d) <> fsub statistic1 statistic2).
Proof.
  split.
  - intros env index1 index2 approach w d w' H.
    apply decompose_inr in H
      as (f1 & f2 & g12 & g21 & c1 & c2 & _ & _ & _ & _ & _ & _ & Hd & _).
    exists g12, g21. cbn zeta. rewrite Hd. now repeat split.
  - eexists. eexists. cbn zeta. split; [apply handpicked_run|].
    cbn [results C_S C_A].
    split; [reflexivity|].
    split; [repeat constructor|].
    split; [reflexivity|]. split; [reflexivity|].
    split; [vm_compute; reflexivity|]. split; [vm_compute; reflexivity|].
    split; vm_compute; discriminate.
Qed.

Lemma components_need_not_sum_to_difference_witness :
  exists G_S1_A2 G_S2_A1,
    [("s1_a1", Handpicked.d0_5); ("s1_a2", Handpicked.d0_3);
     ("s2_a1", Handpicked.d0_4); ("s2_a2", Handpicked.d0_2)]
    = [("s1_a1", statistic Handpicked.index_1); ("s1_a2", G_S1_A2);
       ("s2_a1", G_S2_A1); ("s2_a2", statistic Handpicked.index_2)].
Proof.
  destruct (proj1 components_need_not_sum_to_difference _ _ _ _ _ _ _
              handpicked_run) as (g12 & g21 & Hres & _).
  now exists g12, g21.
Defined.

(** ** The NaN handler of the multigroup dissimilarity index *)

Lemma effect_returned (h : nan_handler) df warned core filtered :
  h df = (warned, inr (core, filtered)) ->
  effect (h df) = (warned, inr core).
Proof. intros ->. reflexivity. Qed.

(** C10.  In the multigroup dissimilarity index the frame the NaN handler
    returns is never read: two handlers that warn, raise and leave the
    frame they are given alike give the same outcome, whatever they
    return.  Hence, for every dataset and group list, when the handler
    returns and has left [core_data] as it was, the statistic, the core
    data and the groups (or the exception) are those of the same
    computation without the call, computed from the unfiltered
    [data[groups]].  The call is not without effect when the handler
    raises (its exception is the outcome) or changes [core_data] in place
    (the index is computed on the frame as the call leaves it), and the
    handler is not called when a group is missing.  On the survey with a
    missing count the handler returns the first row alone, on which the
    index is 0, and the index returned is that of both rows, NaN. *)
Theorem multi_dissim_ignores_nan_handle
    (_nan_handle : nan_handler) (data : DataFrame) (groups : list string) :
  (forall h' : nan_handler,
     (forall df, effect (h' df) = effect (_nan_handle df)) ->
     _multi_dissim h' data groups = _multi_dissim _nan_handle data groups) /\
  (forall core warned filtered,
     select data groups = inr core ->
     _nan_handle core = (warned, inr (core, filtered)) ->
     _multi_dissim _nan_handle data groups
     = (warned, _multi_dissim_without_nan_handle data groups)) /\
  (forall core warned e,
     select data groups = inr core ->
     _nan_handle core = (warned, inl e) ->
     _multi_dissim _nan_handle data groups = (warned, inl e)) /\
  (forall core warned core' filtered,
     select data groups = inr core ->
     _nan_handle core = (warned, inr (core', filtered)) ->
     _multi_dissim _nan_handle data groups
     = (warned,
        match to_numpy core' with
        | inl e => inl e
        | inr df => inr (multi_dissim_statistic df, core', groups)
        end)) /\
  (forall e,
     select data groups = inl e ->
     _multi_dissim _nan_handle data groups = ([], inl e) /\
     _multi_dissim_without_nan_handle data groups = inl e) /\
  (Sample.drop_nan_rows Sample.survey
   = (["There are NAs present in the input data."],
      inr (Sample.survey,
           mkFrame false "geometry" 1
             [("A", [Num (Fin 10)]); ("B", [Num (Fin 20)])])) /\
   _multi_dissim Sample.drop_nan_rows Sample.survey ["A"; "B"]
   = (["There are NAs present in the input data."],
      inr (NaN, Sample.survey, ["A"; "B"])) /\
   _multi_dissim_without_nan_handle
     (mkFrame false "geometry" 1
        [("A", [Num (Fin 10)]); ("B", [Num (Fin 20)])]) ["A"; "B"]
   = inr (Fin 0,
          mkFrame false "geometry" 1
            [("A", [Num (Fin 10)]); ("B", [Num (Fin 20)])],
          ["A"; "B"])).
Proof.
  split; [|split; [|split; [|split; [|split]]]].
  - intros h' Hsame. unfold _multi_dissim.
    destruct (select data groups) as [e|core]; [reflexivity|].
    specialize (Hsame core). unfold effect in Hsame.
    destruct (h' core) as [warned' [e'|[core1 data1]]],
             (_nan_handle core) as [warned [e|[core2 data2]]];
      cbn [fst snd] in Hsame; inversion Hsame; subst; reflexivity.
  - intros core warned filtered Hs Hh.
    unfold _multi_dissim, _multi_dissim_without_nan_handle.
    rewrite Hs, Hh. now destruct (to_numpy core).
  - intros core warned e Hs Hh. unfold _multi_dissim. now rewrite Hs, Hh.
  - intros core warned core' filtered Hs Hh. unfold _multi_dissim.
    rewrite Hs, Hh. now destruct (to_numpy core').
  - intros e Hs. unfold _multi_dissim, _multi_dissim_without_nan_handle.
    now rewrite Hs.
  - repeat split; vm_compute; reflexivity.
Qed.

Lemma multi_dissim_ignores_nan_handle_witness :
  _multi_dissim Sample.drop_nan_rows Sample.survey ["A"; "B"]
  = (["There are NAs present in the input data."],
     _multi_dissim_without_nan_handle Sample.survey ["A"; "B"]) /\
  _multi_dissim_without_nan_handle Sample.survey ["A"; "B"]
  = inr (NaN, Sample.survey, ["A"; "B"]).
Proof.
  split; [|vm_compute; reflexivity].
  apply (proj1 (proj2 (multi_dissim_ignores_nan_handle Sample.drop_nan_rows
                         Sample.survey ["A"; "B"]))
           Sample.survey ["There are NAs present in the input data."]
           (mkFrame false "geometry" 1
              [("A", [Num (Fin 10)]); ("B", [Num (Fin 20)])]));
    vm_compute; reflexivity.
Defined.

(** A handler that drops the rows in place instead: the index is then
    computed on what it has left. *)
Example multi_dissim_after_in_place_change :
  let in_place : nan_handler := fun df =>
    match Sample.drop_nan_rows df with
    | (warned, inr (_, filtered)) => (warned, inr (filtered, filtered))
    | r => r
    end in
  _multi_dissim in_place Sample.survey ["A"; "B"]
  = (["There are NAs present in the input data."],
     inr (Fin 0,
          mkFrame false "geometry" 1
            [("A", [Num (Fin 10)]); ("B", [Num (Fin 20)])],
          ["A"; "B"])).
Proof. vm_compute. reflexivity. Qed.

(** ** A program logic for the engines *)

Section Safety.

Variable base : nat.

Lemma preserved_refl w : base <= length (heap w) -> preserved base w w.
Proof. now repeat split. Qed.

Lemma preserved_trans w1 w2 w3 :
  preserved base w1 w2 -> preserved base w2 w3 -> preserved base w1 w3.
Proof.
  intros (? & H1 & H2) (? & H3 & H4). repeat split; [assumption| |]; congruence.
Qed.

Lemma safe_run {A} (m : M A) Q E w r w' :
  safe base m Q E -> base <= length (heap w) -> m w = (r, w') ->
  preserved base w w' /\ outcome Q E r.
Proof. intros H Hb Hm. specialize (H w Hb). now rewrite Hm in H. Qed.

Lemma safe_weaken {A} (m : M A) (Q Q' : A -> Prop) (E E' : exn -> Prop) :
  safe base m Q E -> (forall a, Q a -> Q' a) -> (forall e, E e -> E' e) ->
  safe base m Q' E'.
Proof.
  intros H HQ HE w Hb. destruct (H w Hb) as [Hp Ho]. split; [assumption|].
  destruct ((m w).1); cbn in *; auto.
Qed.

Lemma safe_ret {A} (a : A) (Q : A -> Prop) E : Q a -> safe base (mret a) Q E.
Proof. intros HQ w Hb. split; [now apply preserved_refl | exact HQ]. Qed.

Lemma safe_raise {A} (e : exn) (Q : A -> Prop) (E : exn -> Prop) :
  E e -> safe base (raise e) Q E.
Proof. intros HE w Hb. split; [now apply preserved_refl | exact HE]. Qed.

Lemma safe_bind {A B} (m : M A) (f : A -> M B) Q1 Q2 E :
  safe base m Q1 E -> (forall a, Q1 a -> safe base (f a) Q2 E) -> safe base (m ≫= f) Q2 E.
Proof.
  intros Hm Hf w Hb. rewrite bind_run.
  destruct (Hm w Hb) as [Hp Ho].
  destruct (m w) as [[e|a] w1]; cbn in *; [now split|].
  destruct Hp as (Hb1 & ? & ?).
  destruct (Hf a Ho w1 Hb1) as [Hp2 Ho2].
  split; [|assumption].
  eapply preserved_trans; [|exact Hp2]. now repeat split.
Qed.

Lemma safe_lift {A} (r : exn + A) (Q : A -> Prop) E :
  outcome Q E r -> safe base (lift r) Q E.
Proof. intros Ho w Hb. split; [now apply preserved_refl | exact Ho]. Qed.

Ltac run_primitive :=
  unfold preserved, outcome, alloc, store, draw, emit;
  cbn [heap draws log fst snd].

Lemma safe_alloc df E : safe base (alloc df) (fun r => base <= r) E.
Proof.
  intros w Hb. run_primitive. repeat split; try reflexivity.
  - rewrite length_app. lia.
  - now rewrite take_app_le.
  - assumption.
Qed.

Lemma safe_store r df E : base <= r -> safe base (store r df) (fun _ => True) E.
Proof.
  intros Hr w Hb. run_primitive. repeat split; try reflexivity.
  - now rewrite length_insert.
  - now rewrite take_insert_ge.
Qed.

Lemma safe_draw E : safe base draw (fun _ => True) E.
Proof. intros w Hb. run_primitive. now repeat split. Qed.

Lemma warnings_app l1 l2 : warnings (l1 ++ l2) = warnings l1 ++ warnings l2.
Proof. unfold warnings. apply omap_app. Qed.

Lemma safe_emit ev E :
  warnings [ev] = [] -> safe base (emit ev) (fun _ => True) E.
Proof.
  intros Hev w Hb. run_primitive. repeat split; try assumption.
  now rewrite warnings_app, Hev, app_nil_r.
Qed.

Lemma safe_for_range {S} (n : nat) (body : nat -> S -> M S) (s : S)
    (I : S -> Prop) E :
  I s -> (forall i s', I s' -> safe base (body i s') I E) ->
  safe base (for_range n body s) I E.
Proof.
  intros Hs Hbody. induction n as [|n IH]; cbn.
  - now apply safe_ret.
  - eapply safe_bind; [exact IH|]. intros s' Hs'. now apply Hbody.
Qed.

Lemma safe_mapM {A B} (f : A -> M B) (l : list A) E :
  (forall x, safe base (f x) (fun _ => True) E) ->
  safe base (mapM f l) (fun _ => True) E.
Proof.
  intros Hf. induction l as [|x l IH]; cbn.
  - now apply safe_ret.
  - eapply safe_bind; [apply Hf|]. intros y _.
    eapply safe_bind; [exact IH|]. intros ys _. now apply safe_ret.
Qed.

End Safety.

(** *** Failures of pandas and numpy are not raised by the engines *)

Lemma lib_getitem df c : library_failure (getitem df c).
Proof.
  unfold getitem. intros e. destruct (assoc c (columns df)); intros H;
    inversion H. reflexivity.
Qed.

Lemma lib_numeric col : library_failure (numeric col).
Proof.
  induction col as [|[x|s|g] col IH]; intros e H; cbn in H;
    try (inversion H; reflexivity).
  destruct (numeric col) as [e'|xs]; inversion H; subst. now apply IH.
Qed.

Lemma lib_setitem df c vals : library_failure (setitem df c vals).
Proof.
  unfold setitem. intros e. destruct (Nat.eqb _ _); intros H; inversion H.
  reflexivity.
Qed.

Lemma lib_select df cs : library_failure (select df cs).
Proof.
  unfold select. intros e.
  assert (Hc : library_failure (select_columns (columns df) cs)).
  { induction cs as [|c cs IH]; intros e' H; cbn in H; [discriminate|].
    destruct (assoc c (columns df)); [|inversion H; reflexivity].
    destruct (select_columns (columns df) cs); inversion H; subst.
    now apply IH. }
  destruct (select_columns (columns df) cs) as [e'|r]; intros H;
    inversion H; subst. now apply Hc.
Qed.

Lemma lib_set_column_names df names :
  library_failure (set_column_names df names).
Proof.
  unfold set_column_names. intros e. destruct (Nat.eqb _ _); intros H;
    inversion H. reflexivity.
Qed.

Lemma lib_iloc df ps : library_failure (iloc df ps).
Proof.
  unfold iloc. intros e. destruct (forallb _ _); intros H; inversion H.
  reflexivity.
Qed.

Lemma lib_from_dict d : library_failure (from_dict d).
Proof.
  unfold from_dict. intros e. destruct d as [|[c col] d]; [discriminate|].
  destruct (forallb _ _); intros H; inversion H. reflexivity.
Qed.

Lemma lib_to_numpy df : library_failure (to_numpy df).
Proof.
  unfold to_numpy. intros e.
  assert (Hc : library_failure (numeric_columns (columns df))).
  { induction (columns df) as [|[c col] cols IH]; intros e' H; cbn in H;
      [discriminate|].
    destruct (numeric col) as [e1|xs] eqn:Hn.
    - inversion H; subst. now apply (lib_numeric col).
    - destruct (numeric_columns cols); inversion H; subst. now apply IH. }
  destruct (numeric_columns (columns df)) as [e'|r]; intros H;
    inversion H; subst. now apply Hc.
Qed.

Lemma lib_from_rows rows names : library_failure (from_rows rows names).
Proof.
  unfold from_rows. intros e. destruct (forallb _ _); intros H; inversion H.
  reflexivity.
Qed.

Lemma lib_np_add a b : library_failure (np_add a b).
Proof.
  unfold np_add. intros e. destruct (Nat.eqb _ _); intros H; inversion H.
  reflexivity.
Qed.

Lemma lib_round_astype_int col : library_failure (round_astype_int col).
Proof.
  induction col as [|[q| | |] col IH]; intros e H; cbn in H;
    try (inversion H; reflexivity).
  destruct (round_astype_int col); inversion H; subst. now apply IH.
Qed.

Lemma lib_np_where cond a b : library_failure (np_where cond a b).
Proof.
  unfold np_where. intros e. destruct (_ && _); intros H; inversion H.
  reflexivity.
Qed.

Lemma lib_drop_columns df cs : library_failure (drop_columns df cs).
Proof.
  unfold drop_columns. intros e. destruct (filter _ cs); intros H;
    inversion H. reflexivity.
Qed.

Create HintDb lib.

#[export] Hint Resolve lib_getitem lib_numeric lib_setitem lib_select
  lib_set_column_names lib_iloc lib_from_dict lib_to_numpy lib_from_rows
  lib_np_add lib_round_astype_int lib_np_where lib_drop_columns : lib.

(** *** The steps of the engines *)

Section Steps.

Variable env : Env.
Variable base : nat.
Variable E : exn -> Prop.
Hypothesis E_lib : forall e, own_raise e = false -> E e.

Local Abbreviation ok := (fun _ => True).

Lemma safe_lift_lib {A} (r : exn + A) :
  library_failure r -> safe base (lift r) ok E.
Proof.
  intros Hr. apply safe_lift. destruct r as [e|a]; cbn; [|exact I].
  apply E_lib. now apply Hr.
Qed.

Lemma safe_load r : safe base (load r) ok E.
Proof.
  intros w Hb. unfold load. destruct (heap w !! r); cbn.
  - split; [now apply preserved_refl | exact I].
  - split; [now apply preserved_refl | now apply E_lib].
Qed.

Lemma safe_copy r : safe base (copy r) (fun r' => base <= r') E.
Proof.
  unfold copy. eapply safe_bind; [apply safe_load|].
  intros df _. apply safe_alloc.
Qed.

Lemma safe_column r c : safe base (column r c) ok E.
Proof.
  unfold column. eapply safe_bind; [apply safe_load|].
  intros df _. apply safe_lift_lib. auto with lib.
Qed.

Lemma safe_numbers r c : safe base (numbers r c) ok E.
Proof.
  unfold numbers. eapply safe_bind; [apply safe_column|].
  intros col _. apply safe_lift_lib. auto with lib.
Qed.

Lemma safe_item {A} (l : list A) i : safe base (item l i) ok E.
Proof.
  unfold item. destruct (l !! i).
  - now apply safe_ret.
  - apply safe_raise. now apply E_lib.
Qed.

Lemma safe_setitem_ref r c vals :
  base <= r -> safe base (setitem_ref r c vals) ok E.
Proof.
  intros Hr. unfold setitem_ref. eapply safe_bind; [apply safe_load|].
  intros df _. eapply safe_bind; [apply safe_lift_lib; auto with lib|].
  intros df' _. now apply safe_store.
Qed.

Lemma safe_setitem_scalar_ref r c v :
  base <= r -> safe base (setitem_scalar_ref r c v) ok E.
Proof.
  intros Hr. unfold setitem_scalar_ref. eapply safe_bind; [apply safe_load|].
  intros df _. now apply safe_store.
Qed.

Lemma safe_call_index f df args kw :
  safe base (call_index env f df args kw) ok E.
Proof.
  unfold call_index.
  destruct (apply_index env f df args kw) as [msg|[stat core]].
  - eapply safe_bind; [now apply safe_emit|].
    intros _ _. apply safe_raise. now apply E_lib.
  - eapply safe_bind; [now apply safe_emit|].
    intros _ _. now apply safe_ret.
Qed.

Lemma safe_call_generator a b g t second approach :
  safe base (call_generator env a b g t second approach) ok E.
Proof.
  unfold call_generator. eapply safe_bind; [now apply safe_emit|].
  intros _ _.
  destruct (_generate_counterfactual env a b g t second approach) as [msg|r].
  - apply safe_raise. now apply E_lib.
  - now apply safe_ret.
Qed.

Lemma safe_report i total : safe base (report i total) ok E.
Proof. unfold report. now apply safe_emit. Qed.

Create HintDb safe.

Hint Resolve safe_load safe_column safe_numbers safe_item safe_call_index
  safe_call_generator safe_report safe_draw safe_alloc safe_copy : safe.

Hint Extern 1 (safe _ (lift _) _ _) =>
  apply safe_lift_lib; auto with lib : safe.

Hint Extern 1 (safe _ (setitem_ref _ _ _) _ _) =>
  apply safe_setitem_ref; assumption : safe.

Hint Extern 1 (safe _ (setitem_scalar_ref _ _ _) _ _) =>
  apply safe_setitem_scalar_ref; assumption : safe.

Hint Extern 1 (safe _ (store _ _) _ _) =>
  apply safe_store; assumption : safe.

(** One statement after the other. *)
Ltac next :=
  lazymatch goal with
  | |- safe _ (_ ≫= _) _ _ =>
      eapply safe_bind; [solve [eauto with safe] | cbv beta; intros]
  end.

Lemma safe_attach_geometry data df_aux :
  safe base (attach_geometry data df_aux) ok E.
Proof. unfold attach_geometry. repeat next. now apply safe_ret. Qed.

Lemma safe_shuffle_geometry df name :
  safe base (shuffle_geometry env df name) ok E.
Proof.
  unfold shuffle_geometry. repeat next.
  eapply safe_bind with (Q1 := ok).
  - destruct (take_positions _ _); [now apply safe_ret|].
    apply safe_raise. now apply E_lib.
  - intros. now apply safe_ret.
Qed.

Lemma safe_systematic_draws seg_class n data :
  base <= data -> safe base (systematic_draws env seg_class n data) ok E.
Proof.
  intros Hd. unfold systematic_draws. repeat next. now apply safe_ret.
Qed.

Lemma safe_systematic_frame sim0 sim1 i :
  safe base (systematic_frame sim0 sim1 i) ok E.
Proof. unfold systematic_frame. repeat next. eauto with safe. Qed.

Lemma safe_p_null_of seg_class data :
  safe base (p_null_of seg_class data) ok E.
Proof. unfold p_null_of. repeat next. now apply safe_ret. Qed.

Lemma safe_evenness_frame seg_class data p_null :
  safe base (evenness_frame env seg_class data p_null) ok E.
Proof. unfold evenness_frame. repeat next. eauto with safe. Qed.

Hint Resolve safe_attach_geometry safe_shuffle_geometry safe_systematic_frame
  safe_p_null_of safe_evenness_frame : safe.

Hint Extern 1 (safe _ (systematic_draws _ _ _ _) _ _) =>
  apply safe_systematic_draws; assumption : safe.


Hint Extern 2 (safe _ (if ?c then _ else _) _ _) => destruct c : safe.

Hint Extern 1 (safe _ (mret _) _ _) => apply safe_ret; exact I : safe.

(** *** The simulation blocks of the single-sample engine *)

Ltac record_estimate :=
  apply safe_ret; split; cbn [fst snd];
  [assumption | rewrite length_insert; assumption].

Lemma safe_null_systematic seg_class n kw st :
  E not_implemented_error -> locals_ok base n st ->
  safe base (null_systematic env seg_class n kw st) (locals_ok base n) E.
Proof.
  intros HE Hst. unfold null_systematic. destruct (kind seg_class).
  - eapply safe_bind with (Q1 := locals_ok base n);
      [|intros; now apply safe_ret].
    destruct Hst as [Hd Hl].
    eapply safe_bind; [eauto with safe|]. intros [sim0 sim1] _.
    apply safe_for_range; [now split|].
    intros i [data Es] [Hd' Hl']. cbn [fst snd] in *.
    repeat next. record_estimate.
  - eapply safe_bind with (Q1 := locals_ok base n); [now apply safe_ret|].
    intros. now apply safe_raise.
Qed.

Lemma safe_bootstrap_round seg_class n kw args i st :
  locals_ok base n st ->
  safe base (bootstrap_round env seg_class n kw args i st) (locals_ok base n) E.
Proof.
  intros Hst. unfold bootstrap_round. destruct st as [data Es].
  destruct Hst as [Hd Hl]. cbn [fst snd] in *.
  repeat next. record_estimate.
Qed.

Lemma safe_null_bootstrap seg_class n kw st :
  locals_ok base n st ->
  safe base (null_bootstrap env seg_class n kw st) (locals_ok base n) E.
Proof.
  intros Hst. unfold null_bootstrap. destruct (kind seg_class).
  - eapply safe_bind with (Q1 := locals_ok base n);
      [|intros; now apply safe_ret].
    apply safe_for_range; [assumption|].
    intros. now apply safe_bootstrap_round.
  - eapply safe_bind with (Q1 := locals_ok base n); [now apply safe_ret|].
    intros st' Hst'. apply safe_for_range; [assumption|].
    intros. now apply safe_bootstrap_round.
Qed.

Lemma safe_null_evenness seg_class n kw st :
  locals_ok base n st ->
  safe base (null_evenness env seg_class n kw st) (locals_ok base n) E.
Proof.
  intros Hst. unfold null_evenness. destruct (kind seg_class).
  - eapply safe_bind with (Q1 := locals_ok base n);
      [|intros; now apply safe_ret].
    next. apply safe_for_range; [assumption|].
    intros i [data Es] [Hd' Hl']. cbn [fst snd] in *.
    repeat next. record_estimate.
  - eapply safe_bind with (Q1 := locals_ok base n); [now apply safe_ret|].
    intros st' Hst'. repeat next.
    apply safe_for_range; [assumption|].
    intros i [data Es] [Hd' Hl']. cbn [fst snd] in *.
    eapply safe_bind.
    { apply safe_mapM. intros x. next. now apply safe_ret. }
    intros. repeat next. record_estimate.
Qed.

Lemma safe_null_permutation seg_class n kw st :
  E not_implemented_error -> E not_a_geodataframe_error -> locals_ok base n st ->
  safe base (null_permutation env seg_class n kw st) (locals_ok base n) E.
Proof.
  intros HE HG Hst. unfold null_permutation. destruct (kind seg_class).
  - eapply safe_bind with (Q1 := locals_ok base n);
      [|intros; now apply safe_ret].
    next. eapply safe_bind with (Q1 := fun _ => True).
    { destruct (geo _); [now apply safe_ret | now apply safe_raise]. }
    intros _ _. apply safe_for_range; [assumption|].
    intros i [data Es] [Hd' Hl']. cbn [fst snd] in *.
    repeat next. record_estimate.
  - eapply safe_bind with (Q1 := locals_ok base n); [now apply safe_ret|].
    intros. now apply safe_raise.
Qed.

Lemma safe_null_systematic_permutation seg_class n kw st :
  E not_implemented_error -> E not_a_geodataframe_error -> locals_ok base n st ->
  safe base (null_systematic_permutation env seg_class n kw st)
    (locals_ok base n) E.
Proof.
  intros HE HG Hst. unfold null_systematic_permutation.
  destruct (kind seg_class).
  - eapply safe_bind with (Q1 := locals_ok base n);
      [|intros; now apply safe_ret].
    destruct Hst as [Hd Hl].
    next. eapply safe_bind with (Q1 := fun _ => True).
    { destruct (geo _); [now apply safe_ret | now apply safe_raise]. }
    intros _ _.
    eapply safe_bind; [eauto with safe|]. intros [sim0 sim1] _.
    apply safe_for_range; [now split|].
    intros i [data Es] [Hd' Hl']. cbn [fst snd] in *.
    repeat next. record_estimate.
  - eapply safe_bind with (Q1 := locals_ok base n); [now apply safe_ret|].
    intros. now apply safe_raise.
Qed.

Lemma safe_null_even_permutation seg_class n kw st :
  E not_implemented_error -> E not_a_geodataframe_error -> locals_ok base n st ->
  safe base (null_even_permutation env seg_class n kw st) (locals_ok base n) E.
Proof.
  intros HE HG Hst. unfold null_even_permutation. destruct (kind seg_class).
  - eapply safe_bind with (Q1 := locals_ok base n);
      [|intros; now apply safe_ret].
    destruct Hst as [Hd Hl].
    next. eapply safe_bind with (Q1 := fun _ => True).
    { destruct (geo _); [now apply safe_ret | now apply safe_raise]. }
    intros _ _. next.
    apply safe_for_range; [now split|].
    intros i [data Es] [Hd' Hl']. cbn [fst snd] in *.
    repeat next. record_estimate.
  - eapply safe_bind with (Q1 := locals_ok base n); [now apply safe_ret|].
    intros. now apply safe_raise.
Qed.

Lemma safe_only_if cond block n st :
  locals_ok base n st ->
  (cond = true -> safe base (block st) (locals_ok base n) E) ->
  safe base (only_if cond block st) (locals_ok base n) E.
Proof.
  intros Hst Hb. unfold only_if. destruct cond; [now apply Hb|].
  now apply safe_ret.
Qed.

(** *** The simulation blocks of the two-sample engine *)

Ltac record_difference :=
  apply safe_ret; repeat split; cbn [fst snd];
  [assumption | assumption | rewrite length_insert; assumption].

Lemma safe_round_column data c :
  base <= data -> safe base (round_column data c) ok E.
Proof. intros Hd. unfold round_column. repeat next. eauto with safe. Qed.

Lemma safe_round_columns data g t :
  base <= data -> safe base (round_columns data g t) ok E.
Proof. intros Hd. unfold round_columns. repeat next. eauto with safe. Qed.

Lemma safe_restrict_and_rename data g t :
  safe base (restrict_and_rename data g t) (fun r => base <= r) E.
Proof. unfold restrict_and_rename. repeat next. now apply safe_ret. Qed.

Lemma safe_random_label_round seg_class_1 seg_class_2 n kw args stacked i st :
  base <= stacked -> locals2_ok base n st ->
  safe base
    (random_label_round env seg_class_1 seg_class_2 n kw args stacked i st)
    (locals2_ok base n) E.
Proof.
  intros Hs Hst. unfold random_label_round.
  destruct st as [[data_1 data_2] est]. destruct Hst as (H1 & H2 & Hl).
  cbn [fst snd] in *. repeat next. record_difference.
Qed.

Hint Extern 1 (safe _ (round_columns _ _ _) _ _) =>
  apply safe_round_columns; assumption : safe.

Hint Extern 1 (safe _ (round_column _ _) _ _) =>
  apply safe_round_column; assumption : safe.

Hint Resolve safe_restrict_and_rename : safe.

Lemma safe_compare_random_label seg_class_1 seg_class_2 n kw st :
  E (ValueError "MultiGroup groups should be the same") ->
  locals2_ok base n st ->
  safe base (compare_random_label env seg_class_1 seg_class_2 n kw st)
    (locals2_ok base n) E.
Proof.
  intros HE Hst. unfold compare_random_label.
  destruct st as [[data_1 data_2] est]. destruct Hst as (H1 & H2 & Hl).
  cbn [fst snd] in *. repeat next. destruct (kind seg_class_1).
  - eapply safe_bind with (Q1 := locals2_ok base n);
      [|intros; now apply safe_ret].
    repeat next. apply safe_for_range; [now repeat split|].
    intros. now apply safe_random_label_round.
  - eapply safe_bind with (Q1 := locals2_ok base n);
      [now apply safe_ret|].
    intros [[d1 d2] est'] (H1' & H2' & Hl'). cbn [fst snd] in *.
    eapply safe_bind with (Q1 := fun _ => True).
    { apply safe_for_range; [exact I|]. intros i [] _. repeat next.
      eauto with safe. }
    intros _ _.
    eapply safe_bind with (Q1 := fun _ => True).
    { destruct (negb _); [now apply safe_raise | now apply safe_ret]. }
    intros _ _. repeat next.
    apply safe_for_range; [now repeat split|].
    intros. now apply safe_random_label_round.
Qed.

Lemma safe_counterfactual_side seg_class kw data counterfac_df :
  base <= data ->
  safe base (counterfactual_side env seg_class kw data counterfac_df)
    (fun r => base <= r.2) E.
Proof.
  intros Hd. unfold counterfactual_side. repeat next. now apply safe_ret.
Qed.

Lemma safe_compare_counterfactual seg_class_1 seg_class_2 n approach kw st :
  E not_implemented_error -> locals2_ok base n st ->
  safe base
    (compare_counterfactual env seg_class_1 seg_class_2 n approach kw st)
    (locals2_ok base n) E.
Proof.
  intros HE Hst. unfold compare_counterfactual.
  destruct st as [[data_1 data_2] est]. destruct Hst as (H1 & H2 & Hl).
  cbn [fst snd] in *.
  eapply safe_bind with (Q1 := fun _ => True).
  { destruct (kind seg_class_1); [now apply safe_ret | now apply safe_raise]. }
  intros _ _. next. next.
  eapply safe_bind; [eauto with safe|]. intros [cf1 cf2] _.
  eapply safe_bind with (Q1 := fun _ => True).
  { destruct (member _ _); [|now apply safe_ret]. repeat next.
    eauto with safe. }
  intros _ _. apply safe_for_range; [now repeat split|].
  intros i [[d1 d2] est'] (H1' & H2' & Hl'). cbn [fst snd] in *.
  eapply safe_bind; [now apply safe_counterfactual_side|].
  intros [s1 d1'] Hd1. cbn [fst snd] in *.
  eapply safe_bind; [now apply safe_counterfactual_side|].
  intros [s2 d2'] Hd2. cbn [fst snd] in *.
  repeat next. record_difference.
Qed.

Lemma safe_only_if2 cond block n st :
  locals2_ok base n st ->
  (cond = true -> safe base (block st) (locals2_ok base n) E) ->
  safe base (only_if2 cond block st) (locals2_ok base n) E.
Proof.
  intros Hst Hb. unfold only_if2. destruct cond; [now apply Hb|].
  now apply safe_ret.
Qed.

(** *** What the index formulas returned, round by round *)

Lemma returned_app l1 l2 : returned (l1 ++ l2) = returned l1 ++ returned l2.
Proof. unfold returned. apply omap_app. Qed.

Lemma emits_ret {A} (a : A) (R : A -> list fval -> Prop) :
  R a [] -> emits (mret a) R.
Proof.
  intros HR w a' w' H. injection H as <- <-. exists [].
  now rewrite app_nil_r.
Qed.

Lemma emits_raise {A} (e : exn) (R : A -> list fval -> Prop) :
  emits (raise e) R.
Proof. intros w a w' H. discriminate. Qed.

Lemma emits_weaken {A} (m : M A) (R R' : A -> list fval -> Prop) :
  emits m R -> (forall a vs, R a vs -> R' a vs) -> emits m R'.
Proof.
  intros Hm HR w a w' H. destruct (Hm w a w' H) as (vs & Hvs & Hl).
  exists vs. auto.
Qed.

Lemma emits_bind {A B} (m : M A) (k : A -> M B) R1 (R2 : A -> B -> list fval -> Prop)
    (R : B -> list fval -> Prop) :
  emits m R1 -> (forall a, emits (k a) (R2 a)) ->
  (forall a b vs1 vs2, R1 a vs1 -> R2 a b vs2 -> R b (vs1 ++ vs2)) ->
  emits (m ≫= k) R.
Proof.
  intros Hm Hk HR w b w' H. apply bind_inr in H as (a & w1 & H1 & H2).
  destruct (Hm w a w1 H1) as (vs1 & Hv1 & Hl1).
  destruct (Hk a w1 b w' H2) as (vs2 & Hv2 & Hl2).
  exists (vs1 ++ vs2). split; [eauto|].
  rewrite Hl2, Hl1. now rewrite (assoc_L (++)).
Qed.

Lemma emits_after_quiet {A B} (m : M A) (k : A -> M B) R :
  quiet m -> (forall a, emits (k a) R) -> emits (m ≫= k) R.
Proof.
  intros Hm Hk. eapply emits_bind; [exact Hm | exact Hk|].
  intros a b vs1 vs2 -> H. exact H.
Qed.

Lemma quiet_bind {A B} (m : M A) (k : A -> M B) :
  quiet m -> (forall a, quiet (k a)) -> quiet (m ≫= k).
Proof. intros Hm Hk. now apply emits_after_quiet. Qed.

Lemma quiet_ret {A} (a : A) : quiet (mret a).
Proof. now apply emits_ret. Qed.

Lemma quiet_raise {A} (e : exn) : quiet (raise e : M A).
Proof. apply emits_raise. Qed.

Lemma quiet_same_log {A} (m : M A) :
  (forall w a w', m w = (inr a, w') -> log w' = log w) -> quiet m.
Proof.
  intros Hm w a w' H. exists []. rewrite (Hm w a w' H).
  now rewrite app_nil_r.
Qed.

Lemma quiet_lift {A} (r : exn + A) : quiet (lift r).
Proof. apply quiet_same_log. intros w a w' H. now injection H as _ <-. Qed.

Lemma quiet_alloc df : quiet (alloc df).
Proof. apply quiet_same_log. intros w a w' H. now injection H as _ <-. Qed.

Lemma quiet_load r : quiet (load r).
Proof.
  apply quiet_same_log. intros w a w' H. unfold load in H.
  destruct (heap w !! r); [|discriminate]. now injection H as _ <-.
Qed.

Lemma quiet_store r df : quiet (store r df).
Proof. apply quiet_same_log. intros w a w' H. now injection H as _ <-. Qed.

Lemma quiet_draw : quiet draw.
Proof. apply quiet_same_log. intros w a w' H. now injection H as _ <-. Qed.

Lemma quiet_emit ev : returned [ev] = [] -> quiet (emit ev).
Proof.
  intros Hev w a w' H. injection H as _ <-. exists []. cbn [log].
  now rewrite returned_app, Hev.
Qed.

Lemma quiet_for_range {S} n (body : nat -> S -> M S) (s : S) :
  (forall i s', quiet (body i s')) -> quiet (for_range n body s).
Proof.
  intros Hb. induction n as [|n IH]; cbn; [apply quiet_ret|].
  apply quiet_bind; [exact IH | intros; apply Hb].
Qed.

Lemma quiet_mapM {A B} (f : A -> M B) (l : list A) :
  (forall x, quiet (f x)) -> quiet (mapM f l).
Proof.
  intros Hf. induction l as [|x l IH]; cbn; [apply quiet_ret|].
  apply quiet_bind; [apply Hf|]. intros y.
  apply quiet_bind; [exact IH|]. intros ys. apply quiet_ret.
Qed.

Create HintDb quiet.

Hint Resolve quiet_ret quiet_raise quiet_lift quiet_alloc quiet_load
  quiet_store quiet_draw : quiet.

Hint Extern 1 (quiet (emit _)) => apply quiet_emit; reflexivity : quiet.

Hint Extern 2 (quiet (if ?c then _ else _)) => destruct c : quiet.

Hint Extern 2 (quiet (match ?c with Some _ => _ | None => _ end)) =>
  destruct c : quiet.

(** One statement that calls no index formula after the other. *)
Ltac hush :=
  repeat lazymatch goal with
         | |- quiet (_ ≫= _) =>
             apply quiet_bind; [solve [eauto with quiet] | cbv beta; intros]
         end;
  try solve [eauto with quiet].

Lemma quiet_copy r : quiet (copy r).
Proof. unfold copy. hush. Qed.

Lemma quiet_column r c : quiet (column r c).
Proof. unfold column. hush. Qed.

Hint Resolve quiet_copy quiet_column : quiet.

Lemma quiet_numbers r c : quiet (numbers r c).
Proof. unfold numbers. hush. Qed.

Lemma quiet_item {A} (l : list A) i : quiet (item l i).
Proof. unfold item. destruct (l !! i); eauto with quiet. Qed.

Lemma quiet_setitem_ref r c vals : quiet (setitem_ref r c vals).
Proof. unfold setitem_ref. hush. Qed.

Lemma quiet_setitem_scalar_ref r c v : quiet (setitem_scalar_ref r c v).
Proof. unfold setitem_scalar_ref. hush. Qed.

Lemma quiet_report i total : quiet (report i total).
Proof. unfold report. eauto with quiet. Qed.

Lemma quiet_call_generator a b g t second approach :
  quiet (call_generator env a b g t second approach).
Proof.
  unfold call_generator. hush.
  destruct (_generate_counterfactual env a b g t second approach);
    eauto with quiet.
Qed.

Hint Resolve quiet_numbers quiet_item quiet_setitem_ref
  quiet_setitem_scalar_ref quiet_report quiet_call_generator : quiet.

Lemma quiet_attach_geometry data df_aux : quiet (attach_geometry data df_aux).
Proof. unfold attach_geometry. hush. Qed.

Lemma quiet_shuffle_geometry df name : quiet (shuffle_geometry env df name).
Proof. unfold shuffle_geometry. hush. Qed.

Lemma quiet_systematic_draws seg_class n data :
  quiet (systematic_draws env seg_class n data).
Proof. unfold systematic_draws. hush. Qed.

Lemma quiet_systematic_frame sim0 sim1 i : quiet (systematic_frame sim0 sim1 i).
Proof. unfold systematic_frame. hush. Qed.

Lemma quiet_p_null_of seg_class data : quiet (p_null_of seg_class data).
Proof. unfold p_null_of. hush. Qed.

Lemma quiet_evenness_frame seg_class data p_null :
  quiet (evenness_frame env seg_class data p_null).
Proof. unfold evenness_frame. hush. Qed.

Lemma quiet_round_column data c : quiet (round_column data c).
Proof. unfold round_column. hush. Qed.

Lemma quiet_round_columns data g t : quiet (round_columns data g t).
Proof. unfold round_columns. hush. Qed.

Lemma quiet_restrict_and_rename data g t :
  quiet (restrict_and_rename data g t).
Proof. unfold restrict_and_rename. hush. Qed.

Hint Resolve quiet_attach_geometry quiet_shuffle_geometry
  quiet_systematic_draws quiet_systematic_frame quiet_p_null_of
  quiet_evenness_frame quiet_round_column quiet_round_columns
  quiet_restrict_and_rename : quiet.

Lemma emits_call_index f df args kw :
  emits (call_index env f df args kw) (fun v vs => vs = [v]).
Proof.
  intros w v w' H. apply call_index_inr in H as [_ ->]. exists [v].
  split; [reflexivity|]. cbn [log]. now rewrite returned_app.
Qed.

Lemma emits_call_bind {B} f df args kw (k : fval -> M B) R :
  (forall v, emits (k v) (fun b vs => R b (v :: vs))) ->
  emits (call_index env f df args kw ≫= k) R.
Proof.
  intros Hk. eapply emits_bind; [apply emits_call_index | exact Hk|].
  intros v b vs1 vs2 -> H. exact H.
Qed.

(** One statement after the other, up to the end of a round. *)
Ltac listen :=
  repeat lazymatch goal with
         | |- emits (call_index _ _ _ _ _ ≫= _) _ =>
             apply emits_call_bind; cbv beta; intros
         | |- emits (_ ≫= _) _ =>
             apply emits_after_quiet;
             [solve [eauto with quiet] | cbv beta; intros]
         end.

Lemma take_insert_next {A} (l : list A) (k : nat) (v : A) :
  k < length l -> take (S k) (<[k := v]> l) = take k l ++ [v].
Proof.
  intros Hk. rewrite (take_S_r _ _ v) by now apply list_lookup_insert_eq.
  now rewrite take_insert_ge.
Qed.

(** A loop whose round [i] receives one statistic and writes it at
    position [i] of the estimates leaves, after [k] rounds, the [k]
    statistics received in the first [k] positions. *)
Lemma emits_rounds (n : nat) (body : nat -> locals -> M locals) (st0 : locals)
    (k : nat) :
  length st0.2 = n -> k <= n ->
  (forall i st, i < n ->
     emits (body i st)
       (fun st' vs => exists v, vs = [v] /\ st'.2 = <[i := v]> st.2)) ->
  emits (for_range k body st0)
    (fun st' vs => length vs = k /\ length st'.2 = n /\ take k st'.2 = vs).
Proof.
  intros Hlen Hk Hbody. induction k as [|k IH]; cbn [for_range].
  - apply emits_ret. now rewrite take_0.
  - eapply emits_bind; [apply IH; lia | intros st; apply (Hbody k st); lia|].
    cbv beta. intros st st' vs1 vs2 (Hl1 & Hn & Ht) (v & -> & ->).
    repeat split.
    + rewrite length_app. cbn. lia.
    + now rewrite length_insert.
    + rewrite take_insert_next by lia. now rewrite Ht.
Qed.

Lemma emits_all_rounds (n : nat) (body : nat -> locals -> M locals)
    (st0 : locals) :
  length st0.2 = n ->
  (forall i st, i < n ->
     emits (body i st)
       (fun st' vs => exists v, vs = [v] /\ st'.2 = <[i := v]> st.2)) ->
  emits (for_range n body st0) (one_per_round n).
Proof.
  intros Hlen Hbody.
  eapply emits_weaken; [now apply (emits_rounds n body st0 n)|].
  cbv beta. intros st' vs (Hl & Hn & Ht). split; [assumption|].
  rewrite <- Ht. now rewrite take_ge by lia.
Qed.

Lemma pair_differences_app (k : nat) (vs ws : list fval) :
  length vs = 2 * k ->
  pair_differences (vs ++ ws) = pair_differences vs ++ pair_differences ws.
Proof.
  revert vs. induction k as [|k IH]; intros vs Hl.
  - now destruct vs.
  - destruct vs as [|v1 [|v2 vs]]; try (cbn in Hl; lia).
    cbn. rewrite IH; [reflexivity | cbn in Hl; lia].
Qed.

(** The same for a loop whose round receives two statistics and writes
    their difference. *)
Lemma emits_rounds2 (n : nat) (body : nat -> locals2 -> M locals2)
    (st0 : locals2) (k : nat) :
  length st0.2 = n -> k <= n ->
  (forall i st, i < n ->
     emits (body i st)
       (fun st' vs =>
          exists v1 v2, vs = [v1; v2] /\ st'.2 = <[i := fsub v1 v2]> st.2)) ->
  emits (for_range k body st0)
    (fun st' vs =>
       length vs = 2 * k /\ length st'.2 = n /\
       take k st'.2 = pair_differences vs).
Proof.
  intros Hlen Hk Hbody. induction k as [|k IH]; cbn [for_range].
  - apply emits_ret. now rewrite take_0.
  - eapply emits_bind; [apply IH; lia | intros st; apply (Hbody k st); lia|].
    cbv beta. intros st st' vs1 vs2 (Hl1 & Hn & Ht) (v1 & v2 & -> & ->).
    repeat split.
    + rewrite length_app. cbn. lia.
    + now rewrite length_insert.
    + rewrite take_insert_next by lia.
      rewrite (pair_differences_app k) by assumption. now rewrite Ht.
Qed.

Lemma emits_all_rounds2 (n : nat) (body : nat -> locals2 -> M locals2)
    (st0 : locals2) :
  length st0.2 = n ->
  (forall i st, i < n ->
     emits (body i st)
       (fun st' vs =>
          exists v1 v2, vs = [v1; v2] /\ st'.2 = <[i := fsub v1 v2]> st.2)) ->
  emits (for_range n body st0) (two_per_round n).
Proof.
  intros Hlen Hbody.
  eapply emits_weaken; [now apply (emits_rounds2 n body st0 n)|].
  cbv beta. intros st' vs (Hl & Hn & Ht). split; [assumption|].
  rewrite <- Ht. now rewrite take_ge by lia.
Qed.

Lemma emits_then_ret {A} (m : M A) (R : A -> list fval -> Prop) :
  emits m R -> emits (m ≫= fun a => mret a) R.
Proof.
  intros Hm.
  eapply emits_bind with (R2 := fun a b vs => b = a /\ vs = []);
    [exact Hm | intros a; now apply emits_ret|].
  intros a b vs1 vs2 H1 [-> ->]. now rewrite app_nil_r.
Qed.

Lemma emits_not_implemented {A} (R : A -> list fval -> Prop) :
  emits (not_implemented : M A) R.
Proof. apply emits_raise. Qed.

(** The end of a round: the statistic is written at the round's
    position. *)
Ltac round_done :=
  apply emits_ret; cbn [fst snd]; repeat eexists.

(** Each of the six simulation blocks calls the index formula once a
    round and hands over the statistics it received, in the order of the
    rounds. *)
Lemma emits_null_systematic seg_class n kw st :
  length st.2 = n ->
  emits (null_systematic env seg_class n kw st) (one_per_round n).
Proof.
  intros Hl. unfold null_systematic. destruct (kind seg_class).
  - apply emits_then_ret. apply emits_after_quiet; [eauto with quiet|].
    intros [sim0 sim1]. apply emits_all_rounds; [assumption|].
    intros i [data Es] Hi. listen. round_done.
  - apply emits_after_quiet; [eauto with quiet|]. intros.
    apply emits_not_implemented.
Qed.

Lemma emits_bootstrap_round seg_class n kw args i st :
  emits (bootstrap_round env seg_class n kw args i st)
    (fun st' vs => exists v, vs = [v] /\ st'.2 = <[i := v]> st.2).
Proof. destruct st as [data Es]. unfold bootstrap_round. listen. round_done. Qed.

Lemma emits_ret_then {A B} (a : A) (k : A -> M B) R :
  emits (k a) R -> emits (mret a ≫= k) R.
Proof. intros Hk w b w' H. exact (Hk w b w' H). Qed.

Lemma emits_null_bootstrap seg_class n kw st :
  length st.2 = n ->
  emits (null_bootstrap env seg_class n kw st) (one_per_round n).
Proof.
  intros Hl. unfold null_bootstrap. destruct (kind seg_class).
  - apply emits_then_ret. apply emits_all_rounds; [assumption|].
    intros. apply emits_bootstrap_round.
  - apply emits_ret_then. apply emits_all_rounds; [assumption|].
    intros. apply emits_bootstrap_round.
Qed.

Lemma emits_null_evenness seg_class n kw st :
  length st.2 = n ->
  emits (null_evenness env seg_class n kw st) (one_per_round n).
Proof.
  intros Hl. unfold null_evenness. destruct (kind seg_class).
  - apply emits_then_ret. apply emits_after_quiet; [eauto with quiet|].
    intros p_null. apply emits_all_rounds; [assumption|].
    intros i [data Es] Hi. listen. round_done.
  - apply emits_ret_then. listen. apply emits_all_rounds; [assumption|].
    intros i [data Es] Hi.
    apply emits_after_quiet;
      [apply quiet_mapM; intros; hush | cbv beta; intros].
    listen. round_done.
Qed.

Lemma emits_null_permutation seg_class n kw st :
  length st.2 = n ->
  emits (null_permutation env seg_class n kw st) (one_per_round n).
Proof.
  intros Hl. unfold null_permutation. destruct (kind seg_class).
  - apply emits_then_ret. listen. apply emits_all_rounds; [assumption|].
    intros i [data Es] Hi. listen. round_done.
  - apply emits_ret_then. apply emits_not_implemented.
Qed.

Lemma emits_null_systematic_permutation seg_class n kw st :
  length st.2 = n ->
  emits (null_systematic_permutation env seg_class n kw st) (one_per_round n).
Proof.
  intros Hl. unfold null_systematic_permutation. destruct (kind seg_class).
  - apply emits_then_ret. listen. destruct a1 as [sim0 sim1].
    apply emits_all_rounds; [assumption|].
    intros i [data Es] Hi. listen. round_done.
  - apply emits_ret_then. apply emits_not_implemented.
Qed.

Lemma emits_null_even_permutation seg_class n kw st :
  length st.2 = n ->
  emits (null_even_permutation env seg_class n kw st) (one_per_round n).
Proof.
  intros Hl. unfold null_even_permutation. destruct (kind seg_class).
  - apply emits_then_ret. listen. apply emits_all_rounds; [assumption|].
    intros i [data Es] Hi. listen. round_done.
  - apply emits_ret_then. apply emits_not_implemented.
Qed.

(** The two blocks of the two-sample engine call the index formula twice
    a round and hand over the differences. *)
Lemma emits_random_label_round seg_class_1 seg_class_2 n kw args stacked i st :
  emits (random_label_round env seg_class_1 seg_class_2 n kw args stacked i st)
    (fun st' vs =>
       exists v1 v2, vs = [v1; v2] /\ st'.2 = <[i := fsub v1 v2]> st.2).
Proof.
  destruct st as [[data_1 data_2] est]. unfold random_label_round.
  listen. round_done.
Qed.

Lemma emits_compare_random_label seg_class_1 seg_class_2 n kw st :
  length st.2 = n ->
  emits (compare_random_label env seg_class_1 seg_class_2 n kw st)
    (two_per_round n).
Proof.
  destruct st as [[data_1 data_2] est]. cbn [snd]. intros Hl.
  unfold compare_random_label. listen. destruct (kind seg_class_1).
  - apply emits_then_ret. listen. apply emits_all_rounds2; [assumption|].
    intros. apply emits_random_label_round.
  - apply emits_ret_then.
    apply emits_after_quiet; [apply quiet_for_range; intros; hush|].
    intros _. listen. apply emits_all_rounds2; [assumption|].
    intros. apply emits_random_label_round.
Qed.

Lemma emits_counterfactual_side seg_class kw data counterfac_df :
  emits (counterfactual_side env seg_class kw data counterfac_df)
    (fun r vs => vs = [r.1]).
Proof. unfold counterfactual_side. listen. now apply emits_ret. Qed.

Lemma emits_side_bind {B} seg_class kw data counterfac_df
    (k : fval * ref -> M B) R :
  (forall r, emits (k r) (fun b vs => R b (r.1 :: vs))) ->
  emits (counterfactual_side env seg_class kw data counterfac_df ≫= k) R.
Proof.
  intros Hk.
  eapply emits_bind; [apply emits_counterfactual_side | exact Hk|].
  intros r b vs1 vs2 -> H. exact H.
Qed.

Lemma emits_compare_counterfactual seg_class_1 seg_class_2 n approach kw st :
  length st.2 = n ->
  emits (compare_counterfactual env seg_class_1 seg_class_2 n approach kw st)
    (two_per_round n).
Proof.
  destruct st as [[data_1 data_2] est]. cbn [snd]. intros Hl.
  unfold compare_counterfactual. destruct (kind seg_class_1).
  - listen. destruct a2 as [counterfac_df1 counterfac_df2].
    apply emits_after_quiet; [destruct (member _ _); hush|]. intros _.
    apply emits_all_rounds2; [assumption|].
    intros i [[d1 d2] Es] Hi.
    apply emits_side_bind. intros [simulations_1 d1'].
    apply emits_side_bind. intros [simulations_2 d2'].
    listen. round_done.
  - intros w b w' H. discriminate.
Qed.

Lemma quiet_run {A} (m : M A) w a w' :
  quiet m -> m w = (inr a, w') -> returned (log w') = returned (log w).
Proof.
  intros Hm H. destruct (Hm w a w' H) as (vs & -> & ->).
  now rewrite app_nil_r.
Qed.

(** A block that is not entered leaves everything as it is; a block that
    is entered hands over the statistics of its rounds. *)
Lemma only_if_trace cond block n st w st' w' :
  emits (block st) (one_per_round n) ->
  only_if cond block st w = (inr st', w') ->
  if cond then returned (log w') = returned (log w) ++ st'.2
  else st' = st /\ w' = w.
Proof.
  intros Hb H. unfold only_if in H. destruct cond.
  - destruct (Hb w st' w' H) as (vs & [_ ->] & ->). reflexivity.
  - now injection H as <- <-.
Qed.

Lemma only_if2_trace cond block n st w st' w' :
  emits (block st) (two_per_round n) ->
  only_if2 cond block st w = (inr st', w') ->
  if cond
  then exists vs, length vs = 2 * n /\ st'.2 = pair_differences vs /\
                  returned (log w') = returned (log w) ++ vs
  else st' = st /\ w' = w.
Proof.
  intros Hb H. unfold only_if2 in H. destruct cond.
  - destruct (Hb w st' w' H) as (vs & [Hl Hp] & Hr). now exists vs.
  - now injection H as <- <-.
Qed.

(** Evaluates the comparisons of a null approach that is known. *)
Ltac decide_approach :=
  repeat match goal with
         | H : context [String.eqb ?a ?b] |- _ =>
             let v := eval vm_compute in (String.eqb a b) in
             match v with true => idtac | false => idtac end;
             change (String.eqb a b) with v in H
         | H : context [member ?a ?l] |- _ =>
             let v := eval vm_compute in (member a l) in
             match v with true => idtac | false => idtac end;
             change (member a l) with v in H
         end;
  cbv iota in *.

(** *** The null sample and the p-value *)

Lemma filter_keeps_all {A} (f : A -> bool) (l : list A) :
  existsb f l = false -> List.filter (fun x => negb (f x)) l = l.
Proof.
  induction l as [|x l IH]; cbn; [reflexivity|].
  destruct (f x); cbn; [discriminate|]. intros H. now rewrite IH.
Qed.

Lemma remove_nan_inf_run est w :
  remove_nan_inf est w =
  (inr (List.filter (fun x => negb (degenerate x)) est),
   mkWorld (heap w) (draws w)
     (log w ++ if existsb degenerate est then [Warning nan_inf_warning]
               else [])).
Proof.
  unfold remove_nan_inf. destruct (existsb degenerate est) eqn:Hd.
  - reflexivity.
  - rewrite filter_keeps_all by assumption. rewrite app_nil_r.
    now destruct w.
Qed.

Lemma filter_all_finite est :
  Forall (fun x => isfinite x = true)
    (List.filter (fun x => negb (degenerate x)) est).
Proof.
  apply List.Forall_forall. intros x Hx. apply List.filter_In in Hx as [_ Hx].
  exact Hx.
Qed.

Lemma filter_length_le {A} (f : A -> bool) (l : list A) :
  length (List.filter f l) <= length l.
Proof. apply List.filter_length_le. Qed.

Lemma count_le mask : count mask <= length mask.
Proof. unfold count. apply List.filter_length_le. Qed.

Tactic Notation "step" hyp(H) "as" ident(Hm) :=
  rewrite bind_run in H;
  match type of H with
  | (match ?m ?w with _ => _ end) = _ =>
      destruct (m w) as [[?e|?a] ?w] eqn:Hm
  end.

(** From [H : (inl e, w1) = (r, w')]: the run stopped at [w1]. *)
Ltac stopped H := injection H as <- <-.

Lemma member_cases s (l : list string) :
  member s l = true -> In s l.
Proof.
  unfold member. intros H. apply existsb_exists in H as (x & Hx & Heq).
  apply String.eqb_eq in Heq. now subst.
Qed.

Lemma member_systematic approach :
  String.eqb approach "systematic" = true ->
  member approach ["systematic"; "permutation"; "systematic_permutation";
                   "even_permutation"] = true.
Proof. intros H. apply String.eqb_eq in H. now subst. Qed.

Lemma member_permutation approach :
  String.eqb approach "permutation" = true ->
  member approach ["systematic"; "permutation"; "systematic_permutation";
                   "even_permutation"] = true.
Proof. intros H. apply String.eqb_eq in H. now subst. Qed.

Lemma member_systematic_permutation approach :
  String.eqb approach "systematic_permutation" = true ->
  member approach ["systematic"; "permutation"; "systematic_permutation";
                   "even_permutation"] = true.
Proof. intros H. apply String.eqb_eq in H. now subst. Qed.

Lemma member_even_permutation approach :
  String.eqb approach "even_permutation" = true ->
  member approach ["systematic"; "permutation"; "systematic_permutation";
                   "even_permutation"] = true.
Proof. intros H. apply String.eqb_eq in H. now subst. Qed.

Lemma infer_run seg_class n approach two_tailed kw w r w' :
  (member approach ["systematic"; "permutation"; "systematic_permutation";
                    "even_permutation"] = true ->
   E not_implemented_error) ->
  E not_a_geodataframe_error ->
  E (ValueError "null_approach must one of 'systematic', 'bootstrap', 'evenness', 'permutation', 'systematic_permutation', 'even_permutation'") ->
  E (TypeError "two_tailed is not a boolean object") ->
  base <= length (heap w) ->
  _infer_segregation env seg_class n approach two_tailed kw w = (r, w') ->
  base <= length (heap w') /\
  take base (heap w') = take base (heap w) /\
  match r with
  | inl e =>
      E e \/ (e = ZeroDivisionError /\ n = 0 /\ two_tailed = PyBool false)
  | inr res =>
      exists b raw,
        two_tailed = PyBool b /\ length raw = n /\
        res = infer_result seg_class n b raw /\
        warnings (log w') = warnings (log w) ++ new_warnings raw /\
        (b = false -> n <> 0) /\
        returned (log w') = returned (log w) ++ raw
  end.
Proof.
  intros HN HG HV HT Hb H. unfold _infer_segregation in H.
  (* the two guards *)
  rewrite bind_run in H.
  destruct (member approach infer_approaches) eqn:Hmem; cbn [negb] in H;
    [|stopped H; repeat split; auto].
  cbn [mret M_ret] in H. rewrite bind_run in H.
  destruct two_tailed as [b| | |];
    try (stopped H; repeat split; auto; fail).
  cbn [mret M_ret] in H.
  (* the copy *)
  step H as Hs0; pose proof (safe_run _ _ _ _ _ _ _ (safe_copy _) Hb Hs0)
    as [(Hb1 & Hh1 & Hw1) Ho1]; cbn [outcome] in Ho1;
    [stopped H; repeat split; auto|].
  (* the six blocks *)
  assert (Hst0 : locals_ok base n (a, np_empty env n)).
  { split; [assumption|]. cbn [fst snd]. unfold np_empty.
    now rewrite List.length_map, List.length_seq. }
  step H as Hs1;
    pose proof (safe_run _ _ _ _ _ _ _
      (safe_only_if _ _ n _ Hst0
         (fun Hc => safe_null_systematic seg_class n kw _
            (HN (member_systematic _ Hc)) Hst0)) Hb1 Hs1)
      as [(Hb2 & Hh2 & Hw2) Ho2]; cbn [outcome] in Ho2;
    [stopped H; repeat split; auto; congruence|].
  step H as Hs2;
    pose proof (safe_run _ _ _ _ _ _ _
      (safe_only_if _ _ n _ Ho2
         (fun Hc => safe_null_bootstrap seg_class n kw _ Ho2)) Hb2 Hs2)
      as [(Hb3 & Hh3 & Hw3) Ho3]; cbn [outcome] in Ho3;
    [stopped H; repeat split; auto; congruence|].
  step H as Hs3;
    pose proof (safe_run _ _ _ _ _ _ _
      (safe_only_if _ _ n _ Ho3
         (fun Hc => safe_null_evenness seg_class n kw _ Ho3)) Hb3 Hs3)
      as [(Hb4 & Hh4 & Hw4) Ho4]; cbn [outcome] in Ho4;
    [stopped H; repeat split; auto; congruence|].
  step H as Hs4;
    pose proof (safe_run _ _ _ _ _ _ _
      (safe_only_if _ _ n _ Ho4
         (fun Hc => safe_null_permutation seg_class n kw _
            (HN (member_permutation _ Hc)) HG Ho4)) Hb4 Hs4)
      as [(Hb5 & Hh5 & Hw5) Ho5]; cbn [outcome] in Ho5;
    [stopped H; repeat split; auto; congruence|].
  step H as Hs5;
    pose proof (safe_run _ _ _ _ _ _ _
      (safe_only_if _ _ n _ Ho5
         (fun Hc => safe_null_systematic_permutation seg_class n kw _
            (HN (member_systematic_permutation _ Hc)) HG Ho5)) Hb5 Hs5)
      as [(Hb6 & Hh6 & Hw6) Ho6]; cbn [outcome] in Ho6;
    [stopped H; repeat split; auto; congruence|].
  step H as Hs6;
    pose proof (safe_run _ _ _ _ _ _ _
      (safe_only_if _ _ n _ Ho6
         (fun Hc => safe_null_even_permutation seg_class n kw _
            (HN (member_even_permutation _ Hc)) HG Ho6)) Hb6 Hs6)
      as [(Hb7 & Hh7 & Hw7) Ho7]; cbn [outcome] in Ho7;
    [stopped H; repeat split; auto; congruence|].
  (* the null sample and the p-value *)
  rewrite bind_run, remove_nan_inf_run in H.
  assert (Htrace : returned (log w6) = returned (log w) ++ a5.2).
  { pose proof (quiet_run _ _ _ _ (quiet_copy _) Hs0) as T0.
    pose proof (only_if_trace _ _ n _ _ _ _
      (emits_null_systematic seg_class n kw _ (proj2 Hst0)) Hs1) as T1.
    pose proof (only_if_trace _ _ n _ _ _ _
      (emits_null_bootstrap seg_class n kw _ (proj2 Ho2)) Hs2) as T2.
    pose proof (only_if_trace _ _ n _ _ _ _
      (emits_null_evenness seg_class n kw _ (proj2 Ho3)) Hs3) as T3.
    pose proof (only_if_trace _ _ n _ _ _ _
      (emits_null_permutation seg_class n kw _ (proj2 Ho4)) Hs4) as T4.
    pose proof (only_if_trace _ _ n _ _ _ _
      (emits_null_systematic_permutation seg_class n kw _ (proj2 Ho5)) Hs5)
      as T5.
    pose proof (only_if_trace _ _ n _ _ _ _
      (emits_null_even_permutation seg_class n kw _ (proj2 Ho6)) Hs6) as T6.
    clear - T0 T1 T2 T3 T4 T5 T6 Hmem.
    apply member_cases in Hmem.
    destruct Hmem as [<-|[<-|[<-|[<-|[<-|[<-|[]]]]]]]; decide_approach;
      repeat match goal with H : _ /\ _ |- _ => destruct H end;
      subst; congruence. }
  assert (Hret : returned
            (log w6 ++ (if existsb degenerate a5.2
                        then [Warning nan_inf_warning] else []))
          = returned (log w) ++ a5.2).
  { rewrite returned_app, Htrace.
    destruct (existsb degenerate a5.2); cbn; now rewrite app_nil_r. }
  destruct Ho7 as [_ Hlen].
  assert (Hh : take base (heap w6) = take base (heap w)) by congruence.
  assert (Hw : warnings (log w6) = warnings (log w)) by congruence.
  assert (Hnew : warnings
            (log w6 ++ (if existsb degenerate a5.2
                        then [Warning nan_inf_warning] else []))
          = warnings (log w) ++ new_warnings a5.2).
  { rewrite warnings_app, Hw. unfold new_warnings.
    now destruct (existsb degenerate a5.2). }
  rewrite bind_run in H. destruct b; cbn [negb] in H.
  - cbn [mret M_ret] in H. stopped H. cbn [heap log].
    repeat split; [assumption..|].
    exists true, a5.2. now repeat split.
  - unfold builtin_sum_div in H.
    destruct (map _ _) as [|m0 mask] eqn:Hmask.
    + destruct n as [|n'].
      * stopped H. cbn [heap log]. repeat split; auto.
      * cbn [mret M_ret] in H. stopped H. cbn [heap log].
        repeat split; [assumption..|].
        exists false, a5.2.
        repeat split; [assumption| |assumption|lia|assumption].
        unfold infer_result. now rewrite Hmask.
    + cbn [mret M_ret] in H. stopped H. cbn [heap log].
      repeat split; [assumption..|].
      exists false, a5.2. repeat split; [assumption| |assumption| |assumption].
      * unfold infer_result. now rewrite Hmask.
      * intros _ ->. destruct a5.2; [discriminate Hmask | discriminate Hlen].
Qed.

Lemma compare_run seg_class_1 seg_class_2 n approach kw w r w' :
  (member approach counterfactual_approaches = true ->
   E not_implemented_error) ->
  E (ValueError "MultiGroup groups should be the same") ->
  E (ValueError "null_approach must one of 'random_label', 'counterfactual_composition', 'counterfactual_share', 'counterfactual_dual_composition'") ->
  E (TypeError "seg_class_1 and seg_class_2 must be the same type/class.") ->
  base <= length (heap w) ->
  _compare_segregation env seg_class_1 seg_class_2 n approach kw w = (r, w') ->
  base <= length (heap w') /\
  take base (heap w') = take base (heap w) /\
  match r with
  | inl e => E e
  | inr res =>
      exists raw vs,
        length raw = n /\
        res = compare_result seg_class_1 seg_class_2 raw /\
        warnings (log w') = warnings (log w) ++ new_warnings raw /\
        length vs = 2 * n /\ raw = pair_differences vs /\
        returned (log w') = returned (log w) ++ vs
  end.
Proof.
  intros HN HM HV HT Hb H. unfold _compare_segregation in H.
  (* the two guards *)
  rewrite bind_run in H.
  destruct (member approach compare_approaches) eqn:Hmem; cbn [negb] in H;
    [|stopped H; repeat split; auto].
  cbn [mret M_ret] in H. rewrite bind_run in H.
  destruct (String.eqb (class_name seg_class_1) (class_name seg_class_2));
    cbn [negb] in H; [|stopped H; repeat split; auto].
  cbn [mret M_ret] in H.
  (* the copies *)
  step H as Hs1;
    pose proof (safe_run _ _ _ _ _ _ _ (safe_copy _) Hb Hs1)
    as [(Hb1 & Hh1 & Hw1) Ho1]; cbn [outcome] in Ho1;
    [stopped H; repeat split; auto|].
  step H as Hs2;
    pose proof (safe_run _ _ _ _ _ _ _ (safe_copy _) Hb1 Hs2)
    as [(Hb2 & Hh2 & Hw2) Ho2]; cbn [outcome] in Ho2;
    [stopped H; repeat split; auto; congruence|].
  (* the two blocks *)
  assert (Hst0 : locals2_ok base n (a, a0, np_empty env n)).
  { repeat split; [assumption..|]. cbn [fst snd]. unfold np_empty.
    now rewrite List.length_map, List.length_seq. }
  step H as Hs3;
    pose proof (safe_run _ _ _ _ _ _ _
      (safe_only_if2 _ _ n _ Hst0
         (fun Hc => safe_compare_random_label seg_class_1 seg_class_2 n kw _
            HM Hst0)) Hb2 Hs3)
      as [(Hb3 & Hh3 & Hw3) Ho3]; cbn [outcome] in Ho3;
    [stopped H; repeat split; auto; congruence|].
  step H as Hs4;
    pose proof (safe_run _ _ _ _ _ _ _
      (safe_only_if2 _ _ n _ Ho3
         (fun Hc => safe_compare_counterfactual seg_class_1 seg_class_2 n
            approach kw _ (HN Hc) Ho3)) Hb3 Hs4)
      as [(Hb4 & Hh4 & Hw4) Ho4]; cbn [outcome] in Ho4;
    [stopped H; repeat split; auto; congruence|].
  (* the null sample and the p-value *)
  rewrite bind_run, remove_nan_inf_run in H.
  assert (Htrace : exists vs,
            length vs = 2 * n /\ a2.2 = pair_differences vs /\
            returned (log w3) = returned (log w) ++ vs).
  { pose proof (quiet_run _ _ _ _ (quiet_copy _) Hs1) as T1.
    pose proof (quiet_run _ _ _ _ (quiet_copy _) Hs2) as T2.
    pose proof (only_if2_trace _ _ n _ _ _ _
      (emits_compare_random_label seg_class_1 seg_class_2 n kw _
         (proj2 (proj2 Hst0))) Hs3) as T3.
    pose proof (only_if2_trace _ _ n _ _ _ _
      (emits_compare_counterfactual seg_class_1 seg_class_2 n approach kw _
         (proj2 (proj2 Ho3))) Hs4) as T4.
    clear - T1 T2 T3 T4 Hmem.
    apply member_cases in Hmem. unfold counterfactual_approaches in T4.
    destruct Hmem as [<-|[<-|[<-|[<-|[]]]]]; decide_approach;
      repeat match goal with
             | H : _ /\ _ |- _ => destruct H
             | H : exists _, _ |- _ => destruct H
             end;
      subst; eexists; repeat split; eauto; congruence. }
  destruct Htrace as (vs & Hvs & Hpairs & Hret).
  destruct Ho4 as (_ & _ & Hlen).
  cbn [mret M_ret] in H. stopped H. cbn [heap log].
  repeat split; [assumption|congruence|].
  exists a2.2, vs. repeat split; try assumption.
  - rewrite warnings_app. unfold new_warnings.
    replace (warnings (log w3)) with (warnings (log w)) by congruence.
    now destruct (existsb degenerate a2.2).
  - rewrite returned_app, Hret.
    destruct (existsb degenerate a2.2); cbn; now rewrite app_nil_r.
Qed.

Lemma safe_decompose index1 index2 approach :
  E (AssertionError "Segregation indices must be of the same type") ->
  safe base (_decompose_segregation env index1 index2 approach) ok E.
Proof.
  intros HA. unfold _decompose_segregation. next. next.
  eapply safe_bind with (Q1 := fun _ => True).
  { unfold assert. destruct (String.eqb _ _);
      [now apply safe_ret | now apply safe_raise]. }
  intros _ _. next. next.
  eapply safe_bind; [eauto with safe|]. intros [cf1 cf2] _.
  repeat next. now apply safe_ret.
Qed.

End Steps.

(** ** Forward runs of the first statements *)

Lemma copy_run r df w :
  heap w !! r = Some df ->
  copy r w = (inr (length (heap w)),
              mkWorld (heap w ++ [df]) (draws w) (log w)).
Proof.
  intros H. unfold copy, load, alloc. rewrite bind_run. now rewrite H.
Qed.

Lemma unchanged_prefix (h h' : list DataFrame) :
  take (length h) h' = take (length h) h ->
  forall r df, h !! r = Some df -> h' !! r = Some df.
Proof.
  intros Ht r df Hr. apply lookup_lt_Some in Hr as Hlt.
  rewrite <- (lookup_take_lt h' (length h) r) by assumption.
  rewrite Ht. now rewrite lookup_take_lt.
Qed.

Lemma anything_lib e : own_raise e = false -> anything e.
Proof. intros _. exact I. Qed.

(** C8.  No engine mutates a frame of its caller: after any run of the
    single-sample engine, of the two-sample engine or of the decomposition,
    whether it returns or raises, every frame that was in the heap before
    the call (the data of the index objects among them) is still there,
    cell for cell.  The engines write only to the copies they allocate. *)
Theorem caller_frames_unchanged env w r df :
  heap w !! r = Some df ->
  (forall seg_class n approach two_tailed kw,
     heap (_infer_segregation env seg_class n approach two_tailed kw w).2 !! r
     = Some df) /\
  (forall seg_class_1 seg_class_2 n approach kw,
     heap (_compare_segregation env seg_class_1 seg_class_2 n approach kw w).2
       !! r = Some df) /\
  (forall index1 index2 approach,
     heap (_decompose_segregation env index1 index2 approach w).2 !! r
     = Some df).
Proof.
  intros Hr. repeat split; intros.
  - destruct (_infer_segregation env seg_class n approach two_tailed kw w)
      as [res w'] eqn:Hrun.
    apply (infer_run env (length (heap w)) anything anything_lib) in Hrun
      as (_ & Hh & _); try exact I; [|intros; exact I|lia].
    cbn [snd]. now apply (unchanged_prefix (heap w)).
  - destruct (_compare_segregation env seg_class_1 seg_class_2 n approach kw w)
      as [res w'] eqn:Hrun.
    apply (compare_run env (length (heap w)) anything anything_lib) in Hrun
      as (_ & Hh & _); try exact I; [|intros; exact I|lia].
    cbn [snd]. now apply (unchanged_prefix (heap w)).
  - pose proof (safe_decompose env (length (heap w)) anything anything_lib
                  index1 index2 approach I w (Nat.le_refl _))
      as [(_ & Hh & _) _].
    now apply (unchanged_prefix (heap w)).
Qed.

Lemma caller_frames_unchanged_witness :
  heap (_infer_segregation Sample.env Sample.index_a 3 "systematic"
          (PyBool true) [] Sample.world).2 !! 0 = Some Sample.city_a /\
  heap (_compare_segregation Sample.env Sample.index_a Sample.index_b 3
          "counterfactual_share" [] Sample.world).2 !! 0
  = Some Sample.city_a /\
  heap (_decompose_segregation Sample.env Sample.index_a Sample.index_b
          "composition" Sample.world).2 !! 0 = Some Sample.city_a.
Proof.
  destruct (caller_frames_unchanged Sample.env Sample.world 0 Sample.city_a
              eq_refl) as (H1 & H2 & H3).
  split; [apply H1|]. split; [apply H2 | apply H3].
Defined.

(** The "systematic" approach adds a column to the copy it made (the
    eleventh object of the heap), not to the frame of its caller. *)
Example systematic_writes_to_its_copy :
  let w' :=
    (_infer_segregation Sample.env Sample.index_a 1 "systematic"
       (PyBool true) [] Sample.world).2 in
  (column_names <$> heap w' !! 10)
  = Some ["group_pop_var"; "total_pop_var"; "other_group_pop"] /\
  (column_names <$> heap w' !! 0) = Some ["group_pop_var"; "total_pop_var"].
Proof. split; vm_compute; reflexivity. Qed.

(** ** The p-value *)

Lemma infer_inr env seg_class n approach two_tailed kw w res w' :
  _infer_segregation env seg_class n approach two_tailed kw w = (inr res, w') ->
  exists b raw,
    two_tailed = PyBool b /\ length raw = n /\
    res = infer_result seg_class n b raw /\
    warnings (log w') = warnings (log w) ++ new_warnings raw /\
    (b = false -> n <> 0) /\
    returned (log w') = returned (log w) ++ raw.
Proof.
  intros H.
  apply (infer_run env 0 anything anything_lib) in H as (_ & _ & H);
    try exact I; [assumption|intros; exact I|lia].
Qed.

Lemma compare_inr env seg_class_1 seg_class_2 n approach kw w res w' :
  _compare_segregation env seg_class_1 seg_class_2 n approach kw w
  = (inr res, w') ->
  exists raw vs,
    length raw = n /\
    res = compare_result seg_class_1 seg_class_2 raw /\
    warnings (log w') = warnings (log w) ++ new_warnings raw /\
    length vs = 2 * n /\ raw = pair_differences vs /\
    returned (log w') = returned (log w) ++ vs.
Proof.
  intros H.
  apply (compare_run env 0 anything anything_lib) in H as (_ & _ & H);
    try exact I; [assumption|intros; exact I|lia].
Qed.




Lemma fdiv_of_nat_unit (a b : nat) :
  a <= b -> b <> 0 ->
  exists q, fdiv (of_nat a) (of_nat b) = Fin q /\ (0 <= q)%Q /\ (q <= 1)%Q.
Proof.
  intros Hab Hb. unfold fdiv, of_nat, of_Z.
  assert (Hpos : (0 < Z.of_nat b # 1)%Q) by (unfold Qlt; cbn; lia).
  assert (Hnz : Qeq_bool (Z.of_nat b # 1) 0 = false).
  { destruct (Qeq_bool (Z.of_nat b # 1) 0) eqn:Heq; [|reflexivity].
    apply Qeq_bool_eq in Heq. rewrite Heq in Hpos.
    now apply Qlt_irrefl in Hpos. }
  rewrite Hnz. eexists. split; [reflexivity|].
  rewrite Qred_correct. split.
  - apply Qle_shift_div_l; [assumption|]. unfold Qle; cbn; lia.
  - apply Qle_shift_div_r; [assumption|]. unfold Qle; cbn; lia.
Qed.

Lemma fltb_asym x y : fltb x y && fltb y x = false.
Proof.
  destruct x as [a| | |], y as [b| | |]; try reflexivity. cbn.
  rewrite <- (Qcompare_antisym a b). now destruct (a ?= b)%Q.
Qed.

Lemma count_cons b mask :
  count (b :: mask) = (if b then 1 else 0) + count mask.
Proof. unfold count. cbn. now destruct b. Qed.

Lemma count_exclusive {A} (f g : A -> bool) (l : list A) :
  (forall x, f x && g x = false) ->
  count (map f l) + count (map g l) <= length l.
Proof.
  intros Hfg. induction l as [|x l IH]; [cbn; lia|].
  cbn [map length]. rewrite !count_cons. specialize (Hfg x).
  destruct (f x), (g x); cbn in *; try discriminate; lia.
Qed.

Lemma two_tailed_unit est pe :
  est <> [] ->
  exists q, two_tailed_p_value est pe = Fin q /\ (0 <= q)%Q /\ (q <= 1)%Q.
Proof.
  intros Hne. unfold two_tailed_p_value. apply fdiv_of_nat_unit.
  - pose proof (count_exclusive (fun e => fltb pe e) (fun e => fgtb pe e) est
                  (fun x => fltb_asym pe x)). lia.
  - destruct est; [contradiction | cbn; lia].
Qed.

Lemma one_tailed_unit raw pe :
  List.filter (fun x => negb (degenerate x)) raw <> [] ->
  let est := List.filter (fun x => negb (degenerate x)) raw in
  exists q,
    fdiv (of_nat (count (map (fun e => fgtb e pe) est))) (of_nat (length raw))
    = Fin q /\ (0 <= q)%Q /\ (q <= 1)%Q.
Proof.
  intros Hne est. apply fdiv_of_nat_unit.
  - pose proof (count_le (map (fun e => fgtb e pe) est)) as Hc.
    rewrite List.length_map in Hc.
    pose proof (filter_length_le (fun x => negb (degenerate x)) raw).
    subst est. lia.
  - destruct raw; [contradiction | cbn; lia].
Qed.

(** C5.  Whenever an inference engine returns with a non-empty null sample
    (whatever the null approach and the tail), the p-value is a number
    between 0 and 1. *)
Theorem p_value_in_unit_interval env :
  (forall seg_class n approach two_tailed kw w res w',
     _infer_segregation env seg_class n approach two_tailed kw w
     = (inr res, w') ->
     est_sim res <> [] ->
     exists q, p_value res = Fin q /\ (0 <= q)%Q /\ (q <= 1)%Q) /\
  (forall seg_class_1 seg_class_2 n approach kw w res w',
     _compare_segregation env seg_class_1 seg_class_2 n approach kw w
     = (inr res, w') ->
     est_sim res <> [] ->
     exists q, p_value res = Fin q /\ (0 <= q)%Q /\ (q <= 1)%Q).
Proof.
  split.
  - intros * H Hne. apply infer_inr in H as (b & raw & -> & Hlen & -> & _ & _).
    cbn [est_sim p_value infer_result] in *. destruct b.
    + now apply two_tailed_unit.
    + subst n. now apply one_tailed_unit.
  - intros * H Hne. apply compare_inr in H as (raw & vs & Hlen & -> & _).
    cbn [est_sim p_value compare_result] in *. now apply two_tailed_unit.
Qed.

Lemma p_value_in_unit_interval_witness :
  (exists res w',
     _infer_segregation Sample.env Sample.index_a 3 "bootstrap" (PyBool false)
       [] Sample.world = (inr res, w') /\
     exists q, p_value res = Fin q /\ (0 <= q)%Q /\ (q <= 1)%Q) /\
  (exists res w',
     _compare_segregation Sample.env Sample.index_a Sample.index_b 3
       "counterfactual_composition" [] Sample.world = (inr res, w') /\
     exists q, p_value res = Fin q /\ (0 <= q)%Q /\ (q <= 1)%Q).
Proof.
  split.
  - eexists. eexists. split; [vm_compute; reflexivity|].
    eapply (proj1 (p_value_in_unit_interval Sample.env) Sample.index_a 3
              "bootstrap" (PyBool false) [] Sample.world);
      [vm_compute; reflexivity | discriminate].
  - eexists. eexists. split; [vm_compute; reflexivity|].
    eapply (proj2 (p_value_in_unit_interval Sample.env) Sample.index_a
              Sample.index_b 3 "counterfactual_composition" [] Sample.world);
      [vm_compute; reflexivity | discriminate].
Defined.

(** ** Degenerate rounds *)





(** ** Rejections *)

(** C6.  Two index results with different index functions are rejected by
    the decomposition, and two index results of different classes by the
    two-sample engine, before any random draw and before any call of the
    generator or of an index function: the decomposition fails on its
    assertion having only copied the two frames; the two-sample engine
    fails on its entry guards (the type check, preceded by the check of the
    null approach) and leaves the world as it was. *)
Theorem mismatch_rejected_before_any_draw env index1 index2 frame1 frame2 w :
  heap w !! data index1 = Some frame1 ->
  heap w !! data index2 = Some frame2 ->
  (_function index1 <> _function index2 ->
   forall approach,
     _decompose_segregation env index1 index2 approach w
     = (inl (AssertionError "Segregation indices must be of the same type"),
        mkWorld (heap w ++ [frame1; frame2]) (draws w) (log w))) /\
  (class_name index1 <> class_name index2 ->
   forall n approach kw,
     _compare_segregation env index1 index2 n approach kw w
     = (inl (if member approach compare_approaches
             then TypeError
                    "seg_class_1 and seg_class_2 must be the same type/class."
             else ValueError
                    "null_approach must one of 'random_label', 'counterfactual_composition', 'counterfactual_share', 'counterfactual_dual_composition'"),
        w)).
Proof.
  intros Hf1 Hf2. split.
  - intros Hneq approach. unfold _decompose_segregation, core_data.
    rewrite bind_run, (copy_run _ _ _ Hf1).
    rewrite bind_run, (copy_run _ frame2)
      by (cbn [heap]; now apply lookup_app_l_Some).
    cbn [heap draws log]. rewrite bind_run.
    apply String.eqb_neq in Hneq. rewrite Hneq. cbn.
    now rewrite <- (assoc_L (++)).
  - intros Hneq n approach kw. unfold _compare_segregation.
    rewrite bind_run.
    destruct (member approach compare_approaches); cbn; [|reflexivity].
    apply String.eqb_neq in Hneq. now rewrite Hneq.
Qed.

Lemma mismatch_rejected_before_any_draw_witness :
  let gini :=
    mkIndex "segregation.singlegroup.gini.Gini" SingleGroupIndex
      (Fin (1 # 3)) 1 "group_pop_var" "total_pop_var" [] "_gini_seg" in
  _decompose_segregation Sample.env Sample.index_a gini "composition"
    Sample.world
  = (inl (AssertionError "Segregation indices must be of the same type"),
     mkWorld (heap Sample.world ++ [Sample.city_a; Sample.city_b]) 0 []) /\
  _compare_segregation Sample.env Sample.index_a gini 500 "random_label" []
    Sample.world
  = (inl (TypeError "seg_class_1 and seg_class_2 must be the same type/class."),
     Sample.world).
Proof.
  intros gini.
  destruct (mismatch_rejected_before_any_draw Sample.env Sample.index_a gini
              Sample.city_a Sample.city_b Sample.world eq_refl eq_refl)
    as [Hd Hc].
  split.
  - apply Hd. discriminate.
  - apply (Hc ltac:(discriminate) 500 "random_label"%string []).
Defined.

Lemma not_not_implemented_lib e :
  own_raise e = false -> not_not_implemented e.
Proof. intros H ->. discriminate. Qed.

(** Run the guards and the blocks that are not entered. *)
Ltac skip_blocks :=
  repeat (rewrite bind_run; simpl (String.eqb _ _); simpl (member _ _);
          unfold only_if at 1; unfold only_if2 at 1;
          cbn [mret M_ret negb]).

(** C7.  For a multigroup index result the single-sample engine raises its
    not-implemented error under "systematic", "permutation",
    "systematic_permutation" and "even_permutation", and the two-sample
    engine under the three counterfactual approaches, in both cases right
    after copying the data and before any draw; under "bootstrap" and
    "evenness", and under "random_label" in the two-sample engine, that
    error is never the outcome. *)
Theorem multigroup_support env seg_class frame w :
  kind seg_class = MultiGroupIndex ->
  heap w !! data seg_class = Some frame ->
  (forall n approach b kw,
     member approach ["systematic"; "permutation"; "systematic_permutation";
                      "even_permutation"] = true ->
     _infer_segregation env seg_class n approach (PyBool b) kw w
     = (inl (ValueError "Not implemented for MultiGroup indexes."),
        mkWorld (heap w ++ [frame]) (draws w) (log w))) /\
  (forall seg_class_2 frame2 n approach kw,
     class_name seg_class = class_name seg_class_2 ->
     heap w !! data seg_class_2 = Some frame2 ->
     member approach counterfactual_approaches = true ->
     _compare_segregation env seg_class seg_class_2 n approach kw w
     = (inl (ValueError "Not implemented for MultiGroup indexes."),
        mkWorld (heap w ++ [frame; frame2]) (draws w) (log w))) /\
  (forall n approach two_tailed kw,
     member approach ["bootstrap"; "evenness"] = true ->
     (_infer_segregation env seg_class n approach two_tailed kw w).1
     <> inl (ValueError "Not implemented for MultiGroup indexes.")) /\
  (forall seg_class_2 n kw,
     (_compare_segregation env seg_class seg_class_2 n "random_label" kw w).1
     <> inl (ValueError "Not implemented for MultiGroup indexes.")).
Proof.
  intros Hk Hf. repeat split.
  - intros n approach b kw Hm. apply member_cases in Hm.
    unfold _infer_segregation.
    destruct Hm as [<-|[<-|[<-|[<-|[]]]]];
      rewrite bind_run; simpl (negb (member _ _)); cbn [mret M_ret];
      rewrite bind_run; cbn [mret M_ret];
      rewrite bind_run, (copy_run _ _ _ Hf);
      skip_blocks.
    + unfold null_systematic. rewrite Hk, bind_run. reflexivity.
    + unfold null_permutation. rewrite Hk, bind_run. reflexivity.
    + unfold null_systematic_permutation. rewrite Hk, bind_run. reflexivity.
    + unfold null_even_permutation. rewrite Hk, bind_run. reflexivity.
  - intros seg_class_2 frame2 n approach kw Hc Hf2 Hm.
    apply member_cases in Hm. unfold _compare_segregation.
    rewrite <- Hc, String.eqb_refl.
    destruct Hm as [<-|[<-|[<-|[]]]];
      rewrite bind_run; simpl (negb (member _ _)); cbn [mret M_ret negb];
      rewrite bind_run; cbn [mret M_ret];
      rewrite bind_run, (copy_run _ _ _ Hf);
      rewrite bind_run, (copy_run _ frame2)
        by (cbn [heap]; now apply lookup_app_l_Some);
      cbn [heap draws log]; skip_blocks;
      unfold compare_counterfactual; rewrite Hk, bind_run;
      cbn [heap draws log]; now rewrite <- (assoc_L (++)).
  - intros n approach two_tailed kw Hm.
    destruct (_infer_segregation env seg_class n approach two_tailed kw w)
      as [r w'] eqn:Hrun.
    apply (infer_run env 0 not_not_implemented not_not_implemented_lib)
      in Hrun as (_ & _ & Hr); try discriminate; [| |lia].
    + cbn [fst]. destruct r as [e|res]; [|discriminate].
      destruct Hr as [He|(-> & _)]; [|discriminate].
      intros [= ->]. now apply He.
    + apply member_cases in Hm. destruct Hm as [<-|[<-|[]]]; discriminate.
  - intros seg_class_2 n kw.
    destruct (_compare_segregation env seg_class seg_class_2 n "random_label"
                kw w) as [r w'] eqn:Hrun.
    apply (compare_run env 0 not_not_implemented not_not_implemented_lib)
      in Hrun as (_ & _ & Hr); try discriminate; [|lia].
    cbn [fst]. destruct r as [e|res]; [|discriminate].
    intros [= ->]. now apply Hr.
Qed.

Lemma multigroup_support_witness :
  (_infer_segregation Sample.env Sample.districts_index 500 "permutation"
     (PyBool true) [] Sample.world).1
  = inl (ValueError "Not implemented for MultiGroup indexes.") /\
  (_compare_segregation Sample.env Sample.districts_index
     Sample.districts_index 500 "counterfactual_share" [] Sample.world).1
  = inl (ValueError "Not implemented for MultiGroup indexes.") /\
  (_infer_segregation Sample.env Sample.districts_index 2 "evenness"
     (PyBool true) [] Sample.world).1
  <> inl (ValueError "Not implemented for MultiGroup indexes.") /\
  (_compare_segregation Sample.env Sample.districts_index
     Sample.districts_index 2 "random_label" [] Sample.world).1
  <> inl (ValueError "Not implemented for MultiGroup indexes.").
Proof.
  destruct (multigroup_support Sample.env Sample.districts_index
              Sample.districts Sample.world eq_refl eq_refl)
    as (H1 & H2 & H3 & H4).
  split; [|split; [|split]].
  - exact (f_equal fst (H1 500 "permutation"%string true [] eq_refl)).
  - exact (f_equal fst
             (H2 Sample.districts_index Sample.districts 500
                "counterfactual_share"%string [] eq_refl eq_refl eq_refl)).
  - apply (H3 2 "evenness"%string (PyBool true) [] eq_refl).
  - apply (H4 Sample.districts_index 2 []).
Defined.

(** Multigroup bootstrap, evenness and random labelling do run. *)
Example multigroup_runs :
  (_infer_segregation Sample.env Sample.districts_index 2 "bootstrap"
     (PyBool false) [] Sample.world).1
  = inr (mkInference (Fin 0) [Fin (1 # 4); Fin (1 # 4)] (Fin (1 # 4))
           "MultiDissim") /\
  (_infer_segregation Sample.env Sample.districts_index 2 "evenness"
     (PyBool true) [] Sample.world).1
  = inr (mkInference (Fin 0) [Fin 1; Fin 1] (Fin (1 # 4)) "MultiDissim") /\
  (_compare_segregation Sample.env Sample.districts_index
     Sample.districts_index 2 "random_label" [] Sample.world).1
  = inr (mkInference (Fin 0) [Fin 0; Fin 0] (Fin 0) "MultiDissim").
Proof. repeat split; vm_compute; reflexivity. Qed.

(** ** The column names of the decomposition *)

Lemma load_run r df w : heap w !! r = Some df -> load r w = (inr df, w).
Proof. intros H. unfold load. now rewrite H. Qed.

Lemma numeric_column_has df c col :
  Counterfactual.numeric_column df c = inr col -> has_column df c = true.
Proof.
  unfold Counterfactual.numeric_column, getitem, has_column.
  now destruct (assoc c (columns df)).
Qed.

(** The generator of the design document needs the columns it is asked
    for in the first dataset, whatever the names given for the second. *)
Lemma generator_needs_columns data1 data2 g t second approach :
  has_column data1 g && has_column data1 t = false ->
  exists e,
    Counterfactual.generate_counterfactual data1 data2 g t second approach
    = inl e.
Proof.
  intros Hmiss. unfold Counterfactual.generate_counterfactual.
  destruct (default (g, t) second) as [g2 t2].
  destruct (Counterfactual.numeric_column data1 g) as [e|g1] eqn:H1;
    [now exists e|].
  destruct (Counterfactual.numeric_column data1 t) as [e|t1] eqn:H2.
  { exists e.
    now destruct (Counterfactual.numeric_column data2 g2),
                 (Counterfactual.numeric_column data2 t2). }
  apply numeric_column_has in H1, H2.
  rewrite H1, H2 in Hmiss. discriminate.
Qed.

(** The decomposition up to the call of the generator. *)
Lemma decompose_run env index1 index2 approach w frame1 frame2 :
  heap w !! core_data index1 = Some frame1 ->
  heap w !! core_data index2 = Some frame2 ->
  _function index1 = _function index2 ->
  _decompose_segregation env index1 index2 approach w
  = match _generate_counterfactual env frame1 frame2
            "group_pop_var" "total_pop_var" None approach with
    | inl msg =>
        (inl (External msg),
         mkWorld (heap w ++ [frame1; frame2]) (draws w)
           (log w ++
            [CallGenerator "group_pop_var" "total_pop_var" None approach]))
    | inr (cf1, cf2) =>
        (G_S1_A2 ←
           call_index env (_function index1) cf1
             counterfactual_columns_args [];
         G_S2_A1 ←
           call_index env (_function index1) cf2
             counterfactual_columns_args [];
         let half := Binary64.div (of_Z 1%Z) (of_Z 2%Z) in
         mret (mkDecomposition
                 (Binary64.mul half
                    (Binary64.sub
                       (Binary64.add
                          (Binary64.sub (statistic index1) G_S2_A1) G_S1_A2)
                       (statistic index2)))
                 (Binary64.mul half
                    (Binary64.sub
                       (Binary64.add
                          (Binary64.sub (statistic index1) G_S1_A2) G_S2_A1)
                       (statistic index2)))
                 (length (heap w)) (S (length (heap w))) cf1 cf2 approach
                 [("s1_a1", statistic index1); ("s1_a2", G_S1_A2);
                  ("s2_a1", G_S2_A1); ("s2_a2", statistic index2)]))
          (mkWorld (heap w ++ [frame1; frame2]) (draws w)
             (log w ++
              [CallGenerator "group_pop_var" "total_pop_var" None approach]))
    end.
Proof.
  intros Hf1 Hf2 Hsame. unfold _decompose_segregation.
  rewrite bind_run, (copy_run _ _ _ Hf1).
  rewrite bind_run, (copy_run _ frame2)
    by (cbn [heap]; now apply lookup_app_l_Some).
  cbn [heap draws log]. rewrite bind_run.
  rewrite <- Hsame, String.eqb_refl. cbn [assert mret M_ret].
  rewrite bind_run, (load_run _ frame1).
  2:{ cbn [heap]. rewrite <- (assoc_L (++)).
      rewrite lookup_app_r by lia. now rewrite Nat.sub_diag. }
  rewrite bind_run, (load_run _ frame2).
  2:{ cbn [heap]. rewrite lookup_app_r by lia. now rewrite Nat.sub_diag. }
  rewrite bind_run. unfold call_generator.
  rewrite bind_run. unfold emit at 1. cbn [heap draws log].
  rewrite <- (assoc_L (++)).
  replace (length (heap w ++ [frame1])) with (S (length (heap w)))
    by (rewrite length_app; cbn; lia).
  destruct (_generate_counterfactual env frame1 frame2 "group_pop_var"
              "total_pop_var" None approach) as [msg|[cf1 cf2]];
    reflexivity.
Qed.

(** C9.  Whatever the column names configured on the two indices, the
    decomposition of two indices of the same type first calls the
    counterfactual generator, on the copies of the two frames, with the
    literal names "group_pop_var" and "total_pop_var"; when the generator
    returns, it calls the index function on the first dataset returned and
    then, if that call returns, on the second, each time on the columns
    "counterfactual_group_pop" and "counterfactual_total_pop"; it makes no
    other call, and it returns exactly when the three calls return.
    Hence, with a generator that needs the columns it is asked for, the
    decomposition fails at the call of the generator, before any call of
    the index function, as soon as the first frame lacks a column
    literally named "group_pop_var" or "total_pop_var", and likewise for
    the second frame when the one pair of names stands for both
    datasets. *)
Theorem decomposition_hardwires_column_names
    env index1 index2 approach w frame1 frame2 :
  heap w !! core_data index1 = Some frame1 ->
  heap w !! core_data index2 = Some frame2 ->
  _function index1 = _function index2 ->
  let run := _decompose_segregation env index1 index2 approach w in
  let f := _function index1 in
  let on_counterfactual :=
    Single "counterfactual_group_pop" "counterfactual_total_pop" in
  let literal :=
    CallGenerator "group_pop_var" "total_pop_var" None approach in
  match _generate_counterfactual env frame1 frame2
          "group_pop_var" "total_pop_var" None approach with
  | inl msg =>
      run.1 = inl (External msg) /\ log run.2 = log w ++ [literal]
  | inr (cf1, cf2) =>
      match apply_index env f cf1 on_counterfactual [] with
      | inl msg1 =>
          run.1 = inl (External msg1) /\
          log run.2
          = log w ++ [literal; CallIndex f on_counterfactual (inl msg1)]
      | inr (G_S1_A2, _) =>
          match apply_index env f cf2 on_counterfactual [] with
          | inl msg2 =>
              run.1 = inl (External msg2) /\
              log run.2
              = log w ++ [literal;
                          CallIndex f on_counterfactual (inr G_S1_A2);
                          CallIndex f on_counterfactual (inl msg2)]
          | inr (G_S2_A1, _) =>
              (exists d,
                 run.1 = inr d /\
                 counterfac_df1 d = cf1 /\ counterfac_df2 d = cf2 /\
                 results d = [("s1_a1", statistic index1);
                              ("s1_a2", G_S1_A2); ("s2_a1", G_S2_A1);
                              ("s2_a2", statistic index2)]) /\
              log run.2
              = log w ++ [literal;
                          CallIndex f on_counterfactual (inr G_S1_A2);
                          CallIndex f on_counterfactual (inr G_S2_A1)]
          end
      end
  end /\
  (resolves_first env ->
   has_column frame1 "group_pop_var" && has_column frame1 "total_pop_var"
   = false ->
   (exists msg, run.1 = inl (External msg)) /\
   log run.2 = log w ++ [literal]) /\
  (resolves_second env ->
   has_column frame2 "group_pop_var" && has_column frame2 "total_pop_var"
   = false ->
   (exists msg, run.1 = inl (External msg)) /\
   log run.2 = log w ++ [literal]).
Proof.
  intros Hf1 Hf2 Hsame run f on_counterfactual literal. subst run.
  rewrite (decompose_run _ _ _ _ _ _ _ Hf1 Hf2 Hsame).
  destruct (_generate_counterfactual env frame1 frame2 "group_pop_var"
              "total_pop_var" None approach) as [msg|[cf1 cf2]] eqn:Hgen.
  - cbn [fst snd log]. split; [now split|]. split; intros _ _.
    + split; [now exists msg | reflexivity].
    + split; [now exists msg | reflexivity].
  - split; [|split].
    + change counterfactual_columns_args with on_counterfactual.
      fold f. rewrite !bind_run. unfold call_index.
      destruct (apply_index env f cf1 on_counterfactual [])
        as [msg1|[g12 c1]].
      { rewrite !bind_run. unfold emit.
        cbn [heap draws log raise fst snd].
        rewrite <- (assoc_L (++)). now split. }
      rewrite !bind_run. unfold emit. cbn [heap draws log mret M_ret].
      rewrite !bind_run.
      destruct (apply_index env f cf2 on_counterfactual [])
        as [msg2|[g21 c2]].
      { rewrite !bind_run. cbn [heap draws log raise fst snd].
        rewrite <- !(assoc_L (++)). now split. }
      rewrite !bind_run. cbn [heap draws log mret M_ret fst snd].
      rewrite <- !(assoc_L (++)). split; [|reflexivity].
      eexists. split; [reflexivity|]. now repeat split.
    + intros Hres Hmiss. exfalso.
      destruct (Hres frame1 frame2 _ _ None approach Hmiss) as [msg Hmsg].
      pose proof (eq_trans (eq_sym Hgen) Hmsg) as Hno. discriminate Hno.
    + intros Hres Hmiss. exfalso.
      destruct (Hres frame1 frame2 _ _ approach Hmiss) as [msg Hmsg].
      pose proof (eq_trans (eq_sym Hgen) Hmsg) as Hno. discriminate Hno.
Qed.

Lemma decomposition_hardwires_column_names_witness :
  (group_pop_var Handpicked.census_index_1 = "HISP_"%string /\
   has_column Handpicked.city_1 "HISP_" = false /\
   log (_decompose_segregation Handpicked.env Handpicked.census_index_1
          Handpicked.census_index_2 "composition" Handpicked.world).2
   = [] ++
     [CallGenerator "group_pop_var" "total_pop_var" None "composition";
      CallIndex "_share"
        (Single "counterfactual_group_pop" "counterfactual_total_pop")
        (inr Handpicked.d0_3);
      CallIndex "_share"
        (Single "counterfactual_group_pop" "counterfactual_total_pop")
        (inr Handpicked.d0_4)]) /\
  (group_pop_var Sample.census_index_a = "HISP_"%string /\
   has_column Sample.census_a "HISP_" = true /\
   (exists msg,
      (_decompose_segregation Sample.env Sample.census_index_a
         Sample.census_index_b "composition" Sample.world).1
      = inl (External msg)) /\
   log (_decompose_segregation Sample.env Sample.census_index_a
          Sample.census_index_b "composition" Sample.world).2
   = [] ++
     [CallGenerator "group_pop_var" "total_pop_var" None "composition"]).
Proof.
  split.
  - split; [reflexivity|]. split; [reflexivity|].
    pose proof (proj1 (decomposition_hardwires_column_names Handpicked.env
                         Handpicked.census_index_1 Handpicked.census_index_2
                         "composition" Handpicked.world Handpicked.city_1
                         Handpicked.city_2 eq_refl eq_refl eq_refl)) as H.
    vm_compute in H.
    exact (proj2 H).
  - split; [reflexivity|]. split; [reflexivity|].
    apply (proj1 (proj2 (decomposition_hardwires_column_names Sample.env
                           Sample.census_index_a Sample.census_index_b
                           "composition" Sample.world Sample.census_a
                           Sample.census_b eq_refl eq_refl eq_refl))).
    + intros data1 data2 g t second approach Hmiss.
      destruct (generator_needs_columns data1 data2 g t second approach
                  Hmiss) as [e He].
      exists (describe e). cbn [_generate_counterfactual Sample.env].
      now rewrite He.
    + reflexivity.
Defined.

(** * Further properties of the engines *)

From Stdlib Require Import Lqa.

(** ** The class name shown in the plots *)

Lemma append_cons x (a b : string) :
  (String x a ++ b)%string = String x (a ++ b).
Proof. reflexivity. Qed.

Lemma append_assoc (a b c : string) :
  ((a ++ b) ++ c)%string = (a ++ (b ++ c))%string.
Proof.
  induction a as [|x a IH]; [reflexivity|].
  rewrite !append_cons. now rewrite IH.
Qed.

Lemma length_append (a b : string) :
  String.length (a ++ b) = String.length a + String.length b.
Proof.
  induction a as [|x a IH]; [reflexivity|].
  rewrite append_cons. cbn [String.length]. now rewrite IH.
Qed.

Lemma rfind_from_app c (s1 s2 : string) i last :
  rfind_from c (s1 ++ s2) i last
  = rfind_from c s2 (i + Z.of_nat (String.length s1))%Z (rfind_from c s1 i last).
Proof.
  revert i last. induction s1 as [|x s1 IH]; intros i last.
  - change ("" ++ s2)%string with s2. cbn. now rewrite Z.add_0_r.
  - rewrite append_cons. cbn [rfind_from]. rewrite IH.
    cbn [String.length]. f_equal. lia.
Qed.

Lemma rfind_from_absent c (s : string) i last :
  ~ In c (list_ascii_of_string s) -> rfind_from c s i last = last.
Proof.
  revert i. induction s as [|x s IH]; intros i Hc; cbn; [reflexivity|].
  cbn in Hc. destruct (Ascii.eqb_spec x c) as [->|_]; [tauto|].
  apply IH. tauto.
Qed.

Lemma in_append_l c (a b : string) :
  In c (list_ascii_of_string (a ++ b)) ->
  In c (list_ascii_of_string a) \/ In c (list_ascii_of_string b).
Proof.
  induction a as [|x a IH]; [now right|].
  rewrite append_cons. cbn [list_ascii_of_string In].
  intros [H|H]; [now left; left|]. destruct (IH H); [left; now right | now right].
Qed.

Lemma substring_skip (a s : string) n :
  substring (String.length a) n (a ++ s) = substring 0 n s.
Proof.
  induction a as [|x a IH]; [reflexivity|].
  rewrite append_cons. cbn [String.length substring]. exact IH.
Qed.

Lemma substring_prefix (a b : string) :
  substring 0 (String.length a) (a ++ b) = a.
Proof.
  induction a as [|x a IH]; [now destruct b|].
  rewrite append_cons. cbn [String.length substring]. now rewrite IH.
Qed.

(** X1.  The class name the engines return is what follows the last dot of
    the qualified name of the class; for a class whose qualified name has
    no dot, it is the representation of the type without its last two
    characters. *)
Theorem class_name_is_last_component (obj : SegIndex) :
  (forall m c,
     class_name obj = (m ++ "." ++ c)%string ->
     ~ In "."%char (list_ascii_of_string c) ->
     _class_name_of obj = c) /\
  (~ In "."%char (list_ascii_of_string (class_name obj)) ->
   _class_name_of obj = ("<class '" ++ class_name obj)%string).
Proof.
  split.
  - intros m c Hname Hc. unfold _class_name_of, type_repr. rewrite Hname.
    assert (Hdot : ~ In "."%char (list_ascii_of_string (c ++ "'>"))).
    { intros Hin. apply in_append_l in Hin as [Hin|Hin]; [tauto|].
      cbn in Hin. destruct Hin as [H|[H|[]]]; discriminate. }
    assert (Hr : rfind ("<class '" ++ (m ++ "." ++ c) ++ "'>") "."%char
                 = (8 + Z.of_nat (String.length m))%Z).
    { unfold rfind. rewrite rfind_from_app.
      rewrite !append_assoc, rfind_from_app.
      change ("." ++ c ++ "'>")%string with (String "."%char (c ++ "'>")).
      cbn [rfind_from]. rewrite Ascii.eqb_refl.
      rewrite rfind_from_absent by assumption. cbn [String.length]. lia. }
    rewrite Hr. unfold slice.
    replace ("<class '" ++ (m ++ "." ++ c) ++ "'>")%string
      with (("<class '" ++ m ++ ".") ++ (c ++ "'>"))%string
      by now rewrite !append_assoc.
    replace (Z.to_nat (1 + (8 + Z.of_nat (String.length m))))
      with (String.length ("<class '" ++ m ++ "."))
      by (rewrite !length_append; cbn [String.length]; lia).
    rewrite substring_skip.
    replace (Z.to_nat _) with (String.length c)
      by (rewrite !length_append; cbn [String.length]; lia).
    apply substring_prefix.
  - intros Hc. unfold _class_name_of, type_repr.
    assert (Hr : rfind ("<class '" ++ class_name obj ++ "'>") "."%char
                 = (-1)%Z).
    { unfold rfind. apply rfind_from_absent. intros Hin.
      apply in_append_l in Hin as [Hin|Hin].
      - cbn in Hin. repeat (destruct Hin as [Hin|Hin]; [discriminate|]).
        exact Hin.
      - apply in_append_l in Hin as [Hin|Hin]; [tauto|].
        cbn in Hin. destruct Hin as [H|[H|[]]]; discriminate. }
    rewrite Hr. unfold slice. change (1 + -1)%Z with 0%Z.
    change (Z.to_nat 0) with 0. rewrite <- append_assoc.
    replace (Z.to_nat _) with (String.length ("<class '" ++ class_name obj))
      by (rewrite !length_append; cbn [String.length]; lia).
    apply substring_prefix.
Qed.

Lemma class_name_is_last_component_witness :
  _class_name_of Sample.index_a = "Dissim"%string /\
  _class_name_of (mkIndex "int" SingleGroupIndex (Fin 0) 0 "" "" [] "")
  = "<class 'int"%string.
Proof.
  split.
  - apply (proj1 (class_name_is_last_component Sample.index_a)
             "segregation.singlegroup.dissim" "Dissim"); [reflexivity|].
    cbn. intuition discriminate.
  - refine (proj2 (class_name_is_last_component
                     (mkIndex "int" SingleGroupIndex (Fin 0) 0 "" "" [] "")) _).
    cbn. intuition discriminate.
Defined.

(** ** Spatial permutations of a frame without geometry *)

(** Evaluates the comparisons of a known null approach in the goal. *)
Ltac known_approach :=
  repeat match goal with
         | |- context [String.eqb ?a ?b] =>
             let v := eval vm_compute in (String.eqb a b) in
             match v with true => idtac | false => idtac end;
             change (String.eqb a b) with v
         | |- context [member ?a ?l] =>
             let v := eval vm_compute in (member a l) in
             match v with true => idtac | false => idtac end;
             change (member a l) with v
         end.

(** The guards, the copy and the blocks that are not entered. *)
Ltac pass_blocks :=
  known_approach; unfold only_if, only_if2; cbv iota;
  repeat (rewrite bind_run; cbn [mret M_ret negb]).

Lemma plain_frame_rejected {A} (r : ref) (frame : DataFrame) (k : unit -> M A) w :
  heap w !! r = Some frame -> geo frame = false ->
  (load r ≫= fun frame =>
     (if geo frame then mret tt else not_a_geodataframe) ≫= k) w
  = (inl not_a_geodataframe_error, w).
Proof.
  intros Hf Hgeo. rewrite bind_run, (load_run _ _ _ Hf), bind_run, Hgeo.
  reflexivity.
Qed.

(** X2.  Under "permutation", "systematic_permutation" and
    "even_permutation" a single-group index whose data is a plain
    DataFrame is rejected with a TypeError right after the copy: no random
    draw is made, no index formula is called, nothing is logged. *)
Theorem permutation_needs_geodataframe env seg_class frame w :
  kind seg_class = SingleGroupIndex ->
  heap w !! data seg_class = Some frame ->
  geo frame = false ->
  forall n approach b kw,
    member approach ["permutation"; "systematic_permutation";
                     "even_permutation"] = true ->
    _infer_segregation env seg_class n approach (PyBool b) kw w
    = (inl (TypeError
         "data is not a GeoDataFrame, therefore, this null approach does not apply."),
       mkWorld (heap w ++ [frame]) (draws w) (log w)).
Proof.
  intros Hk Hf Hgeo n approach b kw Hm. apply member_cases in Hm.
  assert (Hcopy : (heap w ++ [frame]) !! length (heap w) = Some frame).
  { rewrite lookup_app_r by lia. now rewrite Nat.sub_diag. }
  unfold _infer_segregation.
  destruct Hm as [<-|[<-|[<-|[]]]];
    rewrite bind_run; known_approach; cbn [mret M_ret negb];
    rewrite bind_run; cbn [mret M_ret];
    rewrite bind_run, (copy_run _ _ _ Hf);
    pass_blocks.
  - unfold null_permutation. rewrite Hk, bind_run. cbn [fst].
    now rewrite (plain_frame_rejected _ frame).
  - unfold null_systematic_permutation. rewrite Hk, bind_run. cbn [fst].
    now rewrite (plain_frame_rejected _ frame).
  - unfold null_even_permutation. rewrite Hk, bind_run. cbn [fst].
    now rewrite (plain_frame_rejected _ frame).
Qed.

Lemma permutation_needs_geodataframe_witness :
  _infer_segregation Sample.env Sample.index_a 500 "permutation" (PyBool true)
    [] Sample.world
  = (inl (TypeError
       "data is not a GeoDataFrame, therefore, this null approach does not apply."),
     mkWorld (heap Sample.world ++ [Sample.city_a]) 0 []).
Proof.
  apply (permutation_needs_geodataframe Sample.env Sample.index_a
           Sample.city_a Sample.world eq_refl eq_refl eq_refl 500
           "permutation"%string true [] eq_refl).
Defined.

(** ** No iteration at all *)

(** X3.  With [iterations_under_null = 0] no round is simulated.  Under
    "bootstrap" the two-tailed run returns a NaN p-value over an empty null
    sample and the one-tailed run raises ZeroDivisionError, both having
    done nothing but the copy.  Under every approach, a run of the
    single-sample engine that returns is two-tailed, and a run of either
    engine that returns has a NaN p-value, an empty null sample and has
    called no index formula. *)
Theorem zero_iterations env :
  (forall seg_class frame w kw,
     heap w !! data seg_class = Some frame ->
     _infer_segregation env seg_class 0 "bootstrap" (PyBool true) kw w
     = (inr (mkInference NaN [] (statistic seg_class)
               (_class_name_of seg_class)),
        mkWorld (heap w ++ [frame]) (draws w) (log w)) /\
     _infer_segregation env seg_class 0 "bootstrap" (PyBool false) kw w
     = (inl ZeroDivisionError,
        mkWorld (heap w ++ [frame]) (draws w) (log w))) /\
  (forall seg_class approach two_tailed kw w res w',
     _infer_segregation env seg_class 0 approach two_tailed kw w
     = (inr res, w') ->
     two_tailed = PyBool true /\ p_value res = NaN /\ est_sim res = [] /\
     returned (log w') = returned (log w)) /\
  (forall seg_class_1 seg_class_2 approach kw w res w',
     _compare_segregation env seg_class_1 seg_class_2 0 approach kw w
     = (inr res, w') ->
     p_value res = NaN /\ est_sim res = [] /\
     returned (log w') = returned (log w)).
Proof.
  split; [|split].
  - intros seg_class frame w kw Hf. unfold _infer_segregation.
    split;
      rewrite bind_run; known_approach; cbn [mret M_ret negb];
      rewrite bind_run; cbn [mret M_ret];
      rewrite bind_run, (copy_run _ _ _ Hf);
      pass_blocks; unfold null_bootstrap;
      destruct (kind seg_class); reflexivity.
  - intros * H.
    apply infer_inr in H as (b & raw & -> & Hlen & -> & _ & Hn & Hret).
    apply nil_length_inv in Hlen. subst raw.
    rewrite app_nil_r in Hret. destruct b.
    + now repeat split.
    + now elim Hn.
  - intros * H.
    apply compare_inr in H as (raw & vs & Hlen & -> & _ & Hvs & _ & Hret).
    apply nil_length_inv in Hlen. subst raw.
    destruct vs; [|discriminate]. rewrite app_nil_r in Hret.
    now repeat split.
Qed.

Lemma zero_iterations_witness :
  _infer_segregation Sample.env Sample.index_a 0 "bootstrap" (PyBool true) []
    Sample.world
  = (inr (mkInference NaN [] (statistic Sample.index_a) "Dissim"),
     mkWorld (heap Sample.world ++ [Sample.city_a]) 0 []) /\
  (PyBool true = PyBool true /\ NaN = NaN /\ @nil fval = [] /\
   returned (@nil event) = returned []).
Proof.
  pose proof (proj1 (proj1 (zero_iterations Sample.env) Sample.index_a
                       Sample.city_a Sample.world [] eq_refl)) as Hrun.
  split; [exact Hrun|].
  exact (proj1 (proj2 (zero_iterations Sample.env)) Sample.index_a
           "bootstrap"%string (PyBool true) [] Sample.world _ _ Hrun).
Defined.

(** ** An observed value outside the simulated range *)

Lemma count_none {A} (f : A -> bool) (l : list A) :
  Forall (fun x => f x = false) l -> count (map f l) = 0.
Proof.
  induction 1 as [|x l Hx _ IH]; [reflexivity|].
  cbn [map]. now rewrite count_cons, Hx, IH.
Qed.

Lemma count_all {A} (f : A -> bool) (l : list A) :
  Forall (fun x => f x = true) l -> count (map f l) = length l.
Proof.
  induction 1 as [|x l Hx _ IH]; [reflexivity|].
  cbn [map length]. now rewrite count_cons, Hx, IH.
Qed.

Lemma fltb_not_back x y : fltb x y = true -> fltb y x = false.
Proof.
  intros H. pose proof (fltb_asym x y) as Ha. rewrite H in Ha. exact Ha.
Qed.

Lemma fdiv_zero_of_nat (k : nat) : k <> 0 -> fdiv (of_nat 0) (of_nat k) = Fin 0.
Proof.
  intros Hk. destruct (fdiv_of_nat_unit 0 k) as (q & Hq & _); [lia|assumption|].
  rewrite Hq. unfold fdiv, of_nat, of_Z in Hq.
  destruct (Qeq_bool (Z.of_nat k # 1) 0); [discriminate|].
  injection Hq as <-. f_equal.
Qed.

(** X4.  When the observed statistic lies strictly above every value of the
    null sample (and the sample is not empty), the p-value is 0 in both
    engines and both tails; when it lies strictly below every value, the
    two-tailed p-value is 0 as well, and the one-tailed p-value is the
    share of the requested iterations that survived. *)
Theorem p_value_outside_simulated_range env :
  (forall seg_class n approach two_tailed kw w res w',
     _infer_segregation env seg_class n approach two_tailed kw w
     = (inr res, w') ->
     est_sim res <> [] ->
     (Forall (fun x => fltb x (statistic seg_class) = true) (est_sim res) ->
      p_value res = Fin 0) /\
     (Forall (fun x => fltb (statistic seg_class) x = true) (est_sim res) ->
      (two_tailed = PyBool true -> p_value res = Fin 0) /\
      (two_tailed = PyBool false ->
       p_value res = fdiv (of_nat (length (est_sim res))) (of_nat n)))) /\
  (forall seg_class_1 seg_class_2 n approach kw w res w',
     _compare_segregation env seg_class_1 seg_class_2 n approach kw w
     = (inr res, w') ->
     est_sim res <> [] ->
     let pe := fsub (statistic seg_class_1) (statistic seg_class_2) in
     Forall (fun x => fltb x pe = true) (est_sim res) \/
     Forall (fun x => fltb pe x = true) (est_sim res) ->
     p_value res = Fin 0).
Proof.
  split.
  - intros * H Hne.
    apply infer_inr in H as (b & raw & -> & Hlen & -> & _ & Hn & _).
    cbn [est_sim p_value infer_result] in *.
    set (est := List.filter (fun x => negb (degenerate x)) raw) in *.
    assert (Hlen' : length est <> 0) by (destruct est; [easy | cbn; lia]).
    assert (Hn' : n <> 0).
    { intros ->. apply nil_length_inv in Hlen. subst raw. now apply Hne. }
    split; intros Hall.
    + destruct b.
      * unfold two_tailed_p_value.
        rewrite (count_none (fun e => fltb (statistic seg_class) e)).
        -- now apply fdiv_zero_of_nat.
        -- eapply Forall_impl; [exact Hall|]. intros x. apply fltb_not_back.
      * rewrite (count_none (fun e => fgtb e (statistic seg_class))).
        -- now apply fdiv_zero_of_nat.
        -- eapply Forall_impl; [exact Hall|]. intros x. apply fltb_not_back.
    + split; intros [= ->].
      * unfold two_tailed_p_value.
        rewrite (count_none (fun e => fgtb (statistic seg_class) e)).
        -- rewrite Nat.min_0_r. now apply fdiv_zero_of_nat.
        -- eapply Forall_impl; [exact Hall|]. intros x. apply fltb_not_back.
      * now rewrite (count_all (fun e => fgtb e (statistic seg_class))).
  - intros * H Hne pe Hall.
    apply compare_inr in H as (raw & vs & Hlen & -> & _).
    cbn [est_sim p_value compare_result] in *.
    set (est := List.filter (fun x => negb (degenerate x)) raw) in *.
    assert (Hlen' : length est <> 0) by (destruct est; [easy | cbn; lia]).
    unfold two_tailed_p_value. fold pe. destruct Hall as [Hall|Hall].
    + rewrite (count_none (fun e => fltb pe e)).
      * now apply fdiv_zero_of_nat.
      * eapply Forall_impl; [exact Hall|]. intros x. apply fltb_not_back.
    + rewrite (count_none (fun e => fgtb pe e)).
      * rewrite Nat.min_0_r. now apply fdiv_zero_of_nat.
      * eapply Forall_impl; [exact Hall|]. intros x. apply fltb_not_back.
Qed.

Lemma p_value_outside_simulated_range_witness :
  p_value (mkInference (Fin 0) [Fin 0; Fin 0; Fin 0] (Fin (4 # 15)) "Dissim")
  = Fin 0 /\
  p_value (mkInference (Fin 1) [Fin 1; Fin 1; Fin 1] (Fin (4 # 15)) "Dissim")
  = fdiv (of_nat 3) (of_nat 3) /\
  p_value (mkInference (Fin 0)
             [Fin (-365 # 4368); Fin (-365 # 4368); Fin (-365 # 4368)]
             (Fin (8 # 15)) "Dissim")
  = Fin 0.
Proof.
  assert (Hrun1 :
    _infer_segregation Sample.env Sample.index_a 3 "evenness" (PyBool true) []
      Sample.world
    = (inr (mkInference (Fin 0) [Fin 0; Fin 0; Fin 0] (Fin (4 # 15)) "Dissim"),
       (_infer_segregation Sample.env Sample.index_a 3 "evenness"
          (PyBool true) [] Sample.world).2))
    by (vm_compute; reflexivity).
  assert (Hrun2 :
    _infer_segregation Sample.env Sample.index_a 3 "systematic" (PyBool false)
      [] Sample.world
    = (inr (mkInference (Fin 1) [Fin 1; Fin 1; Fin 1] (Fin (4 # 15)) "Dissim"),
       (_infer_segregation Sample.env Sample.index_a 3 "systematic"
          (PyBool false) [] Sample.world).2))
    by (vm_compute; reflexivity).
  assert (Hrun3 :
    _compare_segregation Sample.env Sample.index_b Sample.index_a 3
      "counterfactual_composition" [] Sample.world
    = (inr (mkInference (Fin 0)
              [Fin (-365 # 4368); Fin (-365 # 4368); Fin (-365 # 4368)]
              (Fin (8 # 15)) "Dissim"),
       (_compare_segregation Sample.env Sample.index_b Sample.index_a 3
          "counterfactual_composition" [] Sample.world).2))
    by (vm_compute; reflexivity).
  split; [|split].
  - apply (proj1 (proj1 (p_value_outside_simulated_range Sample.env)
                    _ _ _ _ _ _ _ _ Hrun1 ltac:(discriminate))).
    repeat constructor.
  - apply (proj2 (proj2 (proj1 (p_value_outside_simulated_range Sample.env)
                           _ _ _ _ _ _ _ _ Hrun2 ltac:(discriminate))
                    ltac:(repeat constructor)) eq_refl).
  - apply (proj2 (p_value_outside_simulated_range Sample.env)
             _ _ _ _ _ _ _ _ Hrun3 ltac:(discriminate)).
    left. repeat constructor.
Defined.

(** ** The multigroup dissimilarity index on degenerate data *)

Lemma fsum_from_nan (l : list fval) : fold_left fadd l NaN = NaN.
Proof. induction l as [|x l IH]; [reflexivity | exact IH]. Qed.

Lemma fadd_nan_r (x : fval) : fadd x NaN = NaN.
Proof. now destruct x. Qed.

Lemma fold_fadd_nan (l : list fval) (a : fval) :
  In NaN l -> fold_left fadd l a = NaN.
Proof.
  revert a. induction l as [|x l IH]; intros a Hin; [contradiction|].
  cbn [fold_left]. destruct Hin as [->|Hin].
  - rewrite fadd_nan_r. apply fsum_from_nan.
  - now apply IH.
Qed.

Lemma fsum_nan (l : list fval) : In NaN l -> fsum l = NaN.
Proof. apply fold_fadd_nan. Qed.

Lemma fmul_nan_r (x : fval) : fmul x NaN = NaN.
Proof. now destruct x. Qed.

Lemma fdiv_nan_r (x : fval) : fdiv x NaN = NaN.
Proof. now destruct x. Qed.

Lemma map_seq_lookup {A B} (f : A -> B) (d : A) (l : list A) :
  map (fun i => f (default d (l !! i))) (seq 0 (length l)) = map f l.
Proof.
  apply list_eq. intros i. rewrite !list_lookup_fmap.
  destruct (decide (i < length l)) as [Hi|Hi].
  - rewrite lookup_seq_lt by assumption.
    destruct (lookup_lt_is_Some_2 l i Hi) as [x Hx]. cbn. now rewrite Hx.
  - rewrite lookup_seq_ge by lia. rewrite lookup_ge_None_2 by lia. reflexivity.
Qed.

Lemma concat_singletons {A} (l : list A) : List.concat (map (fun x => [x]) l) = l.
Proof. induction l as [|x l IH]; cbn; [reflexivity | now rewrite IH]. Qed.

Lemma reshape_single (l : list fval) n :
  n = length l ->
  reshape (np_repeat l 1) n 1 = map (fun x => [x]) l.
Proof.
  intros ->. unfold reshape, np_repeat. 
  replace (map (replicate 1) l) with (map (fun x => [x]) l) by reflexivity.
  rewrite concat_singletons.
  apply list_eq. intros i. rewrite !list_lookup_fmap.
  destruct (decide (i < length l)) as [Hi|Hi].
  - rewrite lookup_seq_lt by assumption.
    destruct (lookup_lt_is_Some_2 l i Hi) as [x Hx]. rewrite Hx. cbn.
    rewrite Nat.mul_1_r. rewrite (drop_S _ _ _ Hx). reflexivity.
  - rewrite lookup_seq_ge by lia. rewrite lookup_ge_None_2 by lia. reflexivity.
Qed.

Lemma fold_zero_or_nan (l : list fval) (a : fval) :
  zero_or_nan a -> Forall zero_or_nan l -> zero_or_nan (fold_left fadd l a).
Proof.
  intros Ha Hl. revert a Ha. induction Hl as [|x l Hx _ IH]; intros a Ha; [exact Ha|].
  cbn [fold_left]. apply IH. destruct Ha as [->| ->], Hx as [->| ->]; cbn; auto.
  now left. now right. now right. now right.
Qed.

Lemma Qsign_zero (q : Q) : (q == 0)%Q -> Qsign q = Eq.
Proof.
  intros H. unfold Qsign. destruct q as [a b]. unfold Qeq in H. cbn in *.
  assert (a = 0%Z) as -> by lia. reflexivity.
Qed.

Lemma fin_zero (q : Q) : (q == 0)%Q -> fin q = Fin 0.
Proof. intros H. now rewrite (fin_eq q 0). Qed.

Lemma single_term (x : fval) :
  zero_or_nan
    (fmul (fabs (fsub (fdiv x (fadd (Fin 0) x)) (Fin 1))) (fadd (Fin 0) x)).
Proof.
  destruct x as [q| | |]; try (now right).
  cbn [fadd]. unfold fin at 1. cbn [fdiv].
  destruct (Qeq_bool (Qred (0 + q)) 0) eqn:Hz.
  - right. apply Qeq_bool_eq in Hz. rewrite Qred_correct, Qplus_0_l in Hz.
    now rewrite (Qsign_zero q Hz).
  - left.
    assert (Hq : ~ (q == 0)%Q).
    { intros H. rewrite <- Qplus_0_l, <- Qred_correct in H.
      apply Qeq_eq_bool in H. congruence. }
    rewrite (fin_eq (q / Qred (0 + q)) 1).
    2:{ rewrite Qred_correct, Qplus_0_l. now field. }
    change (fin 1) with (Fin 1). change (fsub (Fin 1) (Fin 1)) with (Fin 0).
    change (fabs (Fin 0)) with (Fin 0). cbn [fmul].
    apply fin_zero. ring.
Qed.

Lemma concat_map_singleton {A B} (f : A -> B) (l : list A) :
  List.concat (map (fun x => [f x]) l) = map f l.
Proof. induction l as [|x l IH]; cbn; [reflexivity | now rewrite IH]. Qed.

Lemma zip_with_same {A B C D} (f : B -> C -> D) (g : A -> B) (h : A -> C) l :
  zip_with f (map g l) (map h l) = map (fun x => f (g x) (h x)) l.
Proof. induction l as [|x l IH]; cbn; [reflexivity | now rewrite IH]. Qed.

Lemma single_column_nan (xs : list fval) :
  multi_dissim_statistic (mkArray (length xs) [xs]) = NaN.
Proof.
  unfold multi_dissim_statistic, sum_all, sum_axis0, sum_axis1, array_rows, shape1.
  cbn [shape0 array_columns map length].
  rewrite (map_seq_lookup (fun x => [x]) NaN xs).
  rewrite concat_singletons. rewrite map_map. cbn [fsum fold_left].
  rewrite reshape_single by now rewrite List.length_map.
  rewrite zip_with_same, !map_map, zip_with_same. cbn [map zip_with].
  rewrite concat_map_singleton.
  set (T := fsum xs).
  assert (Hnan : fdiv T T = NaN ->
    fmul
      (fdiv (of_Z 1)
         (fmul (fmul (of_Z 2) T)
            (fadd (Fin 0) (fmul (fdiv T T) (fsub (of_Z 1) (fdiv T T))))))
      (fsum (map (fun x =>
                    fmul (fabs (fsub (fdiv x (fadd (Fin 0) x)) (fdiv T T)))
                      (fadd (Fin 0) x)) xs)) = NaN).
  { intros ->. cbn [fmul fadd]. now rewrite fmul_nan_r. }
  destruct T as [t| | |] eqn:HT; try (apply Hnan; reflexivity).
  destruct (Qeq_bool t 0) eqn:Hz.
  { apply Hnan. cbn [fdiv]. rewrite Hz. apply Qeq_bool_eq in Hz.
    now rewrite (Qsign_zero t Hz). }
  clear Hnan.
  assert (HP : fdiv (Fin t) (Fin t) = Fin 1).
  { cbn [fdiv]. rewrite Hz. apply (fin_eq _ 1). field.
    intros H. apply Qeq_eq_bool in H. congruence. }
  rewrite HP.
  change (fmul (Fin 1) (fsub (of_Z 1) (Fin 1))) with (Fin 0).
  change (fadd (Fin 0) (Fin 0)) with (Fin 0).
  replace (fmul (fmul (of_Z 2) (Fin t)) (Fin 0)) with (Fin 0)
    by (symmetry; cbn [fmul of_Z]; unfold fin at 1; cbn [fmul]; apply fin_zero; ring).
  change (fdiv (of_Z 1) (Fin 0)) with PInf.
  assert (HS : zero_or_nan (fsum (map (fun x =>
                    fmul (fabs (fsub (fdiv x (fadd (Fin 0) x)) (Fin 1)))
                      (fadd (Fin 0) x)) xs))).
  { apply fold_zero_or_nan; [now left|]. apply Forall_map.
    apply Forall_forall. intros x _. apply single_term. }
  destruct HS as [-> | ->]; reflexivity.
Qed.

Lemma fsum_zeros (l : list fval) : Forall is_zero l -> fsum l = Fin 0.
Proof.
  unfold fsum. induction 1 as [|x l (q & -> & Hq) _ IH]; [reflexivity|].
  cbn [fold_left fadd]. rewrite (fin_zero (0 + q)); [exact IH|].
  now rewrite Hq.
Qed.

Lemma fdiv_zero_zero (x : fval) : is_zero x -> fdiv x (Fin 0) = NaN.
Proof.
  intros (q & -> & Hq). cbn. now rewrite (Qsign_zero q Hq).
Qed.

Lemma length_np_repeat (v : list fval) K : length (np_repeat v K) = length v * K.
Proof.
  unfold np_repeat. induction v as [|x v IH]; [reflexivity|].
  cbn [map List.concat]. rewrite length_app, IH, length_replicate. cbn. lia.
Qed.

Lemma empty_row_nan (n : nat) (cols : list (list fval)) (i : nat) :
  cols <> [] -> i < n ->
  Forall (fun c => exists x, c !! i = Some x /\ is_zero x) cols ->
  multi_dissim_statistic (mkArray n cols) = NaN.
Proof.
  intros Hne Hi Hz.
  unfold multi_dissim_statistic.
  set (rows := array_rows (mkArray n cols)).
  set (ti := sum_axis1 (mkArray n cols)).
  set (Pk := map _ (sum_axis0 _)).
  cbn [shape0]. unfold shape1. cbn [array_columns].
  match goal with |- fmul _ (fsum ?L) = _ => enough (In NaN L) as HL end.
  { now rewrite (fsum_nan _ HL), fmul_nan_r. }
  set (row := map (fun col : list fval => default NaN (col !! i)) cols).
  assert (Hrow : rows !! i = Some row).
  { unfold rows, array_rows. cbn [shape0 array_columns].
    rewrite list_lookup_fmap, lookup_seq_lt by assumption. reflexivity. }
  assert (Hzero : Forall is_zero row).
  { unfold row. apply Forall_map. eapply Forall_impl; [exact Hz|].
    intros c (x & -> & Hx). exact Hx. }
  assert (Hti : ti !! i = Some (Fin 0)).
  { unfold ti, sum_axis1. fold rows. rewrite list_lookup_fmap, Hrow. cbn.
    now rewrite fsum_zeros. }
  apply in_concat.
  destruct cols as [|c0 cols']; [contradiction|].
  assert (HB : exists b0 B',
             reshape (np_repeat ti (length (c0 :: cols'))) n (length (c0 :: cols')) !! i
             = Some (b0 :: B')).
  { unfold reshape. rewrite list_lookup_fmap, lookup_seq_lt by assumption.
    cbn [fmap option_fmap option_map Nat.add].
    destruct (drop (i * length (c0 :: cols')) (np_repeat ti (length (c0 :: cols'))))
      as [|b0 rest] eqn:Hd.
    - exfalso. apply (f_equal length) in Hd. rewrite length_drop, length_np_repeat in Hd.
      assert (length ti = n).
      { unfold ti, sum_axis1, array_rows. cbn [shape0].
        now rewrite !List.length_map, List.length_seq. }
      cbn [length] in Hd. nia.
    - cbn [length take]. eauto. }
  destruct HB as (b0 & B' & HB).
  cbn [map] in row. 
  eexists. split.
  - apply list_elem_of_In. eapply list_elem_of_lookup_2.
    rewrite lookup_zip_with, list_lookup_fmap, lookup_zip_with, Hrow, Hti, HB.
    cbn. reflexivity.
  - unfold Pk, sum_axis0. cbn [array_columns map zip_with].
    rewrite fdiv_zero_zero; [now left|].
    apply Forall_cons in Hzero as [H0 _]. exact H0.
Qed.

Lemma assoc_in {A} c (cols : list (string * A)) v :
  assoc c cols = Some v -> In (c, v) cols.
Proof.
  induction cols as [|[c' v'] cols IH]; [discriminate|]. cbn.
  destruct (String.eqb_spec c c') as [->|_].
  - intros [= ->]. now left.
  - intros H. right. now apply IH.
Qed.

Lemma numeric_lookup (col : list cell) (xs : list fval) :
  numeric col = inr xs ->
  length xs = length col /\
  forall i x, col !! i = Some (Num x) -> xs !! i = Some x.
Proof.
  revert xs. induction col as [|c col IH]; intros xs H.
  - injection H as <-. split; [reflexivity|]. intros i x Hx. discriminate.
  - cbn in H. destruct c as [y| |]; try discriminate.
    destruct (numeric col) as [e|ys]; [discriminate|]. injection H as <-.
    destruct (IH ys eq_refl) as [Hl Hi]. split; [cbn; now rewrite Hl|].
    intros [|i] x Hx; cbn in *; [now injection Hx as -> | now apply Hi].
Qed.

Lemma selected_numeric cols gs sel arrs :
  select_columns cols gs = inr sel ->
  numeric_columns sel = inr arrs ->
  Forall2 (fun g xs => exists col, assoc g cols = Some col /\ numeric col = inr xs)
    gs arrs.
Proof.
  revert sel arrs. induction gs as [|g gs IH]; intros sel arrs Hs Hn.
  - injection Hs as <-. injection Hn as <-. constructor.
  - cbn in Hs. destruct (assoc g cols) as [col|] eqn:Hg; [|discriminate].
    destruct (select_columns cols gs) as [e|r] eqn:Hr; [discriminate|].
    injection Hs as <-. cbn in Hn.
    destruct (numeric col) as [e|xs] eqn:Hc.
    { destruct (numeric_columns r); discriminate. }
    destruct (numeric_columns r) as [e|rest] eqn:Hrest; [discriminate|].
    injection Hn as <-. constructor; [now exists col|].
    now apply (IH r rest).
Qed.

Lemma drop_nan_rows_in_place : in_place_unchanged Sample.drop_nan_rows.
Proof.
  intros df warned df' filtered. unfold Sample.drop_nan_rows.
  destruct (forallb _ _); intros [= _ <- _]; reflexivity.
Qed.

Lemma multi_dissim_inr h data groups stat core gs :
  in_place_unchanged h ->
  (_multi_dissim h data groups).2 = inr (stat, core, gs) ->
  exists sel arrs,
    select_columns (columns data) groups = inr sel /\
    numeric_columns sel = inr arrs /\
    core = mkFrame (geo data && existsb (String.eqb (geometry_name data)) groups)
             (geometry_name data) (nrows data) sel /\
    stat = multi_dissim_statistic (mkArray (nrows data) arrs) /\
    gs = groups.
Proof.
  intros Hh. unfold _multi_dissim, select.
  destruct (select_columns (columns data) groups) as [e|sel]; [discriminate|].
  destruct (h _) as [warned [e|[core' filtered]]] eqn:Hcall; [discriminate|].
  apply Hh in Hcall as ->. unfold to_numpy. cbn [columns nrows].
  destruct (numeric_columns sel) as [e|arrs] eqn:Hn; [discriminate|].
  cbn [snd]. intros [= <- <- <-]. now exists sel, arrs.
Qed.

(** X5.  With a single group the multigroup dissimilarity index is not a
    number, whatever the counts: the interaction term [Pk (1 - Pk)] is 0
    or NaN, and so is every term of the sum.  (The NaN handler is any one
    that leaves the frame it is given as it was.) *)
Theorem multi_dissim_single_group_nan h data g stat core gs :
  in_place_unchanged h ->
  rectangular data ->
  (_multi_dissim h data [g]).2 = inr (stat, core, gs) ->
  stat = NaN.
Proof.
  intros Hh Hrect H.
  apply multi_dissim_inr in H as (sel & arrs & Hs & Hn & _ & -> & _);
    [|exact Hh].
  pose proof (selected_numeric _ _ _ _ Hs Hn) as HF.
  inversion HF as [|g' xs gs' arrs' (col & Hg & Hc) HF']; subst.
  inversion HF'; subst.
  apply assoc_in in Hg.
  pose proof (proj1 (List.Forall_forall _ _) Hrect _ Hg) as Hlen. cbn in Hlen.
  apply numeric_lookup in Hc as [Hl _].
  rewrite <- Hlen, <- Hl. apply single_column_nan.
Qed.

(** X6.  One unit without any member of any group (a row of zeros) makes
    the multigroup dissimilarity index NaN: the shares [pik] of that unit
    are [0 / 0].  (The NaN handler is any one that leaves the frame it is
    given as it was.) *)
Theorem multi_dissim_empty_unit_nan h data groups i stat core gs :
  in_place_unchanged h ->
  rectangular data -> groups <> [] ->
  (forall g, In g groups ->
     exists col q, getitem data g = inr col /\
       col !! i = Some (Num (Fin q)) /\ (q == 0)%Q) ->
  (_multi_dissim h data groups).2 = inr (stat, core, gs) ->
  stat = NaN.
Proof.
  intros Hh Hrect Hne Hrow H.
  apply multi_dissim_inr in H as (sel & arrs & Hs & Hn & _ & -> & _);
    [|exact Hh].
  pose proof (selected_numeric _ _ _ _ Hs Hn) as HF.
  assert (Hcols : Forall (fun c => length c = nrows data /\
                                   exists x, c !! i = Some x /\ is_zero x) arrs).
  { clear Hs Hn Hne. induction HF as [|g xs gs' arrs' (col & Hg & Hc) _ IH];
      [constructor|].
    constructor.
    - destruct (Hrow g (or_introl eq_refl)) as (col' & q & Hget & Hi & Hq).
      unfold getitem in Hget. rewrite Hg in Hget. injection Hget as <-.
      apply numeric_lookup in Hc as [Hl Hlook]. split.
      + rewrite Hl. apply assoc_in in Hg.
        exact (proj1 (List.Forall_forall _ _) Hrect _ Hg).
      + exists (Fin q). split; [now apply Hlook | now exists q].
    - apply IH. intros g' Hg'. apply Hrow. now right. }
  destruct arrs as [|c0 arrs'].
  { inversion HF; subst. contradiction. }
  apply (empty_row_nan _ _ i); [discriminate| |].
  - apply Forall_cons in Hcols as [[Hl (x & Hx & _)] _].
    rewrite <- Hl. now apply lookup_lt_Some in Hx.
  - eapply Forall_impl; [exact Hcols|]. now intros c [_ Hc].
Qed.

Lemma multi_dissim_single_group_nan_witness :
  exists stat core gs,
    (_multi_dissim Sample.drop_nan_rows Sample.districts ["A"]).2
    = inr (stat, core, gs) /\ stat = NaN.
Proof.
  assert (Hrect : rectangular Sample.districts) by (repeat constructor).
  assert (Hrun :
    (_multi_dissim Sample.drop_nan_rows Sample.districts ["A"]).2
    = inr (NaN,
           mkFrame false "geometry" 3 [("A", Sample.column_of [10; 20; 30])],
           ["A"])) by (vm_compute; reflexivity).
  eexists _, _, _. split; [exact Hrun|].
  exact (multi_dissim_single_group_nan _ _ _ _ _ _ drop_nan_rows_in_place
           Hrect Hrun).
Defined.

Lemma multi_dissim_empty_unit_nan_witness :
  exists stat core gs,
    (_multi_dissim Sample.drop_nan_rows Cases.wards ["A"; "B"]).2
    = inr (stat, core, gs) /\ stat = NaN.
Proof.
  assert (Hrect : rectangular Cases.wards) by (repeat constructor).
  assert (Hrun :
    (_multi_dissim Sample.drop_nan_rows Cases.wards ["A"; "B"]).2
    = inr (NaN, Cases.wards, ["A"; "B"])) by (vm_compute; reflexivity).
  eexists _, _, _. split; [exact Hrun|].
  refine (multi_dissim_empty_unit_nan _ _ _ 1 _ _ _ drop_nan_rows_in_place
            Hrect _ _ Hrun);
    [discriminate|].
  intros g [<-|[<-|[]]]; eexists _, 0%Q; repeat split; reflexivity.
Defined.

Lemma select_columns_missing cols gs g :
  In g gs -> assoc g cols = None ->
  exists g', In g' gs /\ assoc g' cols = None /\
    select_columns cols gs = inl (KeyError g').
Proof.
  induction gs as [|g0 gs IH]; [contradiction|].
  intros Hin Hg. cbn [select_columns].
  destruct (assoc g0 cols) as [v|] eqn:H0.
  - destruct Hin as [->|Hin]; [congruence|].
    destruct (IH Hin Hg) as (g' & Hin' & Hg' & ->).
    exists g'. repeat split; [now right | assumption].
  - exists g0. repeat split; [now left | assumption].
Qed.

Lemma select_columns_inr cols gs sel :
  select_columns cols gs = inr sel ->
  sel.*1 = gs /\ forall g, In g gs -> assoc g sel = assoc g cols.
Proof.
  revert sel. induction gs as [|g0 gs IH]; intros sel H.
  - injection H as <-. split; [reflexivity | contradiction].
  - cbn [select_columns] in H.
    destruct (assoc g0 cols) as [v|] eqn:H0; [|discriminate].
    destruct (select_columns cols gs) as [e|r] eqn:Hr; [discriminate|].
    injection H as <-. destruct (IH r eq_refl) as [Hn Ha]. split.
    + cbn. now rewrite Hn.
    + intros g Hin. cbn [assoc].
      destruct (String.eqb_spec g g0) as [->|Hne]; [now rewrite H0|].
      destruct Hin as [->|Hin]; [contradiction | now apply Ha].
Qed.

(** X7.  The multigroup dissimilarity index fails with a KeyError naming
    a group that is not a column of the data, before the NaN handler is
    consulted (no warning); when it returns, with a handler that leaves
    the frame it is given as it was, the core data it hands back has
    exactly the columns [groups], in that order and with the cells of the
    data, and the groups are returned as they were given. *)
Theorem multi_dissim_columns h data groups :
  (forall g, In g groups -> has_column data g = false ->
     exists g', In g' groups /\ has_column data g' = false /\
       _multi_dissim h data groups = ([], inl (KeyError g'))) /\
  (in_place_unchanged h ->
   forall stat core gs,
     (_multi_dissim h data groups).2 = inr (stat, core, gs) ->
     gs = groups /\ column_names core = groups /\
     nrows core = nrows data /\
     forall g, In g groups -> getitem core g = getitem data g).
Proof.
  split.
  - intros g Hin Hg. unfold has_column in Hg.
    destruct (assoc g (columns data)) eqn:Ha; [discriminate|].
    destruct (select_columns_missing _ _ _ Hin Ha) as (g' & Hin' & Hg' & Hs).
    exists g'. unfold has_column, _multi_dissim, select.
    now rewrite Hg', Hs.
  - intros Hh stat core gs H.
    apply multi_dissim_inr in H as (sel & arrs & Hs & _ & -> & _ & ->);
      [|exact Hh].
    apply select_columns_inr in Hs as [Hn Ha].
    unfold column_names, getitem. cbn [columns nrows].
    repeat split; [assumption|]. intros g Hin. now rewrite Ha.
Qed.

Lemma multi_dissim_columns_witness :
  (exists g',
     _multi_dissim Sample.drop_nan_rows Sample.districts ["A"; "D"; "E"]
     = ([], inl (KeyError g'))) /\
  column_names Sample.districts = ["A"; "B"; "C"].
Proof.
  split.
  - destruct (proj1 (multi_dissim_columns Sample.drop_nan_rows
                       Sample.districts ["A"; "D"; "E"]) "E")
      as (g' & _ & _ & Hrun); [cbn; tauto | reflexivity |].
    now exists g'.
  - assert (Hrun :
      (_multi_dissim Sample.drop_nan_rows Sample.districts ["A"; "B"; "C"]).2
      = inr (Fin (1 # 4), Sample.districts, ["A"; "B"; "C"]))
      by (vm_compute; reflexivity).
    exact (proj1 (proj2 (proj2 (multi_dissim_columns _ _ _)
                           drop_nan_rows_in_place _ _ _ Hrun))).
Defined.

(** ** What the engines add to the log *)

Section Discipline.

Variable env : Env.
Variable still : bool.
Variable P : event -> Prop.

Lemma within_refl w : within still P w w.
Proof.
  split; [destruct still; lia|]. exists []. now rewrite app_nil_r.
Qed.

Lemma within_trans w1 w2 w3 :
  within still P w1 w2 -> within still P w2 w3 -> within still P w1 w3.
Proof.
  intros [Hd1 (e1 & Hl1 & HP1)] [Hd2 (e2 & Hl2 & HP2)]. split.
  - destruct still; lia.
  - exists (e1 ++ e2). rewrite Hl2, Hl1, (assoc_L (++)).
    split; [reflexivity | now apply Forall_app].
Qed.

Lemma within_heap w h : within still P w (mkWorld h (draws w) (log w)).
Proof.
  split; [destruct still; cbn; lia|]. exists []. cbn. now rewrite app_nil_r.
Qed.

Lemma keeps_ret {A} (a : A) : keeps still P (mret a).
Proof. intros w. apply within_refl. Qed.

Lemma keeps_raise {A} (e : exn) : keeps still P (raise e : M A).
Proof. intros w. apply within_refl. Qed.

Lemma keeps_lift {A} (r : exn + A) : keeps still P (lift r).
Proof. intros w. apply within_refl. Qed.

Lemma keeps_bind {A B} (m : M A) (k : A -> M B) :
  keeps still P m -> (forall a, keeps still P (k a)) -> keeps still P (m ≫= k).
Proof.
  intros Hm Hk w. rewrite bind_run. specialize (Hm w).
  destruct (m w) as [[e|a] w1]; cbn [snd] in *; [exact Hm|].
  eapply within_trans; [exact Hm | apply Hk].
Qed.

Lemma keeps_raise_bind {A B} (e : exn) (k : A -> M B) :
  keeps still P (raise e ≫= k).
Proof. intros w. apply within_refl. Qed.

Lemma keeps_alloc df : keeps still P (alloc df).
Proof. intros w. apply within_heap. Qed.

Lemma keeps_load r : keeps still P (load r).
Proof. intros w. unfold load. destruct (heap w !! r); apply within_refl. Qed.

Lemma keeps_store r df : keeps still P (store r df).
Proof. intros w. apply within_heap. Qed.

Lemma keeps_emit ev : P ev -> keeps still P (emit ev).
Proof.
  intros Hev w. split; [destruct still; cbn; lia|]. exists [ev].
  split; [reflexivity | now constructor].
Qed.

Lemma keeps_for_range {S} n (body : nat -> S -> M S) (s : S) :
  (forall i s', i < n -> keeps still P (body i s')) ->
  keeps still P (for_range n body s).
Proof.
  intros Hb. induction n as [|n IH]; cbn [for_range]; [apply keeps_ret|].
  apply keeps_bind; [apply IH; intros; apply Hb; lia | intros; apply Hb; lia].
Qed.

Lemma keeps_mapM {A B} (f : A -> M B) (l : list A) :
  (forall x, keeps still P (f x)) -> keeps still P (mapM f l).
Proof.
  intros Hf. induction l as [|x l IH]; cbn [mapM]; [apply keeps_ret|].
  apply keeps_bind; [apply Hf|]. intros y.
  apply keeps_bind; [exact IH|]. intros ys. apply keeps_ret.
Qed.

Lemma keeps_call_index f df args kw :
  (forall outcome, P (CallIndex f args outcome)) ->
  keeps still P (call_index env f df args kw).
Proof.
  intros HP. unfold call_index.
  destruct (apply_index env f df args kw) as [msg|[stat core]];
    (apply keeps_bind; [now apply keeps_emit | intros]);
    [apply keeps_raise | apply keeps_ret].
Qed.

Lemma keeps_call_generator a b g t second approach :
  P (CallGenerator g t second approach) ->
  keeps still P (call_generator env a b g t second approach).
Proof.
  intros HP. unfold call_generator.
  apply keeps_bind; [now apply keeps_emit | intros].
  destruct (_generate_counterfactual env a b g t second approach);
    [apply keeps_raise | apply keeps_ret].
Qed.

Lemma keeps_report i n : P (Progress (i + 1) n) -> keeps still P (report i n).
Proof. apply keeps_emit. Qed.

Lemma keeps_item {A} (l : list A) i : keeps still P (item l i).
Proof. unfold item. destruct (l !! i); [apply keeps_ret | apply keeps_raise]. Qed.

End Discipline.

Lemma keeps_draw P : keeps false P draw.
Proof.
  intros w. split; [cbn; lia|]. exists []. cbn. now rewrite app_nil_r.
Qed.

Lemma keeps_weaken {A} (m : M A) still (P P' : event -> Prop) :
  keeps true P m -> (forall ev, P ev -> P' ev) -> keeps still P' m.
Proof.
  intros Hm HP w. destruct (Hm w) as [Hd (evs & Hl & Hevs)]. split.
  - destruct still; lia.
  - exists evs. split; [assumption|]. eapply Forall_impl; eauto.
Qed.

Create HintDb keeps.

#[export] Hint Resolve keeps_ret keeps_raise keeps_lift keeps_alloc keeps_load
  keeps_store keeps_draw keeps_item keeps_raise_bind : keeps.

#[export] Hint Extern 2 (keeps _ _ (if ?c then _ else _)) => destruct c : keeps.

#[export] Hint Extern 2 (keeps _ _ (match ?c with Some _ => _ | None => _ end)) =>
  destruct c : keeps.

(** One statement after the other. *)
Ltac tally :=
  repeat lazymatch goal with
         | |- keeps _ _ (raise _ ≫= _) => apply keeps_raise_bind
         | |- keeps _ _ (_ ≫= _) => apply keeps_bind; [|cbv beta; intros]
         end;
  try solve [eauto with keeps].

Section Helpers.

Variable env : Env.
Variable still : bool.
Variable P : event -> Prop.

Lemma keeps_not_implemented {A} : keeps still P (not_implemented : M A).
Proof. apply keeps_raise. Qed.

Lemma keeps_not_a_geodataframe {A} : keeps still P (not_a_geodataframe : M A).
Proof. apply keeps_raise. Qed.

Lemma keeps_copy r : keeps still P (copy r).
Proof. unfold copy. tally. Qed.

Lemma keeps_column r c : keeps still P (column r c).
Proof. unfold column. tally. Qed.

Local Hint Resolve keeps_column : keeps.

Lemma keeps_numbers r c : keeps still P (numbers r c).
Proof. unfold numbers. tally. Qed.

Lemma keeps_setitem_ref r c vals : keeps still P (setitem_ref r c vals).
Proof. unfold setitem_ref. tally. Qed.

Lemma keeps_setitem_scalar_ref r c v :
  keeps still P (setitem_scalar_ref r c v).
Proof. unfold setitem_scalar_ref. tally. Qed.

Local Hint Resolve keeps_numbers keeps_setitem_ref : keeps.

Lemma keeps_attach_geometry data df_aux :
  keeps still P (attach_geometry data df_aux).
Proof. unfold attach_geometry. tally. Qed.

Lemma keeps_systematic_frame sim0 sim1 i :
  keeps still P (systematic_frame sim0 sim1 i).
Proof. unfold systematic_frame. tally. Qed.

Lemma keeps_p_null_of seg_class data : keeps still P (p_null_of seg_class data).
Proof. unfold p_null_of. tally. Qed.

Lemma keeps_round_column data c : keeps still P (round_column data c).
Proof. unfold round_column. tally. Qed.

Lemma keeps_round_columns data g t : keeps still P (round_columns data g t).
Proof. unfold round_columns. tally. Qed.

Lemma keeps_restrict_and_rename data g t :
  keeps still P (restrict_and_rename data g t).
Proof. unfold restrict_and_rename. tally. Qed.

End Helpers.

#[export] Hint Resolve keeps_not_implemented keeps_not_a_geodataframe
  keeps_copy keeps_column keeps_numbers keeps_setitem_ref
  keeps_setitem_scalar_ref keeps_attach_geometry keeps_systematic_frame
  keeps_p_null_of keeps_round_column keeps_round_columns
  keeps_restrict_and_rename : keeps.

Section Drawing.

Variable env : Env.
Variable P : event -> Prop.

Lemma keeps_shuffle_geometry df name :
  keeps false P (shuffle_geometry env df name).
Proof. unfold shuffle_geometry. tally. Qed.

Lemma keeps_systematic_draws seg_class n data :
  keeps false P (systematic_draws env seg_class n data).
Proof. unfold systematic_draws. tally. Qed.

Lemma keeps_evenness_frame seg_class data p_null :
  keeps false P (evenness_frame env seg_class data p_null).
Proof. unfold evenness_frame. tally. Qed.

End Drawing.

#[export] Hint Resolve keeps_shuffle_geometry keeps_systematic_draws
  keeps_evenness_frame : keeps.

(** An event of the kind the engine is allowed. *)
Ltac event_ok :=
  unfold infer_event, compare_event; known_approach; cbv iota;
  unfold own_args, simulated_args, stacked_args;
  repeat match goal with H : kind _ = _ |- _ => rewrite H end;
  first [ split; [reflexivity | lia]
        | split; [reflexivity | reflexivity]
        | split; [now left | reflexivity]
        | split; [now right | reflexivity]
        | left; split; reflexivity
        | right; split; reflexivity
        | reflexivity ].

#[export] Hint Extern 1 (keeps _ _ (call_index _ _ _ _ _)) =>
  apply keeps_call_index; intros; event_ok : keeps.

#[export] Hint Extern 1 (keeps _ _ (report _ _)) =>
  apply keeps_report; event_ok : keeps.

Section InferLog.

Variable env : Env.
Variable seg_class : SegIndex.
Variable n : nat.
Variable kw : kwargs.

Lemma keeps_null_systematic st :
  keeps false (infer_event seg_class n "systematic")
    (null_systematic env seg_class n kw st).
Proof.
  unfold null_systematic. destruct (kind seg_class) eqn:Hk; tally.
  destruct a as [sim0 sim1]. apply keeps_for_range. intros i [d Es] Hi. tally.
Qed.

Lemma keeps_bootstrap_round i st :
  i < n ->
  keeps false (infer_event seg_class n "bootstrap")
    (bootstrap_round env seg_class n kw (own_args seg_class) i st).
Proof.
  intros Hi. destruct st as [d Es]. unfold bootstrap_round. tally.
Qed.

Lemma keeps_null_bootstrap st :
  keeps false (infer_event seg_class n "bootstrap")
    (null_bootstrap env seg_class n kw st).
Proof.
  unfold null_bootstrap.
  pose proof keeps_bootstrap_round as Hround. unfold own_args in Hround.
  destruct (kind seg_class) eqn:Hk; tally;
    apply keeps_for_range; intros; now apply Hround.
Qed.

Lemma keeps_null_evenness st :
  keeps false (infer_event seg_class n "evenness")
    (null_evenness env seg_class n kw st).
Proof.
  unfold null_evenness. destruct (kind seg_class) eqn:Hk; tally.
  - apply keeps_for_range. intros i [d Es] Hi. tally.
  - apply keeps_for_range. intros i [d Es] Hi. tally.
    apply keeps_mapM. intros. tally.
Qed.

Lemma keeps_null_permutation st :
  keeps false (infer_event seg_class n "permutation")
    (null_permutation env seg_class n kw st).
Proof.
  unfold null_permutation. destruct (kind seg_class) eqn:Hk; tally.
  apply keeps_for_range. intros i [d Es] Hi. tally.
Qed.

Lemma keeps_null_systematic_permutation st :
  keeps false (infer_event seg_class n "systematic_permutation")
    (null_systematic_permutation env seg_class n kw st).
Proof.
  unfold null_systematic_permutation. destruct (kind seg_class) eqn:Hk; tally.
  destruct a1 as [sim0 sim1]. apply keeps_for_range. intros i [d Es] Hi. tally.
Qed.

Lemma keeps_null_even_permutation st :
  keeps false (infer_event seg_class n "even_permutation")
    (null_even_permutation env seg_class n kw st).
Proof.
  unfold null_even_permutation. destruct (kind seg_class) eqn:Hk; tally.
  apply keeps_for_range. intros i [d Es] Hi. tally.
Qed.

Lemma keeps_remove_nan_inf still P est :
  P (Warning nan_inf_warning) -> keeps still P (remove_nan_inf est).
Proof.
  intros HP. unfold remove_nan_inf. destruct (existsb degenerate est); tally.
  now apply keeps_emit.
Qed.

Lemma keeps_builtin_sum_div still P mask k :
  keeps still P (builtin_sum_div mask k).
Proof.
  unfold builtin_sum_div. destruct mask, k; auto with keeps.
Qed.

Lemma keeps_only_if still P cond block st :
  (cond = true -> keeps still P (block st)) ->
  keeps still P (only_if cond block st).
Proof.
  intros Hb. unfold only_if. destruct cond; [now apply Hb | apply keeps_ret].
Qed.

Lemma keeps_infer approach two_tailed :
  keeps false (infer_event seg_class n approach)
    (_infer_segregation env seg_class n approach two_tailed kw).
Proof.
  unfold _infer_segregation. tally.
  - destruct two_tailed; auto with keeps.
  - apply keeps_only_if. intros ->%String.eqb_eq. apply keeps_null_systematic.
  - apply keeps_only_if. intros ->%String.eqb_eq. apply keeps_null_bootstrap.
  - apply keeps_only_if. intros ->%String.eqb_eq. apply keeps_null_evenness.
  - apply keeps_only_if. intros ->%String.eqb_eq. apply keeps_null_permutation.
  - apply keeps_only_if. intros ->%String.eqb_eq.
    apply keeps_null_systematic_permutation.
  - apply keeps_only_if. intros ->%String.eqb_eq.
    apply keeps_null_even_permutation.
  - now apply keeps_remove_nan_inf.
  - destruct (negb a0); [apply keeps_builtin_sum_div | apply keeps_ret].
Qed.

End InferLog.

Section CompareLog.

Variable env : Env.
Variables seg_class_1 seg_class_2 : SegIndex.
Variable n : nat.
Variable kw : kwargs.

Lemma keeps_random_label_round stacked i st :
  i < n ->
  keeps false (compare_event seg_class_1 seg_class_2 n "random_label")
    (random_label_round env seg_class_1 seg_class_2 n kw
       (stacked_args seg_class_1) stacked i st).
Proof.
  intros Hi. destruct st as [[d1 d2] est]. unfold random_label_round. tally.
Qed.

Lemma keeps_compare_random_label st :
  keeps false (compare_event seg_class_1 seg_class_2 n "random_label")
    (compare_random_label env seg_class_1 seg_class_2 n kw st).
Proof.
  destruct st as [[d1 d2] est]. unfold compare_random_label.
  pose proof keeps_random_label_round as Hround.
  unfold stacked_args in Hround.
  destruct (kind seg_class_1) eqn:Hk; tally.
  - apply keeps_for_range. intros. now apply Hround.
  - destruct a1 as [[d1' d2'] est']. tally.
    + apply keeps_for_range. intros i [] Hi. tally.
    + apply keeps_for_range. intros. now apply Hround.
Qed.

Lemma keeps_counterfactual_side P seg_class data counterfac_df :
  (forall outcome,
     P (CallIndex (_function seg_class)
          (Single "test_group_pop_var" (total_pop_var seg_class)) outcome)) ->
  keeps false P (counterfactual_side env seg_class kw data counterfac_df).
Proof.
  intros HP. unfold counterfactual_side. tally.
  now apply keeps_call_index.
Qed.

Lemma keeps_compare_counterfactual approach st :
  member approach counterfactual_approaches = true ->
  keeps false (compare_event seg_class_1 seg_class_2 n approach)
    (compare_counterfactual env seg_class_1 seg_class_2 n approach kw st).
Proof.
  intros Hm. apply member_cases in Hm.
  destruct st as [[d1 d2] est]. unfold compare_counterfactual.
  destruct Hm as [<-|[<-|[<-|[]]]];
    (tally;
     [ apply keeps_call_generator; repeat split; reflexivity
     | destruct a2 as [cf1 cf2]; tally;
       [ destruct (member _ _); tally
       | apply keeps_for_range; intros i [[d1' d2'] est'] Hi;
         (apply keeps_bind;
          [apply keeps_counterfactual_side; intros; event_ok|]);
         intros [s1 d1''];
         (apply keeps_bind;
          [apply keeps_counterfactual_side; intros; event_ok|]);
         intros [s2 d2'']; tally ] ]).
Qed.

Lemma keeps_only_if2 still P cond block st :
  (cond = true -> keeps still P (block st)) ->
  keeps still P (only_if2 cond block st).
Proof.
  intros Hb. unfold only_if2. destruct cond; [now apply Hb | apply keeps_ret].
Qed.

Lemma keeps_compare approach :
  keeps false (compare_event seg_class_1 seg_class_2 n approach)
    (_compare_segregation env seg_class_1 seg_class_2 n approach kw).
Proof.
  unfold _compare_segregation. tally.
  - apply keeps_only_if2. intros ->%String.eqb_eq.
    apply keeps_compare_random_label.
  - apply keeps_only_if2. apply keeps_compare_counterfactual.
  - now apply keeps_remove_nan_inf.
Qed.

End CompareLog.

(** X8.  Whatever the outcome of a run of the single-sample engine, what
    it has added to the log is made of calls of the index formula of
    [seg_class] (on the variables of the index under "bootstrap" and
    "permutation", on the simulated variables "simul_group" and
    "simul_tot", or the groups of a multigroup index, under the other
    approaches), of progress reports [i] out of [n] with [1 <= i <= n],
    and of the warning about NaN and infinite estimates; the
    counterfactual generator is never called, nothing is taken back from
    the log, and the draw counter only advances. *)
Theorem infer_log_discipline env seg_class n approach two_tailed kw w :
  let w' := (_infer_segregation env seg_class n approach two_tailed kw w).2 in
  draws w <= draws w' /\
  exists evs,
    log w' = log w ++ evs /\
    Forall (infer_event seg_class n approach) evs.
Proof. apply (keeps_infer env seg_class n kw approach two_tailed w). Qed.

(** X9.  Whatever the outcome of a run of the two-sample engine, what it
    has added to the log is made of calls of the index formulas of the
    two indices (on the stacked variables "group" and "total", or the
    groups of a multigroup index, under "random_label"; on
    "test_group_pop_var" and the total variable of the index under the
    counterfactual approaches), of calls of the counterfactual generator
    with the variables of the two indices and the null approach without
    its prefix "counterfactual_", of progress reports [i] out of [n], and
    of the warning about NaN and infinite estimates. *)
Theorem compare_log_discipline env seg_class_1 seg_class_2 n approach kw w :
  let w' :=
    (_compare_segregation env seg_class_1 seg_class_2 n approach kw w).2 in
  draws w <= draws w' /\
  exists evs,
    log w' = log w ++ evs /\
    Forall (compare_event seg_class_1 seg_class_2 n approach) evs.
Proof. apply (keeps_compare env seg_class_1 seg_class_2 n kw approach w). Qed.

(** ** Random labelling of multigroup indices over different groups *)

Lemma list_eqb_true (a b : list string) : list_eqb a b = true -> a = b.
Proof.
  unfold list_eqb. revert b. induction a as [|x a IH]; intros [|y b] H;
    try reflexivity; try discriminate.
  cbn in H. apply andb_prop in H as [Hl H].
  apply andb_prop in H as [Hxy H]. unfold id in Hxy.
  apply String.eqb_eq in Hxy. subst y. f_equal. apply IH.
  now rewrite Hl, H.
Qed.

Lemma list_eqb_differ (a b : list string) : a <> b -> list_eqb a b = false.
Proof.
  intros Hne. destruct (list_eqb a b) eqn:H; [|reflexivity].
  now apply list_eqb_true in H.
Qed.

Section Mismatch.

Variable env : Env.
Variables seg_class_1 seg_class_2 : SegIndex.
Variable n : nat.
Variable kw : kwargs.
Hypothesis multigroup : kind seg_class_1 = MultiGroupIndex.
Hypothesis differ : groups seg_class_1 <> groups seg_class_2.

Lemma mismatch_never_returns st w st' w' :
  compare_random_label env seg_class_1 seg_class_2 n kw st w
  <> (inr st', w').
Proof.
  intros H. destruct st as [[d1 d2] est]. unfold compare_random_label in H.
  rewrite multigroup in H.
  apply bind_inr in H as (u1 & w1 & _ & H).
  apply bind_inr in H as (u2 & w2 & _ & H).
  apply bind_inr in H as (st1 & w3 & _ & H).
  destruct st1 as [[d1' d2'] est'].
  apply bind_inr in H as (u3 & w4 & _ & H).
  apply bind_inr in H as (u4 & w5 & H & _).
  rewrite (list_eqb_differ _ _ differ) in H. discriminate.
Qed.

Lemma mismatch_keeps_still st :
  keeps true nothing
    (compare_random_label env seg_class_1 seg_class_2 n kw st).
Proof.
  destruct st as [[d1 d2] est]. unfold compare_random_label.
  rewrite multigroup. tally.
  destruct a1 as [[d1' d2'] est']. rewrite (list_eqb_differ _ _ differ).
  cbn [negb]. tally.
  apply keeps_for_range. intros i [] Hi. tally.
Qed.

End Mismatch.

Lemma copy_inl r w e w' :
  copy r w = (inl e, w') -> e = External "unbound reference" /\ w' = w.
Proof.
  unfold copy, load, alloc. rewrite bind_run.
  destruct (heap w !! r); [discriminate|]. intros H. now injection H as <- <-.
Qed.

Lemma within_nothing w w' :
  within true nothing w w' -> draws w' = draws w /\ log w' = log w.
Proof.
  intros [Hd (evs & Hl & Hevs)]. split; [assumption|].
  destruct evs as [|ev evs]; [now rewrite app_nil_r in Hl|].
  apply Forall_cons in Hevs as [[] _].
Qed.

Lemma mismatch_or_library_lib e :
  own_raise e = false ->
  e = ValueError "MultiGroup groups should be the same" \/ own_raise e = false.
Proof. now right. Qed.

(** X10.  Two multigroup indices of the same class over different lists of
    groups cannot be compared by random labelling: the run always raises,
    either the engine's "MultiGroup groups should be the same" or a
    failure of pandas while the group columns are rounded, and it does so
    before any random draw and before any call of an index formula. *)
Theorem multigroup_groups_must_match env seg_class_1 seg_class_2 n kw w :
  kind seg_class_1 = MultiGroupIndex ->
  class_name seg_class_1 = class_name seg_class_2 ->
  groups seg_class_1 <> groups seg_class_2 ->
  exists e w',
    _compare_segregation env seg_class_1 seg_class_2 n "random_label" kw w
    = (inl e, w') /\
    (e = ValueError "MultiGroup groups should be the same" \/
     own_raise e = false) /\
    draws w' = draws w /\ log w' = log w.
Proof.
  intros Hk Hc Hg. unfold _compare_segregation.
  rewrite bind_run. known_approach. cbn [negb mret M_ret].
  rewrite bind_run, Hc, String.eqb_refl. cbn [negb mret M_ret].
  rewrite bind_run.
  destruct (copy (data seg_class_1) w) as [[e|d1] w1] eqn:H1.
  { apply copy_inl in H1 as [-> ->]. eexists _, _.
    split; [reflexivity|]. split; [now right | now split]. }
  apply copy_inr in H1 as (df1 & _ & -> & ->). rewrite bind_run.
  destruct (copy (data seg_class_2) _) as [[e|d2] w2] eqn:H2.
  { apply copy_inl in H2 as [-> ->]. eexists _, _.
    split; [reflexivity|]. split; [now right | now split]. }
  apply copy_inr in H2 as (df2 & _ & -> & ->). cbn [heap draws log].
  rewrite bind_run. unfold only_if2 at 1. cbv iota.
  match goal with
  | |- context [compare_random_label ?e ?a ?b ?c ?d ?st ?w0] =>
      pose proof (mismatch_keeps_still e a b c d Hk Hg st w0) as Hstill;
      pose proof (safe_compare_random_label e 0 _ mismatch_or_library_lib
                    a b c d st (or_introl eq_refl)) as Hsafe;
      destruct (compare_random_label e a b c d st w0) as [[e'|st'] w3] eqn:Hb
  end.
  - apply within_nothing in Hstill as [Hd Hl]. cbn [snd draws log] in Hd, Hl.
    eexists _, _. split; [reflexivity|]. split; [|now split].
    eapply (safe_run 0) in Hb as [_ Ho]; [exact Ho | apply Hsafe | lia].
    repeat split; [lia..|]. cbn [snd]. unfold np_empty.
    now rewrite List.length_map, List.length_seq.
  - exfalso. now apply mismatch_never_returns in Hb.
Qed.

Lemma multigroup_groups_must_match_witness :
  let other :=
    mkIndex "segregation.multigroup.multi_dissim.MultiDissim" MultiGroupIndex
      (Fin (1 # 4)) 9 "" "" ["A"; "B"] "_multi_dissim" in
  exists e w',
    _compare_segregation Sample.env Sample.districts_index other 500
      "random_label" [] Sample.world = (inl e, w') /\
    (e = ValueError "MultiGroup groups should be the same" \/
     own_raise e = false) /\
    draws w' = 0 /\ log w' = [].
Proof.
  intros other.
  apply (multigroup_groups_must_match Sample.env Sample.districts_index other
           500 [] Sample.world eq_refl eq_refl).
  discriminate.
Defined.

(** ** Random labelling of counts that are not finite *)

Lemma assoc_set_other {A} c c' (v : A) cols :
  c <> c' -> assoc c (assoc_set c' v cols) = assoc c cols.
Proof.
  intros Hne. induction cols as [|[c0 v0] cols IH]; cbn.
  - destruct (String.eqb_spec c c'); [contradiction | reflexivity].
  - destruct (String.eqb_spec c' c0) as [->|H0]; cbn.
    + destruct (String.eqb_spec c c0); [contradiction | reflexivity].
    + destruct (String.eqb_spec c c0); [reflexivity | exact IH].
Qed.

Lemma round_astype_int_non_finite xs :
  existsb (fun x => negb (isfinite x)) xs = true ->
  round_astype_int xs
  = inl (ValueError "Cannot convert non-finite values (NA or inf) to integer").
Proof.
  induction xs as [|x xs IH]; [discriminate|]. cbn [existsb round_astype_int].
  destruct x as [q| | |]; try reflexivity. cbn [isfinite isinf isnan negb orb].
  intros H. now rewrite IH.
Qed.

Lemma setitem_scalar_ref_run r c v df w :
  heap w !! r = Some df ->
  setitem_scalar_ref r c v w
  = (inr tt, mkWorld (<[r := setitem_scalar df c v]> (heap w)) (draws w) (log w)).
Proof. intros H. unfold setitem_scalar_ref. now rewrite bind_run, (load_run _ _ _ H). Qed.

Lemma numbers_run r c df col xs w :
  heap w !! r = Some df -> getitem df c = inr col -> numeric col = inr xs ->
  numbers r c w = (inr xs, w).
Proof.
  intros H Hc Hn. unfold numbers, column, lift.
  rewrite !bind_run, (load_run _ _ _ H). cbv iota beta. rewrite Hc.
  cbv iota beta. now rewrite Hn.
Qed.

Lemma random_label_non_finite env s1 s2 n kw d1 d2 est w fr1 col xs tcol ts :
  kind s1 = SingleGroupIndex ->
  heap w !! d1 = Some fr1 -> d2 < length (heap w) -> d1 <> d2 ->
  group_pop_var s1 <> "grouping_variable"%string ->
  total_pop_var s1 <> "grouping_variable"%string ->
  getitem fr1 (group_pop_var s1) = inr col -> numeric col = inr xs ->
  getitem fr1 (total_pop_var s1) = inr tcol -> numeric tcol = inr ts ->
  existsb (fun x => negb (isfinite x)) xs = true ->
  exists w',
    compare_random_label env s1 s2 n kw (d1, d2, est) w
    = (inl (ValueError "Cannot convert non-finite values (NA or inf) to integer"), w') /\
    draws w' = draws w /\ log w' = log w.
Proof.
  intros Hk H1 H2 Hne Hg Ht Hcol Hxs Htcol Hts Hbad.
  destruct (lookup_lt_is_Some_2 _ _ H2) as [fr2 Hfr2].
  unfold compare_random_label. rewrite Hk.
  rewrite bind_run, (setitem_scalar_ref_run _ _ _ _ _ H1).
  rewrite bind_run, (setitem_scalar_ref_run _ _ _ fr2).
  2:{ cbn [heap]. now rewrite list_lookup_insert_ne. }
  cbn [heap draws log].
  set (fr1' := setitem_scalar fr1 "grouping_variable" (Str "Group_1")).
  set (fr2' := setitem_scalar fr2 "grouping_variable" (Str "Group_2")).
  set (w2 := mkWorld _ _ _).
  assert (Hl1 : heap w2 !! d1 = Some fr1').
  { cbn [w2 heap]. rewrite list_lookup_insert_ne by auto.
    apply list_lookup_insert_eq. now apply lookup_lt_Some in H1. }
  assert (Hcol' : getitem fr1' (group_pop_var s1) = inr col).
  { unfold getitem, fr1', setitem_scalar in *. cbn [columns].
    now rewrite assoc_set_other. }
  assert (Htcol' : getitem fr1' (total_pop_var s1) = inr tcol).
  { unfold getitem, fr1', setitem_scalar in *. cbn [columns].
    now rewrite assoc_set_other. }
  rewrite !bind_run. unfold round_columns at 1.
  rewrite bind_run, (numbers_run _ _ _ _ _ _ Hl1 Hcol' Hxs).
  rewrite bind_run, (numbers_run _ _ _ _ _ _ Hl1 Htcol' Hts).
  rewrite bind_run. unfold lift at 1.
  rewrite (round_astype_int_non_finite _ Hbad).
  exists w2. now repeat split.
Qed.

(** X11.  Random labelling casts the two population columns of each index
    to integers first; when the group column of the first index holds a
    NaN or an infinite count, the two-sample engine fails with the
    ValueError of that cast, before any random draw and before any call of
    an index formula. *)
Theorem random_label_needs_finite_counts
    env seg_class_1 seg_class_2 n kw w frame1 frame2 col xs tcol ts :
  kind seg_class_1 = SingleGroupIndex ->
  class_name seg_class_1 = class_name seg_class_2 ->
  heap w !! data seg_class_1 = Some frame1 ->
  heap w !! data seg_class_2 = Some frame2 ->
  group_pop_var seg_class_1 <> "grouping_variable"%string ->
  total_pop_var seg_class_1 <> "grouping_variable"%string ->
  getitem frame1 (group_pop_var seg_class_1) = inr col ->
  numeric col = inr xs ->
  getitem frame1 (total_pop_var seg_class_1) = inr tcol ->
  numeric tcol = inr ts ->
  existsb (fun x => negb (isfinite x)) xs = true ->
  exists w',
    _compare_segregation env seg_class_1 seg_class_2 n "random_label" kw w
    = (inl (ValueError
              "Cannot convert non-finite values (NA or inf) to integer"),
       w') /\
    draws w' = draws w /\ log w' = log w.
Proof.
  intros Hk Hc Hf1 Hf2 Hg Ht Hcol Hxs Htcol Hts Hbad.
  unfold _compare_segregation.
  rewrite bind_run. known_approach. cbn [negb mret M_ret].
  rewrite bind_run, Hc, String.eqb_refl. cbn [negb mret M_ret].
  rewrite bind_run, (copy_run _ _ _ Hf1).
  rewrite bind_run, (copy_run _ frame2)
    by (cbn [heap]; now apply lookup_app_l_Some).
  cbn [heap draws log]. rewrite bind_run. unfold only_if2 at 1. cbv iota.
  destruct (random_label_non_finite env seg_class_1 seg_class_2 n kw
              (length (heap w)) (length (heap w ++ [frame1])) (np_empty env n)
              (mkWorld ((heap w ++ [frame1]) ++ [frame2]) (draws w) (log w))
              frame1 col xs tcol ts) as (w' & Hrun & Hd & Hl);
    try assumption.
  - cbn [heap]. rewrite <- (assoc_L (++)).
    rewrite lookup_app_r by lia. now rewrite Nat.sub_diag.
  - cbn [heap]. rewrite !length_app. cbn. lia.
  - rewrite length_app. cbn. lia.
  - match goal with
    | |- context [compare_random_label ?e ?a ?b ?c ?d ?st ?w0] =>
        destruct (compare_random_label e a b c d st w0) as [r w3] eqn:Hb
    end.
    pose proof (eq_trans (eq_sym Hb) Hrun) as Heq.
    injection Heq as -> ->. now exists w'.
Qed.

Lemma random_label_needs_finite_counts_witness :
  exists w',
    _compare_segregation Sample.env Cases.ledger_index Sample.index_a 500
      "random_label" [] Cases.world
    = (inl (ValueError
              "Cannot convert non-finite values (NA or inf) to integer"),
       w') /\
    draws w' = 0 /\ log w' = [].
Proof.
  apply (random_label_needs_finite_counts Sample.env Cases.ledger_index
           Sample.index_a 500 [] Cases.world Cases.ledger Sample.city_a
           [Num (Fin 10); Num NaN] [Fin 10; NaN]
           (Sample.column_of [20; 30]) [Fin 20; Fin 30]);
    try reflexivity; discriminate.
Defined.

(** ** The modified Gini index *)

Import ModifiedGini.

Lemma column_inr r c w col w' :
  column r c w = (inr col, w') ->
  exists df, heap w !! r = Some df /\ getitem df c = inr col /\ w' = w.
Proof.
  unfold column. intros H. apply bind_inr in H as (df & w1 & H1 & H2).
  apply load_inr in H1 as [H1 ->]. apply lift_inr in H2 as [H2 ->].
  now exists df.
Qed.

Lemma setitem_ref_inr r c vals w u w' :
  setitem_ref r c vals w = (inr u, w') ->
  exists df df', heap w !! r = Some df /\ setitem df c vals = inr df' /\
    w' = mkWorld (<[r := df']> (heap w)) (draws w) (log w).
Proof.
  unfold setitem_ref. intros H. apply bind_inr in H as (df & w1 & H1 & H).
  apply load_inr in H1 as [H1 ->]. apply bind_inr in H as (df' & w2 & H2 & H).
  apply lift_inr in H2 as [H2 ->]. unfold store in H. injection H as _ <-.
  now exists df, df'.
Qed.

Lemma external_inr {A} (r : string + A) w a w' :
  external r w = (inr a, w') -> r = inr a /\ w' = w.
Proof. destruct r; cbn; intros H; [discriminate|]. now injection H as <- <-. Qed.

Lemma df_column_inr df i w col w' :
  df_column df i w = (inr col, w') -> df !! i = Some col /\ w' = w.
Proof.
  unfold df_column. destruct (df !! i); intros H; [|discriminate].
  now injection H as <- <-.
Qed.

Section Draws.

Context {A B : Type} (f : nat -> A -> string + B).

Lemma mapM_draws_inr (ts : list A) w est w' :
  mapM (fun x => seed ← draw; external (f seed x)) ts w = (inr est, w') ->
  length est = length ts /\
  w' = mkWorld (heap w) (draws w + length ts) (log w) /\
  forall j tj, ts !! j = Some tj ->
    exists arr, est !! j = Some arr /\ f (draws w + j) tj = inr arr.
Proof.
  revert w est. induction ts as [|x ts IH]; intros w est H.
  - cbn in H. injection H as <- <-. split; [reflexivity|]. split.
    + destruct w. cbn. f_equal. lia.
    + intros j tj Hj. discriminate.
  - cbn [mapM] in H. apply bind_inr in H as (y & w1 & H1 & H).
    apply bind_inr in H1 as (seed & w0 & Hd & Hy).
    unfold draw in Hd. injection Hd as <- <-.
    apply external_inr in Hy as [Hy ->].
    apply bind_inr in H as (ys & w2 & H2 & H).
    apply ret_inr in H as [-> ->].
    apply IH in H2 as (Hl & -> & Hj). cbn [heap draws log length] in *.
    split; [now rewrite Hl|]. split; [f_equal; lia|].
    intros [|j] tj Htj; cbn in Htj.
    + injection Htj as <-. exists y. rewrite Nat.add_0_r. now split.
    + destruct (Hj j tj Htj) as (arr & Ha & Hf). exists arr. split; [exact Ha|].
      now replace (draws w + S j) with (S (draws w) + j) by lia.
Qed.

End Draws.

Lemma transposed_inr est df i col :
  transposed est = inr df -> df !! i = Some col ->
  col = map (fun a => default 0%Z (a !! i)) est.
Proof.
  unfold transposed. destruct est as [|arr est']; [intros [= <-]; discriminate|].
  destruct (forallb _ _); [|discriminate]. intros [= <-] Hi.
  rewrite list_lookup_fmap in Hi.
  destruct (seq 0 (length arr) !! i) as [k|] eqn:Hk; [|discriminate].
  apply lookup_seq in Hk as [-> _]. now injection Hi as <-.
Qed.

Lemma assoc_set_same {A} c (v : A) cols : assoc c (assoc_set c v cols) = Some v.
Proof.
  induction cols as [|[c0 v0] cols IH]; cbn.
  - now rewrite String.eqb_refl.
  - destruct (String.eqb_spec c c0) as [->|Hne]; cbn.
    + now rewrite String.eqb_refl.
    + destruct (String.eqb_spec c c0); [contradiction | exact IH].
Qed.

Lemma assoc_set_twice {A} c (v1 v2 : A) cols :
  assoc_set c v2 (assoc_set c v1 cols) = assoc_set c v2 cols.
Proof.
  induction cols as [|[c0 v0] cols IH]; cbn.
  - now rewrite String.eqb_refl.
  - destruct (String.eqb_spec c c0) as [->|Hne]; cbn.
    + now rewrite String.eqb_refl.
    + destruct (String.eqb_spec c c0); [contradiction | now rewrite IH].
Qed.

Lemma setitem_inr df c vals df' :
  setitem df c vals = inr df' -> df' = overwritten df c vals.
Proof.
  unfold setitem. destruct (Nat.eqb _ _); [|discriminate]. now intros [= <-].
Qed.

Lemma overwritten_twice df c v1 v2 :
  overwritten (overwritten df c v1) c v2 = overwritten df c v2.
Proof. unfold overwritten. cbn. now rewrite assoc_set_twice. Qed.

Section Rounds.

Variable env : Env.
Variables g t : string.
Variable df : list (list Z).
Variable d : ref.
Variable fr0 : DataFrame.

Lemma rounds_inr k Ds0 w1 Dsk wk :
  heap w1 !! d = Some fr0 ->
  for_range k (simulation_round env d g t df) Ds0 w1 = (inr Dsk, wk) ->
  exists vs,
    length vs = k /\
    wk = mkWorld (<[d := after_rounds df fr0 g k]> (heap w1)) (draws w1)
           (log w1 ++ map (gini_call g t) vs) /\
    length Dsk = length Ds0 /\
    (k <= length Ds0 -> take k Dsk = vs) /\
    (forall k', k = S k' -> is_Some (df !! k')).
Proof.
  intros Hd. revert Dsk wk. induction k as [|k IH]; intros Dsk wk H.
  - cbn in H. injection H as <- <-. exists []. cbn [after_rounds map length].
    rewrite app_nil_r, list_insert_id by assumption.
    split; [reflexivity|]. split; [now destruct w1|]. split; [reflexivity|].
    split; [intros _; apply take_0 | discriminate].
  - cbn [for_range] in H. apply bind_inr in H as (Ds' & w2 & H1 & H).
    apply IH in H1 as (vs & Hlen & -> & Hl & Ht & _).
    unfold simulation_round in H.
    apply bind_inr in H as (col & w3 & Hc & H).
    apply df_column_inr in Hc as [Hcol ->].
    apply bind_inr in H as (u & w4 & Hs & H).
    apply setitem_ref_inr in Hs as (fr & fr' & Hfr & Hset & ->).
    cbn [heap draws log] in *.
    assert (Hdl : d < length (heap w1)) by now apply lookup_lt_Some in Hd.
    rewrite list_lookup_insert_eq in Hfr by assumption. injection Hfr as <-.
    apply setitem_inr in Hset. rewrite list_insert_insert_eq in H.
    apply bind_inr in H as (frame & w5 & Hload & H).
    apply load_inr in Hload as [Hload ->]. cbn [heap] in Hload.
    apply bind_inr in H as (v & w6 & Hcall & H).
    apply call_index_inr in Hcall as [_ ->].
    apply ret_inr in H as [-> ->]. cbn [heap draws log].
    exists (vs ++ [v]). rewrite length_app, length_insert. cbn [length].
    split; [lia|]. split; [|split; [assumption|split]].
    + f_equal.
      * f_equal. rewrite Hset. cbn [after_rounds]. rewrite Hcol. cbn [default].
        destruct k; [reflexivity|]. cbn [after_rounds]. apply overwritten_twice.
      * rewrite map_app, (assoc_L (++)). reflexivity.
    + intros Hk. rewrite take_insert_next by lia. rewrite Ht by lia. reflexivity.
    + intros k' [= <-]. now exists col.
Qed.

End Rounds.

Lemma length_np_empty env n : length (np_empty env n) = n.
Proof. unfold np_empty. now rewrite List.length_map, List.length_seq. Qed.

Section Inversion.

Variable env : Env.
Variable numba_binom : nat -> Z -> fval -> nat -> string + list Z.
Variable cast_invalid : fval -> Z.
Variable cast_object : cell -> exn + Z.

Lemma modified_gini_inr data g t n w Dct core w' :
  _modified_gini env numba_binom cast_invalid cast_object data g t n w
  = (inr (Dct, core), w') ->
  exists frame D Ds xcells xs tcells ts est df,
    heap w !! data = Some frame /\
    getitem frame g = inr xcells /\ numeric xcells = inr xs /\
    getitem frame t = inr tcells /\
    cast_column cast_invalid cast_object tcells = inr ts /\
    length est = length ts /\
    (forall j tj, ts !! j = Some tj ->
       exists arr, est !! j = Some arr /\
         numba_binom (draws w + j) tj
           (fdiv (fsum xs) (of_Z (int_sum ts))) n = inr arr) /\
    transposed est = inr df /\
    (forall k, n = S k -> is_Some (df !! k)) /\
    length Ds = n /\
    Dct = adjusted D (np_mean Ds) /\
    (let final := after_rounds df frame g n in
     (if negb (geo final) then select final [g; t]
      else select final [g; t; geometry_name final]) = inr core /\
     w' = mkWorld (heap w ++ [final]) (draws w + length ts)
            (log w ++ gini_call g t D :: map (gini_call g t) Ds)).
Proof.
  unfold _modified_gini. intros H.
  apply bind_inr in H as (d & w1 & H1 & H).
  apply copy_inr in H1 as (frame & Hf & -> & ->).
  assert (Hd : (heap w ++ [frame]) !! length (heap w) = Some frame).
  { rewrite lookup_app_r by lia. now rewrite Nat.sub_diag. }
  apply bind_inr in H as (fr & w2 & H2 & H).
  apply load_inr in H2 as [H2 ->]. cbn [heap] in H2.
  pose proof (eq_trans (eq_sym H2) Hd) as [= ->].
  apply bind_inr in H as (D & w3 & H3 & H).
  apply call_index_inr in H3 as [_ ->]. cbn [heap draws log] in H.
  apply bind_inr in H as (xcells & w4 & H4 & H).
  apply column_inr in H4 as (fr & Hfr & Hx & ->). cbn [heap] in Hfr.
  pose proof (eq_trans (eq_sym Hfr) Hd) as [= ->]. clear Hfr.
  apply bind_inr in H as (tcells & w5 & H5 & H).
  apply column_inr in H5 as (fr & Hfr & Ht & ->). cbn [heap] in Hfr.
  pose proof (eq_trans (eq_sym Hfr) Hd) as [= ->]. clear Hfr.
  apply bind_inr in H as (ts & w6 & H6 & H).
  apply lift_inr in H6 as [Hts ->].
  apply bind_inr in H as (xs & w7 & H7 & H).
  apply lift_inr in H7 as [Hxs ->].
  apply bind_inr in H as (est & w8 & H8 & H).
  apply mapM_draws_inr in H8 as (Hlen & -> & Hest). cbn [heap draws log] in *.
  apply bind_inr in H as (df & w9 & H9 & H).
  apply lift_inr in H9 as [Hdf ->].
  apply bind_inr in H as (Ds & w10 & H10 & H).
  apply (rounds_inr env g t df (length (heap w)) frame) in H10
    as (vs & Hvs & -> & HlD & Htake & Hlast); [|exact Hd].
  cbn [heap draws log] in *. rewrite length_np_empty in HlD, Htake.
  assert (Ds = vs) as <-.
  { rewrite <- Htake by lia. rewrite <- HlD at 1. now rewrite take_ge. }
  apply bind_inr in H as (final & w11 & H11 & H).
  apply load_inr in H11 as [H11 ->]. cbn [heap] in H11.
  rewrite list_lookup_insert_eq in H11
    by (rewrite length_app; cbn; lia).
  injection H11 as <-.
  apply bind_inr in H as (core' & w12 & H12 & H).
  apply lift_inr in H12 as [Hcore ->].
  apply ret_inr in H as [[= -> ->] ->].
  exists frame, D, Ds, xcells, xs, tcells, ts, est, df.
  repeat split; try assumption. f_equal.
  - rewrite insert_app_r_alt by lia. now rewrite Nat.sub_diag.
  - now rewrite <- (assoc_L (++)).
Qed.

End Inversion.



(** X13.  With at least one iteration, the core data returned by the
    modified Gini index does not hold the observed counts of the group:
    its group column holds the binomial draws of the last iteration, one
    per unit.  The frame of the caller itself is left as it was. *)
Theorem modified_gini_core_data_is_last_simulation
    env numba_binom cast_invalid cast_object data g t k w Dct core w' :
  _modified_gini env numba_binom cast_invalid cast_object data g t (S k) w
  = (inr (Dct, core), w') ->
  exists frame p ts est,
    heap w !! data = Some frame /\
    heap w' !! data = Some frame /\
    length est = length ts /\
    (forall j tj, ts !! j = Some tj ->
       exists arr, est !! j = Some arr /\
         numba_binom (draws w + j) tj p (S k) = inr arr) /\
    getitem core g
    = inr (map (fun arr => Num (of_Z (default 0%Z (arr !! k)))) est).
Proof.
  intros H. apply modified_gini_inr in H
    as (frame & D & Ds & xcells & xs & tcells & ts & est & df & Hf & _ & _ & _
        & _ & Hlen & Hest & Hdf & Hlast & _ & _ & Hcore & ->).
  exists frame, (fdiv (fsum xs) (of_Z (int_sum ts))), ts, est.
  split; [assumption|]. split; [now apply lookup_app_l_Some|].
  split; [assumption|]. split; [assumption|].
  destruct (Hlast k eq_refl) as [col Hcol].
  pose proof (transposed_inr _ _ _ _ Hdf Hcol) as ->.
  cbn [after_rounds] in Hcore. rewrite Hcol in Hcore. cbn [default] in Hcore.
  set (final := overwritten frame g _) in Hcore.
  assert (Hsel : exists cs sel,
            select_columns (columns final) (g :: cs) = inr sel /\
            columns core = sel).
  { unfold select in Hcore. destruct (negb (geo final)).
    - destruct (select_columns (columns final) [g; t]) as [e|sel] eqn:Hs;
        [discriminate|].
      injection Hcore as <-. now exists [t], sel.
    - destruct (select_columns (columns final) [g; t; geometry_name final])
        as [e|sel] eqn:Hs; [discriminate|].
      injection Hcore as <-. now exists [t; geometry_name final], sel. }
  destruct Hsel as (cs & sel & Hs & Hc).
  apply select_columns_inr in Hs as [_ Ha].
  unfold getitem. rewrite Hc, (Ha g (or_introl eq_refl)).
  unfold final, overwritten. cbn [columns]. rewrite assoc_set_same.
  unfold ints, id. now rewrite List.map_map.
Qed.

Lemma modified_gini_core_data_is_last_simulation_witness :
  getitem Sample.city_a "group_pop_var"
  = inr (Sample.column_of [10; 20; 30; 40]) /\
  exists est : list (list Z),
    getitem (mkFrame false "geometry" 4
               [("group_pop_var", Sample.column_of [0; 100; 0; 100]);
                ("total_pop_var", Sample.column_of [100; 100; 100; 100])])
      "group_pop_var"
    = inr (map (fun arr => Num (of_Z (default 0%Z (arr !! 2)))) est).
Proof.
  split; [reflexivity|].
  assert (Hrun :
    Trial._modified_gini 0 "group_pop_var" "total_pop_var" 3 Sample.world
    = (inr (Fin (-2 # 3),
            mkFrame false "geometry" 4
              [("group_pop_var", Sample.column_of [0; 100; 0; 100]);
               ("total_pop_var", Sample.column_of [100; 100; 100; 100])]),
       (Trial._modified_gini 0 "group_pop_var" "total_pop_var" 3
          Sample.world).2))
    by (vm_compute; reflexivity).
  destruct (modified_gini_core_data_is_last_simulation
              _ _ _ _ _ _ _ _ _ _ _ _ Hrun)
    as (frame & p & ts & est & _ & _ & _ & _ & Hg).
  now exists est.
Defined.

Lemma adjusted_nan (D : fval) : adjusted D NaN = NaN.
Proof. unfold adjusted. now destruct D. Qed.

(** X14.  Without any iteration the modified Gini index is not a number,
    whatever the data: the mean of no simulation is NaN.  The Gini formula
    has been called once, and the core data holds the observed counts. *)
Theorem modified_gini_without_iterations
    env numba_binom cast_invalid cast_object data g t w Dct core w' :
  _modified_gini env numba_binom cast_invalid cast_object data g t 0 w
  = (inr (Dct, core), w') ->
  Dct = NaN /\
  exists frame D,
    heap w !! data = Some frame /\
    (if negb (geo frame) then select frame [g; t]
     else select frame [g; t; geometry_name frame]) = inr core /\
    log w' = log w ++ [CallIndex "_gini_seg" (Single g t) (inr D)].
Proof.
  intros H. apply modified_gini_inr in H
    as (frame & D & Ds & xcells & xs & tcells & ts & est & df & Hf & _ & _ & _
        & _ & _ & _ & _ & _ & Hlen & -> & Hcore & ->).
  apply nil_length_inv in Hlen. subst Ds. split; [apply adjusted_nan|].
  exists frame, D. now repeat split.
Qed.

Lemma modified_gini_without_iterations_witness :
  NaN = NaN /\
  exists frame D,
    heap Sample.world !! 0 = Some frame /\
    (if negb (geo frame) then select frame ["group_pop_var"; "total_pop_var"]
     else select frame ["group_pop_var"; "total_pop_var";
                        geometry_name frame]) = inr Sample.city_a /\
    [gini_call "group_pop_var" "total_pop_var" (Fin (1 # 3))]
    = [] ++ [CallIndex "_gini_seg" (Single "group_pop_var" "total_pop_var")
               (inr D)].
Proof.
  assert (Hrun :
    Trial._modified_gini 0 "group_pop_var" "total_pop_var" 0 Sample.world
    = (inr (NaN, Sample.city_a),
       (Trial._modified_gini 0 "group_pop_var" "total_pop_var" 0
          Sample.world).2))
    by (vm_compute; reflexivity).
  exact (modified_gini_without_iterations _ _ _ _ _ _ _ _ _ _ _ Hrun).
Defined.

Lemma fdiv_finite (a b : Q) :
  ~ (b == 0)%Q -> exists q, fdiv (Fin a) (Fin b) = Fin q /\ (q == a / b)%Q.
Proof.
  intros Hb. cbn [fdiv].
  destruct (Qeq_bool b 0) eqn:Hz; [now apply Qeq_bool_eq in Hz|].
  eexists. split; [reflexivity|]. apply Qred_correct.
Qed.

(** X15.  For an observed index [D] between 0 and 1 and a mean [D_star] of
    the simulations strictly between 0 and 1, the corrected index lies
    between -1 and 1; it is negative exactly when the observed index is
    below the mean of the simulations. *)
Theorem modified_gini_correction_bounds (d s : Q) :
  (0 <= d)%Q -> (d <= 1)%Q -> (0 < s)%Q -> (s < 1)%Q ->
  exists q,
    adjusted (Fin d) (Fin s) = Fin q /\
    (-1 <= q)%Q /\ (q <= 1)%Q /\
    ((s <= d)%Q -> (0 <= q)%Q) /\
    ((d < s)%Q -> (q < 0)%Q).
Proof.
  intros Hd0 Hd1 Hs0 Hs1. unfold adjusted, fgeb, fltb.
  assert (Hge : (s <= d)%Q ->
    exists q, fdiv (fsub (Fin d) (Fin s)) (fsub (of_Z 1%Z) (Fin s)) = Fin q /\
              (0 <= q)%Q /\ (q <= 1)%Q).
  { intros Hsd. cbn [fsub of_Z]. unfold fin.
    destruct (fdiv_finite (Qred (d - s)) (Qred (1 - s))) as (q & Hq & Heq).
    { rewrite Qred_correct. lra. }
    exists q. split; [exact Hq|]. rewrite Heq, !Qred_correct. split.
    - apply Qle_shift_div_l; lra.
    - apply Qle_shift_div_r; lra. }
  assert (Hlt : (d < s)%Q ->
    exists q, fdiv (fsub (Fin d) (Fin s)) (Fin s) = Fin q /\
              (-1 <= q)%Q /\ (q < 0)%Q).
  { intros Hds. cbn [fsub]. unfold fin.
    destruct (fdiv_finite (Qred (d - s)) s) as (q & Hq & Heq); [lra|].
    exists q. split; [exact Hq|]. rewrite Heq, !Qred_correct. split.
    - apply Qle_shift_div_l; lra.
    - apply Qlt_shift_div_r; lra. }
  destruct (d ?= s)%Q eqn:Hc; cbn [negb].
  - apply Qeq_alt in Hc. destruct Hge as (q & Hq & H0 & H1); [lra|].
    exists q. repeat split; try assumption; intros; lra.
  - apply Qlt_alt in Hc. destruct (Hlt Hc) as (q & Hq & H0 & H1).
    exists q. repeat split; try assumption; intros; lra.
  - apply Qgt_alt in Hc. destruct Hge as (q & Hq & H0 & H1); [lra|].
    exists q. repeat split; try assumption; intros; lra.
Qed.

Lemma modified_gini_correction_bounds_witness :
  exists q,
    adjusted (Fin (1 # 3)) (Fin (1 # 2)) = Fin q /\
    (-1 <= q)%Q /\ (q <= 1)%Q.
Proof.
  destruct (modified_gini_correction_bounds (1 # 3) (1 # 2))
    as (q & Hq & Hlo & Hhi & _); try (unfold Qle, Qlt; cbn; lia).
  now exists q.
Defined.

Lemma column_run r c df col w :
  heap w !! r = Some df -> getitem df c = inr col ->
  column r c w = (inr col, w).
Proof.
  intros H Hc. unfold column, lift.
  rewrite bind_run, (load_run _ _ _ H). cbv iota beta. now rewrite Hc.
Qed.

Lemma call_index_run env f df args kw v core w :
  apply_index env f df args kw = inr (v, core) ->
  call_index env f df args kw w
  = (inr v, mkWorld (heap w) (draws w) (log w ++ [CallIndex f args (inr v)])).
Proof. intros H. unfold call_index. now rewrite H. Qed.

Lemma no_draw_no_round env d g t k Ds w :
  for_range (S k) (simulation_round env d g t []) Ds w
  = (inl (KeyError "0"), w).
Proof.
  induction k as [|k IH].
  - reflexivity.
  - change (for_range (S (S k)) (simulation_round env d g t []) Ds w)
      with ((for_range (S k) (simulation_round env d g t []) Ds
             ≫= simulation_round env d g t [] (S k)) w).
    now rewrite bind_run, IH.
Qed.

(** X16.  On a frame without any unit the modified Gini index fails as soon
    as one iteration is asked for: no draw is made, the table of draws has
    no column, and reading the draws of the first iteration raises
    KeyError 0 (provided the Gini formula itself accepts the frame). *)
Theorem modified_gini_on_no_unit
    env numba_binom cast_invalid cast_object data g t k w frame D core :
  heap w !! data = Some frame ->
  getitem frame g = inr [] ->
  getitem frame t = inr [] ->
  apply_index env "_gini_seg" frame (Single g t) [] = inr (D, core) ->
  _modified_gini env numba_binom cast_invalid cast_object data g t (S k) w
  = (inl (KeyError "0"),
     mkWorld (heap w ++ [frame]) (draws w)
       (log w ++ [CallIndex "_gini_seg" (Single g t) (inr D)])).
Proof.
  intros Hf Hg Ht Hgini. unfold _modified_gini.
  assert (Hd : forall l,
            (mkWorld (heap w ++ [frame]) (draws w) l).(heap)
              !! length (heap w) = Some frame).
  { intros l. cbn [heap]. rewrite lookup_app_r by lia.
    now rewrite Nat.sub_diag. }
  rewrite bind_run, (copy_run _ _ _ Hf).
  rewrite bind_run, (load_run _ _ _ (Hd _)).
  rewrite bind_run, (call_index_run _ _ _ _ _ _ _ _ Hgini).
  cbn [heap draws log].
  rewrite bind_run, (column_run _ _ _ _ _ (Hd _) Hg).
  rewrite bind_run, (column_run _ _ _ _ _ (Hd _) Ht).
  rewrite bind_run. cbn [cast_column lift].
  rewrite bind_run. cbn [numeric lift].
  rewrite bind_run. cbn [mapM mret M_ret].
  rewrite bind_run. cbn [transposed lift].
  now rewrite bind_run, no_draw_no_round.
Qed.

Lemma modified_gini_on_no_unit_witness :
  Trial._modified_gini 12 "group_pop_var" "total_pop_var" 500 Cases.world
  = (inl (KeyError "0"),
     mkWorld (heap Cases.world ++ [Cases.nowhere]) 0
       [gini_call "group_pop_var" "total_pop_var" NaN]).
Proof.
  apply (modified_gini_on_no_unit Trial.env Trial.numba_binom
           Trial.cast_invalid Trial.cast_object 12 "group_pop_var"
           "total_pop_var" 499 Cases.world Cases.nowhere NaN Cases.nowhere);
    reflexivity.
Defined.

(** ** The rounds of the bootstrap *)

Section Bootstrap.

Variable env : Env.
Variable seg_class : SegIndex.
Variable n : nat.
Variable kw : kwargs.
Variable args : index_args.
Variable d : ref.
Variable frame : DataFrame.

Lemma bootstrap_rounds_inr k Es0 w1 st wk :
  heap w1 !! d = Some frame ->
  for_range k (bootstrap_round env seg_class n kw args) (d, Es0) w1
  = (inr st, wk) ->
  exists vs,
    length vs = k /\
    st.1 = d /\ length st.2 = length Es0 /\
    (k <= length Es0 -> take k st.2 = vs) /\
    wk = mkWorld (heap w1) (draws w1 + k)
           (log w1 ++ round_events (_function seg_class) args n vs) /\
    (forall i v, vs !! i = Some v ->
       exists sample core,
         iloc frame (random_choice env (draws w1 + i) (nrows frame)
                       (nrows frame) true) = inr sample /\
         apply_index env (_function seg_class) sample args kw
         = inr (v, core)).
Proof.
  intros Hd. revert st wk. induction k as [|k IH]; intros st wk H.
  - cbn in H. injection H as <- <-. exists []. cbn [length fst snd].
    unfold round_events. cbn [imap concat]. rewrite app_nil_r, Nat.add_0_r.
    split; [reflexivity|]. split; [reflexivity|]. split; [reflexivity|].
    split; [intros _; apply take_0|]. split; [now destruct w1|].
    intros i v Hi. discriminate.
  - cbn [for_range] in H. apply bind_inr in H as ([d' Es] & w2 & H1 & H).
    apply IH in H1 as (vs & Hlen & Hfst & Hl & Ht & -> & Hvs).
    cbn [fst snd] in Hfst, Hl, Ht. subst d'.
    unfold bootstrap_round in H.
    apply bind_inr in H as (fr & w3 & Hload & H).
    apply load_inr in Hload as [Hload ->]. cbn [heap] in Hload.
    pose proof (eq_trans (eq_sym Hload) Hd) as [= ->].
    apply bind_inr in H as (seed & w4 & Hdraw & H).
    unfold draw in Hdraw. injection Hdraw as <- <-. cbn [heap draws log] in H.
    apply bind_inr in H as (sample & w5 & Hs & H).
    apply lift_inr in Hs as [Hs ->].
    apply bind_inr in H as (v & w6 & Hcall & H).
    apply call_index_inr in Hcall as [[core Hcall] ->].
    apply bind_inr in H as (u & w7 & Hr & H).
    unfold report, emit in Hr. injection Hr as _ <-.
    apply ret_inr in H as [-> ->]. cbn [heap draws log fst snd].
    exists (vs ++ [v]). rewrite length_app, length_insert. cbn [length].
    split; [lia|]. split; [reflexivity|]. split; [assumption|].
    split; [|split].
    + intros Hk. rewrite take_insert_next by lia. rewrite Ht by lia.
      reflexivity.
    + f_equal; [lia|]. unfold round_events.
      rewrite imap_app, concat_app. cbn [imap concat].
      rewrite app_nil_r, Nat.add_0_r, Hlen, <- !(assoc_L (++)). reflexivity.
    + intros i x Hi. destruct (decide (i < length vs)) as [Hlt|Hge].
      * rewrite lookup_app_l in Hi by assumption. now apply Hvs.
      * rewrite lookup_app_r in Hi by lia.
        destruct (i - length vs) as [|j] eqn:Hj; [|discriminate].
        injection Hi as <-. replace i with k by lia. now exists sample, core.
Qed.

End Bootstrap.

Lemma builtin_sum_div_world mask k w r w' :
  builtin_sum_div mask k w = (r, w') -> w' = w.
Proof.
  unfold builtin_sum_div. destruct mask, k; cbn; intros H; now inversion H.
Qed.

(** X17.  A bootstrap run that returns has left the data of the index and
    its own copy untouched and has made exactly one random draw per round:
    round [i] draws as many row positions as the frame has rows, with
    replacement, evaluates the index formula on those rows of the copy, on
    the variables of the index, and reports its progress.  The estimates
    returned are the finite ones among these values, and the log holds the
    rounds in order, followed by the warning when a value was dropped. *)
Theorem bootstrap_resamples_rows env seg_class n two_tailed kw w res w' :
  _infer_segregation env seg_class n "bootstrap" two_tailed kw w
  = (inr res, w') ->
  exists frame vs,
    heap w !! data seg_class = Some frame /\
    heap w' = heap w ++ [frame] /\
    draws w' = draws w + n /\
    length vs = n /\
    (forall i v, vs !! i = Some v ->
       exists sample core,
         iloc frame (random_choice env (draws w + i) (nrows frame)
                       (nrows frame) true) = inr sample /\
         apply_index env (_function seg_class) sample (own_args seg_class) kw
         = inr (v, core)) /\
    est_sim res = List.filter (fun x => negb (degenerate x)) vs /\
    log w' = log w ++ round_events (_function seg_class) (own_args seg_class)
                        n vs
                   ++ (if existsb degenerate vs then [Warning nan_inf_warning]
                       else []).
Proof.
  unfold _infer_segregation. known_approach. cbn [negb]. intros H.
  apply bind_inr in H as (u & w1 & Hg & H). apply ret_inr in Hg as [_ ->].
  apply bind_inr in H as (b & w1 & Hb & H).
  destruct two_tailed; try discriminate. apply ret_inr in Hb as [-> ->].
  apply bind_inr in H as (d & w1 & Hc & H).
  apply copy_inr in Hc as (frame & Hf & -> & ->).
  unfold only_if in H. cbv iota in H.
  apply bind_inr in H as (st0 & w1 & H0 & H). apply ret_inr in H0 as [-> ->].
  apply bind_inr in H as (st & w1 & Hloop & H).
  assert (Hd : (heap w ++ [frame]) !! length (heap w) = Some frame).
  { rewrite lookup_app_r by lia. now rewrite Nat.sub_diag. }
  assert (Hrounds : exists args,
            args = own_args seg_class /\
            for_range n (bootstrap_round env seg_class n kw args)
              (length (heap w), np_empty env n)
              (mkWorld (heap w ++ [frame]) (draws w) (log w))
            = (inr st, w1)).
  { unfold null_bootstrap, own_args in *.
    destruct (kind seg_class).
    - apply bind_inr in Hloop as (st' & w2 & Hl & Hr).
      apply ret_inr in Hr as [-> ->]. eauto.
    - apply bind_inr in Hloop as (st' & w2 & Hl & Hr).
      apply ret_inr in Hl as [-> ->]. eauto. }
  destruct Hrounds as (args & -> & Hrounds). clear Hloop.
  apply (bootstrap_rounds_inr _ _ _ _ _ _ frame) in Hrounds
    as (vs & Hlen & _ & Hl & Ht & -> & Hvs); [|exact Hd].
  rewrite length_np_empty in Hl, Ht.
  assert (Hst : st.2 = vs).
  { rewrite <- Ht by lia. rewrite <- Hl. symmetry. apply firstn_all. }
  cbn [heap draws log] in *.
  do 4 (apply bind_inr in H as (st' & w1 & H0 & H);
        apply ret_inr in H0 as [-> ->]).
  apply bind_inr in H as (est & w1 & Hrm & H).
  rewrite remove_nan_inf_run in Hrm. injection Hrm as <- <-.
  apply bind_inr in H as (p & w1 & Hp & H).
  assert (Hw : w1 = mkWorld (heap w ++ [frame]) (draws w + n)
                 ((log w ++ round_events (_function seg_class)
                              (own_args seg_class) n vs)
                  ++ (if existsb degenerate st.2
                      then [Warning nan_inf_warning] else []))).
  { match type of Hp with context [negb ?x] => destruct (negb x) end.
    - now apply builtin_sum_div_world in Hp.
    - now apply ret_inr in Hp as [_ ->]. }
  subst w1. apply ret_inr in H as [-> ->]. cbn [heap draws log est_sim].
  rewrite Hst. exists frame, vs. rewrite <- (assoc_L (++)).
  repeat split; try assumption; reflexivity.
Qed.

Lemma bootstrap_resamples_rows_witness :
  exists frame vs,
    heap Sample.world !! data Sample.index_a = Some frame /\
    length vs = 2 /\
    [Fin (4 # 15); Fin (4 # 15)]
    = List.filter (fun x => negb (degenerate x)) vs.
Proof.
  assert (Hrun :
    _infer_segregation Sample.env Sample.index_a 2 "bootstrap" (PyBool true)
      [] Sample.world
    = (inr (mkInference (Fin 0) [Fin (4 # 15); Fin (4 # 15)] (Fin (4 # 15))
              "Dissim"),
       (_infer_segregation Sample.env Sample.index_a 2 "bootstrap"
          (PyBool true) [] Sample.world).2))
    by (vm_compute; reflexivity).
  destruct (bootstrap_resamples_rows _ _ _ _ _ _ _ _ Hrun)
    as (frame & vs & Hf & _ & _ & Hlen & _ & Hest & _).
  exists frame, vs. split; [exact Hf|]. split; [exact Hlen | exact Hest].
Defined.

(** ** The test objects and their default arguments *)

Lemma systematic_multigroup env seg_class frame n b kw w :
  kind seg_class = MultiGroupIndex ->
  heap w !! data seg_class = Some frame ->
  _infer_segregation env seg_class n "systematic" (PyBool b) kw w
  = (inl (ValueError "Not implemented for MultiGroup indexes."),
     mkWorld (heap w ++ [frame]) (draws w) (log w)).
Proof.
  intros Hk Hf. unfold _infer_segregation.
  rewrite bind_run; known_approach; cbn [mret M_ret negb];
    rewrite bind_run; cbn [mret M_ret];
    rewrite bind_run, (copy_run _ _ _ Hf); pass_blocks.
  unfold null_systematic. rewrite Hk, bind_run. reflexivity.
Qed.

Lemma infer_copies env seg_class n approach two_tailed kw w res w' :
  _infer_segregation env seg_class n approach two_tailed kw w = (inr res, w') ->
  exists frame, heap w !! data seg_class = Some frame.
Proof.
  unfold _infer_segregation. intros H.
  apply bind_inr in H as (u & w1 & Hg & H).
  assert (w1 = w) as ->.
  { destruct (negb _); [discriminate|]. now apply ret_inr in Hg as [_ ->]. }
  apply bind_inr in H as (b & w1 & Hb & H).
  destruct two_tailed; try discriminate. apply ret_inr in Hb as [-> ->].
  apply bind_inr in H as (d & w1 & Hc & H).
  apply copy_inr in Hc as (frame & Hf & _). now exists frame.
Qed.

(** X18.  A [SingleValueTest] built with the default arguments runs the
    systematic approach: on a multigroup index the constructor raises the
    not-implemented ValueError right after the copy of the data, without
    any draw.  When the constructor returns, the index is a single-group
    one, the test holds the statistic and the class name of the index, at
    most 500 simulated values, all finite, and the two-tailed p-value of
    the statistic among them. *)
Theorem single_value_test_defaults env seg_class kw w :
  (forall frame,
     kind seg_class = MultiGroupIndex ->
     heap w !! data seg_class = Some frame ->
     SingleValueTest.__init__ env seg_class None None None kw w
     = (inl (ValueError "Not implemented for MultiGroup indexes."),
        mkWorld (heap w ++ [frame]) (draws w) (log w))) /\
  (forall test w',
     SingleValueTest.__init__ env seg_class None None None kw w
     = (inr test, w') ->
     kind seg_class = SingleGroupIndex /\
     SingleValueTest.statistic test = statistic seg_class /\
     SingleValueTest._class_name test = _class_name_of seg_class /\
     length (SingleValueTest.est_sim test) <= 500 /\
     Forall (fun x => isfinite x = true) (SingleValueTest.est_sim test) /\
     SingleValueTest.p_value test
     = two_tailed_p_value (SingleValueTest.est_sim test)
         (statistic seg_class)).
Proof.
  assert (Hmulti : forall frame,
    kind seg_class = MultiGroupIndex ->
    heap w !! data seg_class = Some frame ->
    SingleValueTest.__init__ env seg_class None None None kw w
    = (inl (ValueError "Not implemented for MultiGroup indexes."),
       mkWorld (heap w ++ [frame]) (draws w) (log w))).
  { intros frame Hk Hf. unfold SingleValueTest.__init__. cbn [default].
    rewrite bind_run.
    now rewrite (systematic_multigroup _ _ frame). }
  split; [exact Hmulti|]. intros test w' H.
  assert (Hk : kind seg_class = SingleGroupIndex).
  { destruct (kind seg_class) eqn:Hk; [reflexivity|].
    pose proof H as H'. unfold SingleValueTest.__init__ in H'.
    apply bind_inr in H' as (aux & w1 & H' & _).
    apply infer_copies in H' as [frame Hf].
    pose proof (eq_trans (eq_sym (Hmulti frame eq_refl Hf)) H) as Hno.
    discriminate Hno. }
  split; [exact Hk|]. unfold SingleValueTest.__init__ in H.
  cbn [default] in H. apply bind_inr in H as (aux & w1 & Hrun & H).
  apply infer_inr in Hrun as (b & raw & [= <-] & Hlen & -> & _).
  unfold infer_result in H. apply ret_inr in H as [-> _].
  cbn [SingleValueTest.statistic SingleValueTest._class_name
       SingleValueTest.est_sim SingleValueTest.p_value].
  split; [reflexivity|]. split; [reflexivity|]. split.
  { rewrite <- Hlen. apply filter_length_le. }
  split; [apply filter_all_finite | reflexivity].
Qed.

Lemma single_value_test_defaults_witness :
  SingleValueTest.__init__ Sample.env Sample.districts_index None None None []
    Sample.world
  = (inl (ValueError "Not implemented for MultiGroup indexes."),
     mkWorld (heap Sample.world ++ [Sample.districts]) 0 []) /\
  exists test,
    (SingleValueTest.__init__ Sample.env Sample.index_a None None None []
       Sample.world).1 = inr test /\
    length (SingleValueTest.est_sim test) <= 500 /\
    SingleValueTest.p_value test
    = two_tailed_p_value (SingleValueTest.est_sim test)
        (statistic Sample.index_a).
Proof.
  split.
  - apply (proj1 (single_value_test_defaults Sample.env
                    Sample.districts_index [] Sample.world)
             Sample.districts eq_refl eq_refl).
  - destruct (SingleValueTest.__init__ Sample.env Sample.index_a None None
                None [] Sample.world) as [[e|test] w'] eqn:Hrun.
    + exfalso.
      assert (Hok : match (SingleValueTest.__init__ Sample.env Sample.index_a
                             None None None [] Sample.world).1 with
                    | inl _ => False
                    | inr _ => True
                    end) by (vm_compute; exact I).
      rewrite Hrun in Hok. exact Hok.
    + exists test. split; [reflexivity|].
      destruct (proj2 (single_value_test_defaults Sample.env Sample.index_a
                         [] Sample.world) test w' Hrun)
        as (_ & _ & _ & Hlen & _ & Hp).
      split; [exact Hlen | exact Hp].
Defined.



